(** * prouter: a shallow embedding of [src/prouter.ts]

    The router is a TypeScript module with three parts: [RouteHelper]
    (route-pattern compiler, query and path parsing), [Router] (process-wide
    navigation state, handler table, chain invocation) and [RouteGroup]
    (groups of handlers mounted under a prefix).

    Conventions of the embedding.
    - A JavaScript string is a [string]; a character is one [ascii].  The
      embedding is exact on ASCII text; text above U+007F is represented by
      its UTF-8 bytes.
    - A Rocq string literal denotes the characters between its quotes with
      no escape processing, so a literal here is the *value* of the
      JavaScript literal it stands for: ['\\$1'] in the source is the three
      characters backslash, dollar, one.
    - [undefined] and [null] are kept apart where the source can tell them
      apart ([nullable]); an optional field that is only tested for
      presence is an [option].
    - Exceptions are values ([Throw]); the state reached when the exception
      is raised is kept, as in JavaScript.
    - A callback is a function of the request and of the state of the
      application; what it does to the router while it runs (by calling
      [use], [navigate], [listen], [stop], or by writing the location) is
      its [Effect], which [call] applies. *)

From Stdlib Require Import Ascii String List ZArith Lia DecimalString.
From stdpp Require Import base option list strings gmap.

(** ** JavaScript strings *)

Module Js.
#[local] Open Scope char_scope.

Definition chars (s : string) : list ascii := list_ascii_of_string s.
Definition str (l : list ascii) : string := string_of_list_ascii l.

Definition code (c : ascii) : nat := nat_of_ascii c.

(** [c] lies in the closed range [lo..hi] of character codes. *)
Definition in_range (lo hi c : ascii) : bool :=
  (code lo <=? code c)%nat && (code c <=? code hi)%nat.

Definition eqc (a b : ascii) : bool := Ascii.eqb a b.

(** An argument of [slice] as a position: negative counts from the end. *)
Definition rel_index (len : nat) (i : Z) : nat :=
  if (i <? 0)%Z then Z.to_nat (Z.max (Z.of_nat len + i) 0)
  else Nat.min (Z.to_nat i) len.

(** [s.slice(from, to)] *)
Definition slice (s : string) (from to : Z) : string :=
  let l := chars s in
  let a := rel_index (length l) from in
  let b := rel_index (length l) to in
  str (take (b - a) (drop a l)).

(** [s.slice(from)] *)
Definition slice_from (s : string) (from : Z) : string :=
  let l := chars s in
  str (drop (rel_index (length l) from) l).

(** [s.substr(from)] for a non-negative [from]. *)
Definition substr (s : string) (from : nat) : string := str (drop from (chars s)).

(** [s.charAt(i)]: the empty string out of range. *)
Definition charAt (s : string) (i : nat) : string :=
  match chars s !! i with
  | Some c => String c EmptyString
  | None => EmptyString
  end.

(** [s.split(sep)] for a one-character separator; never the empty array:
    the empty string splits into one empty piece. *)
Fixpoint split_chars (sep : ascii) (cur : list ascii) (l : list ascii) : list string :=
  match l with
  | [] => [str (rev cur)]
  | c :: t =>
      if eqc c sep then str (rev cur) :: split_chars sep [] t
      else split_chars sep (c :: cur) t
  end.

Definition split (s : string) (sep : ascii) : list string :=
  split_chars sep [] (chars s).

(** [arr.join(sep)] *)
Fixpoint join (sep : string) (l : list string) : string :=
  match l with
  | [] => EmptyString
  | [x] => x
  | x :: t => x +:+ sep +:+ join sep t
  end.

(** Truthiness of a string: non-empty. *)
Definition nonempty (s : string) : bool :=
  match s with EmptyString => false | _ => true end.

(** [(n).toString()] for a non-negative integer. *)
Definition nat_toString (n : nat) : string := NilZero.string_of_uint (Nat.to_uint n).

(** [a || b] on a possibly undefined string: [b] when [a] is undefined or
    empty. *)
Definition or_else (a : option string) (b : string) : string :=
  match a with
  | Some s => if nonempty s then s else b
  | None => b
  end.

(** [ToString] at an argument that may be [undefined]. *)
Definition toString_opt (a : option string) : string :=
  match a with Some s => s | None => "undefined" end.

End Js.

(** ** Regular expressions

    [RegExp] is a builtin of the language, not code of the router.  It is
    modelled after ECMAScript 5.1, section 15.10: a pattern is parsed into a
    syntax tree ([new_RegExp], failing with a [SyntaxError] when the text is
    not a pattern) and matched by backtracking with continuations, as the
    standard specifies it.  Covered: disjunction, greedy and lazy
    quantifiers, capturing and non-capturing groups, lookahead, classes and
    class escapes, anchors, word boundaries, back-references, and the flags
    [g], [i] and [m]. *)

Module RegExp.
Import Js.
#[local] Open Scope char_scope.

Inductive class_item : Type :=
  | CRange (lo hi : ascii)
  | CDigit (neg : bool)
  | CWord (neg : bool)
  | CSpace (neg : bool).

Inductive regex : Type :=
  | REmpty
  | RChar (c : ascii)
  | RAny
  | RClass (neg : bool) (items : list class_item)
  | RSeq (r1 r2 : regex)
  | RAlt (r1 r2 : regex)
  | RRepeat (r : regex) (min : nat) (max : option nat) (greedy : bool)
  | RGroup (n : nat) (r : regex)
  | RLook (neg : bool) (r : regex)
  | RBol
  | REol
  | RWordB (neg : bool)
  | RBackref (n : nat).

(** *** Characters *)

Definition is_digit (c : ascii) : bool := in_range "0" "9" c.
Definition is_upper (c : ascii) : bool := in_range "A" "Z" c.
Definition is_lower (c : ascii) : bool := in_range "a" "z" c.
Definition is_word (c : ascii) : bool :=
  is_digit c || is_upper c || is_lower c || eqc c "_".
Definition is_space (c : ascii) : bool :=
  in_range "009" "013" c || eqc c " ".
Definition is_line_terminator (c : ascii) : bool := eqc c "010" || eqc c "013".

Definition upper (c : ascii) : ascii :=
  if is_lower c then ascii_of_nat (code c - 32) else c.
Definition lower (c : ascii) : ascii :=
  if is_upper c then ascii_of_nat (code c + 32) else c.

(** [Canonicalize] of 15.10.2.8. *)
Definition canon (ignoreCase : bool) (c : ascii) : ascii :=
  if ignoreCase then upper c else c.

Definition item_mem (it : class_item) (c : ascii) : bool :=
  match it with
  | CRange lo hi => in_range lo hi c
  | CDigit neg => xorb neg (is_digit c)
  | CWord neg => xorb neg (is_word c)
  | CSpace neg => xorb neg (is_space c)
  end.

(** Some member of the class has the canonical form of [c]. *)
Definition class_mem (ignoreCase : bool) (items : list class_item) (c : ascii) : bool :=
  existsb (fun it =>
    item_mem it c || (ignoreCase && (item_mem it (upper c) || item_mem it (lower c))))
    items.

(** *** Matcher *)

Record mstate : Type := MState {
  m_pos : nat;                          (* endIndex *)
  m_prev : option ascii;                (* the character before endIndex *)
  m_rest : list ascii;                  (* the input from endIndex on *)
  m_caps : list (option (list ascii))   (* captures, group n at n - 1 *)
}.

Definition advance (x : mstate) (a : ascii) (t : list ascii) : mstate :=
  MState (S (m_pos x)) (Some a) t (m_caps x).

Definition with_caps (x : mstate) (caps : list (option (list ascii))) : mstate :=
  MState (m_pos x) (m_prev x) (m_rest x) caps.

Fixpoint groups_of (r : regex) : list nat :=
  match r with
  | RSeq r1 r2 | RAlt r1 r2 => groups_of r1 ++ groups_of r2
  | RRepeat r _ _ _ | RLook _ r => groups_of r
  | RGroup n r => n :: groups_of r
  | _ => []
  end.

Definition clear_caps (gs : list nat) (x : mstate) : mstate :=
  with_caps x (foldr (fun n caps => <[pred n := None]> caps) (m_caps x) gs).

Definition is_word_opt (o : option ascii) : bool :=
  match o with Some c => is_word c | None => false end.

(** The input starts with [s], up to case when [ignoreCase]. *)
Fixpoint match_literal (ic : bool) (s : list ascii) (x : mstate) : option mstate :=
  match s with
  | [] => Some x
  | c :: s' =>
      match m_rest x with
      | a :: t =>
          if eqc (canon ic a) (canon ic c) then match_literal ic s' (advance x a t)
          else None
      | [] => None
      end
  end.

Definition or_try {A} (a b : option A) : option A :=
  match a with Some y => Some y | None => b end.

Definition one_char (p : ascii -> bool) (x : mstate)
    (k : mstate -> option mstate) : option mstate :=
  match m_rest x with
  | a :: t => if p a then k (advance x a t) else None
  | [] => None
  end.

(** [RepeatMatcher] of 15.10.2.5, for the matcher [body] of the repeated
    atom, whose groups are [gs].  Every iteration either uses up a
    mandatory repetition or consumes a character (an empty iteration is
    rejected), so a [fuel] above [mn] plus the length of the rest of the
    input never reaches [0]. *)
Fixpoint repeat_matcher (body : mstate -> (mstate -> option mstate) -> option mstate)
    (gs : list nat) (greedy : bool) (k : mstate -> option mstate)
    (fuel mn : nat) (mx : option nat) (x : mstate) {struct fuel} : option mstate :=
  match fuel with
  | 0 => None
  | S fuel' =>
      match mx with
      | Some 0 => k x
      | _ =>
          let iter :=
            body (clear_caps gs x) (fun y =>
              if (mn =? 0)%nat && (m_pos y =? m_pos x)%nat then None
              else repeat_matcher body gs greedy k fuel' (pred mn) (pred <$> mx) y) in
          if (0 <? mn)%nat then iter
          else if greedy then or_try iter (k x)
          else or_try (k x) iter
      end
  end.

Section Matcher.
Variables (ic multiline : bool).

(** [m r x k]: match [r] at state [x], then continue with [k]; the first
    success in backtracking order. *)
Fixpoint m (r : regex) (x : mstate) (k : mstate -> option mstate) {struct r}
    : option mstate :=
  match r with
  | REmpty => k x
  | RChar c => one_char (fun a => eqc (canon ic a) (canon ic c)) x k
  | RAny => one_char (fun a => negb (is_line_terminator a)) x k
  | RClass neg items => one_char (fun a => xorb neg (class_mem ic items a)) x k
  | RSeq r1 r2 => m r1 x (fun y => m r2 y k)
  | RAlt r1 r2 => or_try (m r1 x k) (m r2 x k)
  | RRepeat r1 mn mx greedy =>
      repeat_matcher (m r1) (groups_of r1) greedy k
        (mn + length (m_rest x) + 1) mn mx x
  | RGroup n r1 =>
      m r1 x (fun y =>
        let s := take (m_pos y - m_pos x) (m_rest x) in
        k (with_caps y (<[pred n := Some s]> (m_caps y))))
  | RLook neg r1 =>
      match m r1 x Some with
      | Some y => if neg then None else k (with_caps x (m_caps y))
      | None => if neg then k x else None
      end
  | RBol =>
      match m_prev x with
      | None => k x
      | Some c => if multiline && is_line_terminator c then k x else None
      end
  | REol =>
      match m_rest x with
      | [] => k x
      | c :: _ => if multiline && is_line_terminator c then k x else None
      end
  | RWordB neg =>
      let a := is_word_opt (m_prev x) in
      let b := is_word_opt (head (m_rest x)) in
      if xorb neg (xorb a b) then k x else None
  | RBackref n =>
      match m_caps x !! pred n with
      | Some (Some s) =>
          match match_literal ic s x with
          | Some y => k y
          | None => None
          end
      | _ => k x
      end
  end.

(** The leftmost position from [x] on at which [r] matches. *)
Fixpoint scan (r : regex) (x : mstate) (rest : list ascii) {struct rest}
    : option (nat * mstate) :=
  match m r x Some with
  | Some y => Some (m_pos x, y)
  | None =>
      match rest with
      | [] => None
      | a :: t => scan r (advance x a t) t
      end
  end.

End Matcher.

(** *** Positions

    Notions for stating that matching moves forward in the input. *)

(** Every match of [r] takes at least one character. *)
Fixpoint consumes (r : regex) : bool :=
  match r with
  | RChar _ | RAny | RClass _ _ => true
  | RSeq r1 r2 => consumes r1 || consumes r2
  | RAlt r1 r2 => consumes r1 && consumes r2
  | RRepeat r mn mx _ => (0 <? mn)%nat && negb (bool_decide (mx = Some 0)) && consumes r
  | RGroup _ r => consumes r
  | _ => false
  end.

(** The length of the input of which [x] is a position. *)
Definition extent (x : mstate) : nat := m_pos x + length (m_rest x).

(** [x'] is [x] moved forward in the same input. *)
Definition ahead (x x' : mstate) : Prop :=
  m_pos x <= m_pos x' /\ extent x' = extent x.

(** The matcher [f] hands to its continuation a state ahead of its own,
    strictly ahead when [strict]. *)
Definition progresses (strict : bool)
    (f : mstate -> (mstate -> option mstate) -> option mstate) : Prop :=
  forall x k y, f x k = Some y ->
    exists x', k x' = Some y /\ ahead x x' /\ (strict = true -> m_pos x < m_pos x').

(** [x'] has as many captures as [x]. *)
Definition same_width (x x' : mstate) : Prop := length (m_caps x') = length (m_caps x).

(** The matcher [f] hands to its continuation a state with as many
    captures as its own. *)
Definition keeps_width (f : mstate -> (mstate -> option mstate) -> option mstate) : Prop :=
  forall x k y, f x k = Some y -> exists x', k x' = Some y /\ same_width x x'.

(** *** Pattern syntax (15.10.1, with the web-compatible identity escapes) *)

Definition hex_val (c : ascii) : option nat :=
  if is_digit c then Some (code c - 48)
  else if in_range "a" "f" c then Some (code c - 87)
  else if in_range "A" "F" c then Some (code c - 55)
  else None.

Fixpoint hex_digits (n : nat) (s : list ascii) (acc : nat) : option (nat * list ascii) :=
  match n with
  | 0 => Some (acc, s)
  | S n' =>
      match s with
      | c :: t =>
          match hex_val c with
          | Some v => hex_digits n' t (16 * acc + v)
          | None => None
          end
      | [] => None
      end
  end.

Fixpoint dec_digits (s : list ascii) (acc : nat) : nat * list ascii :=
  match s with
  | c :: t => if is_digit c then dec_digits t (10 * acc + (code c - 48)) else (acc, s)
  | [] => (acc, s)
  end.

(** The UTF-8 bytes of a code point below U+10000. *)
Definition utf8 (cp : nat) : list ascii :=
  if (cp <? 128)%nat then [ascii_of_nat cp]
  else if (cp <? 2048)%nat then
    [ascii_of_nat (192 + cp / 64); ascii_of_nat (128 + cp mod 64)]
  else
    [ascii_of_nat (224 + cp / 4096); ascii_of_nat (128 + (cp / 64) mod 64);
     ascii_of_nat (128 + cp mod 64)].

Definition lit (l : list ascii) : regex := foldr (fun c r => RSeq (RChar c) r) REmpty l.

(** What follows a backslash: a class escape, or one character. *)
Inductive escape : Type :=
  | EClass (it : class_item)
  | ECode (cp : nat).

(** The escapes shared by atoms and class atoms; [s] is the text after the
    backslash. *)
Definition parse_escape (s : list ascii) : option (escape * list ascii) :=
  match s with
  | [] => None
  | "d" :: t => Some (EClass (CDigit false), t)
  | "D" :: t => Some (EClass (CDigit true), t)
  | "w" :: t => Some (EClass (CWord false), t)
  | "W" :: t => Some (EClass (CWord true), t)
  | "s" :: t => Some (EClass (CSpace false), t)
  | "S" :: t => Some (EClass (CSpace true), t)
  | "t" :: t => Some (ECode 9, t)
  | "n" :: t => Some (ECode 10, t)
  | "v" :: t => Some (ECode 11, t)
  | "f" :: t => Some (ECode 12, t)
  | "r" :: t => Some (ECode 13, t)
  | "0" :: t => Some (ECode 0, t)
  | "c" :: l :: t =>
      if is_upper l || is_lower l then Some (ECode (code l mod 32), t)
      else Some (ECode (code "\"), "c" :: l :: t)
  | "x" :: t =>
      match hex_digits 2 t 0 with
      | Some (v, t') => Some (ECode v, t')
      | None => Some (ECode (code "x"), t)
      end
  | "u" :: t =>
      match hex_digits 4 t 0 with
      | Some (v, t') => Some (ECode v, t')
      | None => Some (ECode (code "u"), t)
      end
  | c :: t => Some (ECode (code c), t)
  end.

(** A class atom: one character or a class escape. *)
Definition class_atom (s : list ascii) : option (escape * list ascii) :=
  match s with
  | [] => None
  | "\" :: "b" :: t => Some (ECode 8, t)
  | "\" :: t => parse_escape t
  | c :: t => Some (ECode (code c), t)
  end.

Definition single (cp : nat) : class_item :=
  CRange (ascii_of_nat cp) (ascii_of_nat cp).

Definition escape_item (e : escape) : class_item :=
  match e with EClass it => it | ECode cp => single cp end.

(** The items of a class up to its closing bracket. *)
Fixpoint parse_class_items (fuel : nat) (s : list ascii)
    : option (list class_item * list ascii) :=
  match fuel with
  | 0 => None
  | S fuel' =>
      match s with
      | [] => None
      | "]" :: t => Some ([], t)
      | _ =>
          match class_atom s with
          | None => None
          | Some (a, s1) =>
              match s1 with
              | "-" :: "]" :: _ =>
                  match parse_class_items fuel' s1 with
                  | Some (its, s2) => Some (escape_item a :: its, s2)
                  | None => None
                  end
              | "-" :: s2 =>
                  match class_atom s2 with
                  | None => None
                  | Some (b, s3) =>
                      match a, b with
                      | ECode lo, ECode hi =>
                          if (hi <? lo)%nat then None
                          else
                            match parse_class_items fuel' s3 with
                            | Some (its, s4) =>
                                Some (CRange (ascii_of_nat lo) (ascii_of_nat hi) :: its, s4)
                            | None => None
                            end
                      | _, _ =>
                          match parse_class_items fuel' s3 with
                          | Some (its, s4) =>
                              Some (escape_item a :: single (code "-") :: escape_item b :: its, s4)
                          | None => None
                          end
                      end
                  end
              | _ =>
                  match parse_class_items fuel' s1 with
                  | Some (its, s2) => Some (escape_item a :: its, s2)
                  | None => None
                  end
              end
          end
      end
  end.

Definition parse_class (s : list ascii) : option (regex * list ascii) :=
  let '(neg, s1) := match s with "^" :: t => (true, t) | _ => (false, s) end in
  match parse_class_items (S (length s1)) s1 with
  | Some (its, s2) => Some (RClass neg its, s2)
  | None => None
  end.

(** A braced quantifier [{n}], [{n,}] or [{n,m}] at the head of [s]. *)
Definition parse_braces (s : list ascii) : option (nat * option nat * list ascii) :=
  match s with
  | "{" :: (c :: _) as t =>
      if is_digit c then
        let '(lo, t1) := dec_digits t 0 in
        match t1 with
        | "}" :: t2 => Some (lo, Some lo, t2)
        | "," :: "}" :: t2 => Some (lo, None, t2)
        | "," :: (d :: _) as t2 =>
            if is_digit d then
              let '(hi, t3) := dec_digits t2 0 in
              match t3 with
              | "}" :: t4 => Some (lo, Some hi, t4)
              | _ => None
              end
            else None
        | _ => None
        end
      else None
  | _ => None
  end.

Inductive quant_result : Type :=
  | QNone
  | QBad
  | QSome (min : nat) (max : option nat) (greedy : bool) (rest : list ascii).

Definition lazy_mark (mn : nat) (mx : option nat) (s : list ascii) : quant_result :=
  match s with
  | "?" :: t => QSome mn mx false t
  | _ => QSome mn mx true s
  end.

Definition parse_quant (s : list ascii) : quant_result :=
  match s with
  | "*" :: t => lazy_mark 0 None t
  | "+" :: t => lazy_mark 1 None t
  | "?" :: t => lazy_mark 0 (Some 1) t
  | "{" :: _ =>
      match parse_braces s with
      | Some (lo, Some hi, t) => if (hi <? lo)%nat then QBad else lazy_mark lo (Some hi) t
      | Some (lo, None, t) => lazy_mark lo None t
      | None => QNone
      end
  | _ => QNone
  end.

(** An atom followed by its optional quantifier. *)
Definition quantified (r : regex) (s : list ascii) (g : nat)
    : option (regex * list ascii * nat) :=
  match parse_quant s with
  | QNone => Some (r, s, g)
  | QBad => None
  | QSome mn mx greedy t => Some (RRepeat r mn mx greedy, t, g)
  end.

Definition escape_atom (e : escape) : regex :=
  match e with
  | EClass it => RClass false [it]
  | ECode cp => lit (utf8 cp)
  end.

(** [g] is the number of the next capturing group, counted by opening
    parenthesis from the left. *)
Fixpoint parse_disjunction (fuel : nat) (s : list ascii) (g : nat) {struct fuel}
    : option (regex * list ascii * nat) :=
  match fuel with
  | 0 => None
  | S fuel' =>
      match parse_alternative fuel' s g with
      | Some (r1, "|" :: s1, g1) =>
          match parse_disjunction fuel' s1 g1 with
          | Some (r2, s2, g2) => Some (RAlt r1 r2, s2, g2)
          | None => None
          end
      | other => other
      end
  end

with parse_alternative (fuel : nat) (s : list ascii) (g : nat) {struct fuel}
    : option (regex * list ascii * nat) :=
  match fuel with
  | 0 => None
  | S fuel' =>
      match s with
      | [] | "|" :: _ | ")" :: _ => Some (REmpty, s, g)
      | _ =>
          match parse_term fuel' s g with
          | Some (r1, s1, g1) =>
              match parse_alternative fuel' s1 g1 with
              | Some (r2, s2, g2) => Some (RSeq r1 r2, s2, g2)
              | None => None
              end
          | None => None
          end
      end
  end

with parse_term (fuel : nat) (s : list ascii) (g : nat) {struct fuel}
    : option (regex * list ascii * nat) :=
  match fuel with
  | 0 => None
  | S fuel' =>
      let group (wrap : regex -> regex) (t : list ascii) (g' : nat) :=
        match parse_disjunction fuel' t g' with
        | Some (r, ")" :: t1, g1) => quantified (wrap r) t1 g1
        | _ => None
        end in
      match s with
      | [] => None
      | "^" :: t => Some (RBol, t, g)
      | "$" :: t => Some (REol, t, g)
      | "\" :: "b" :: t => Some (RWordB false, t, g)
      | "\" :: "B" :: t => Some (RWordB true, t, g)
      | "(" :: "?" :: "=" :: t => group (RLook false) t g
      | "(" :: "?" :: "!" :: t => group (RLook true) t g
      | "(" :: "?" :: ":" :: t => group (fun r => r) t g
      | "(" :: "?" :: _ => None
      | "(" :: t => group (RGroup g) t (S g)
      | ")" :: _ | "*" :: _ | "+" :: _ | "?" :: _ | "|" :: _ => None
      | "{" :: t =>
          match parse_braces s with
          | Some _ => None
          | None => quantified (RChar "{") t g
          end
      | "[" :: t =>
          match parse_class t with
          | Some (r, t1) => quantified r t1 g
          | None => None
          end
      | "." :: t => quantified RAny t g
      | "\" :: c :: t =>
          if is_digit c && negb (eqc c "0") then
            let '(n, t1) := dec_digits (c :: t) 0 in quantified (RBackref n) t1 g
          else
            match parse_escape (c :: t) with
            | Some (e, t1) => quantified (escape_atom e) t1 g
            | None => None
            end
      | "\" :: [] => None
      | c :: t => quantified (RChar c) t g
      end
  end.

Fixpoint max_backref (r : regex) : nat :=
  match r with
  | RSeq r1 r2 | RAlt r1 r2 => Nat.max (max_backref r1) (max_backref r2)
  | RRepeat r _ _ _ | RGroup _ r | RLook _ r => max_backref r
  | RBackref n => n
  | _ => 0
  end.

(** *** RegExp objects *)

Record RegExp : Type := {
  source : string;
  global : bool;
  ignoreCase : bool;
  multiline : bool;
  tree : regex;
  (** [NcapturingParens]: the number of left capturing parentheses. *)
  ncaptures : nat
}.

Fixpoint parse_flags (s : list ascii) (g i ml : bool) : option (bool * bool * bool) :=
  match s with
  | [] => Some (g, i, ml)
  | "g" :: t => if g then None else parse_flags t true i ml
  | "i" :: t => if i then None else parse_flags t g true ml
  | "m" :: t => if ml then None else parse_flags t g i true
  | _ => None
  end.

(** [new RegExp(source, flags)]; [None] is the [SyntaxError]. *)
Definition new_RegExp (src flags : string) : option RegExp :=
  let s := chars src in
  match parse_flags (chars flags) false false false,
        parse_disjunction (4 * length s + 4) s 1 with
  | Some (g, i, ml), Some (r, [], n) =>
      if (max_backref r <=? pred n)%nat then
        Some {| source := src; global := g; ignoreCase := i; multiline := ml;
                tree := r; ncaptures := pred n |}
      else None
  | _, _ => None
  end.

(** The result array of a successful [exec]: [res[0]] is [matched],
    [res[n]] is [captures] at [n - 1], [res.index] is [index]. *)
Record MatchResult : Type := {
  index : nat;
  matched : string;
  captures : list (option string);
  end_index : nat
}.

(** [res[n]] *)
Definition res_get (res : MatchResult) (n : nat) : option string :=
  match n with
  | 0 => Some (matched res)
  | S n' => mjoin (captures res !! n')
  end.

(** The match found scanning forward from [lastIndex]. *)
Definition exec_from (re : RegExp) (s : string) (lastIndex : nat) : option MatchResult :=
  let l := chars s in
  if (length l <? lastIndex)%nat then None
  else
    let x := MState lastIndex (last (take lastIndex l)) (drop lastIndex l)
                    (replicate (ncaptures re) None) in
    match scan (ignoreCase re) (multiline re) (tree re) x (drop lastIndex l) with
    | Some (i, y) =>
        Some {| index := i;
                matched := str (take (m_pos y - i) (drop i l));
                captures := map (option_map str) (m_caps y);
                end_index := m_pos y |}
    | None => None
    end.

(** [re.exec(s)] and [re.test(s)] of a regular expression without the [g]
    flag (always from the start). *)
Definition exec (re : RegExp) (s : string) : option MatchResult := exec_from re s 0.
Definition test (re : RegExp) (s : string) : bool := bool_decide (is_Some (exec re s)).

End RegExp.

(** ** String methods taking a regular expression *)

Module JsRegExp.
Import Js RegExp.
#[local] Open Scope char_scope.

(** A regular-expression literal of the source.  Every literal used below
    is a pattern ([literals_are_patterns]); [unmatchable] is never
    reached. *)
Definition unmatchable : RegExp :=
  {| source := "[]"; global := false; ignoreCase := false; multiline := false;
     tree := RClass false []; ncaptures := 0 |}.

Definition literal (src flags : string) : RegExp :=
  default unmatchable (new_RegExp src flags).

(** The replacement text of [replace]: [$$], [$&] and [$1] to [$9]. *)
Fixpoint expand (repl : list ascii) (res : MatchResult) : list ascii :=
  match repl with
  | "$" :: "$" :: t => "$" :: expand t res
  | "$" :: "&" :: t => chars (matched res) ++ expand t res
  | "$" :: d :: t =>
      if is_digit d && negb (eqc d "0") && (code d - 48 <=? length (captures res))%nat
      then chars (default EmptyString (res_get res (code d - 48))) ++ expand t res
      else "$" :: d :: expand t res
  | c :: t => c :: expand t res
  | [] => []
  end.

(** With the [g] flag: every match from the left, an empty match moving
    [lastIndex] one character on.  The loop ends before [fuel] does
    ([replace_all_fuel]). *)
Fixpoint replace_all (fuel : nat) (re : RegExp) (s : string) (repl : list ascii)
    (copied lastIndex : nat) : list ascii :=
  match fuel with
  | 0 => drop copied (chars s)
  | S fuel' =>
      match exec_from re s lastIndex with
      | None => drop copied (chars s)
      | Some res =>
          take (index res - copied) (drop copied (chars s)) ++ expand repl res ++
          replace_all fuel' re s repl (end_index res)
            (if (end_index res =? index res)%nat then S (end_index res) else end_index res)
      end
  end.

(** [s.replace(re, repl)] with a string [repl]. *)
Definition replace (s : string) (re : RegExp) (repl : string) : string :=
  if global re then str (replace_all (String.length s + 2) re s (chars repl) 0 0)
  else
    match exec re s with
    | None => s
    | Some res =>
        str (take (index res) (chars s) ++ expand (chars repl) res ++
             drop (end_index res) (chars s))
    end.

(** The left capturing parentheses of a pattern, counted on its text: an
    opening parenthesis that is not escaped, not inside a class and not
    followed by a question mark. *)
Fixpoint count_parens (in_class : bool) (l : list ascii) : nat :=
  match l with
  | [] => 0
  | "\" :: _ :: t => count_parens in_class t
  | "[" :: t => count_parens true t
  | "]" :: t => count_parens false t
  | "(" :: "?" :: t => count_parens in_class t
  | "(" :: t => if in_class then count_parens in_class t else S (count_parens in_class t)
  | _ :: t => count_parens in_class t
  end.

Definition capturing_parens (src : string) : nat := count_parens false (chars src).

(** [s.match(re)] for [re] without the [g] flag. *)
Definition match_ (s : string) (re : RegExp) : option MatchResult := exec re s.

End JsRegExp.

(** ** URI decoding

    [decodeURIComponent] and [decodeURI] are builtins; they follow the
    [Decode] operation of ECMAScript 5.1, section 15.1.3.  [None] is the
    [URIError]. *)

Module URI.
Import Js RegExp.
#[local] Open Scope char_scope.

Definition hex2 (s : list ascii) : option (N * list ascii) :=
  match s with
  | a :: b :: t =>
      match hex_val a, hex_val b with
      | Some x, Some y => Some (N.of_nat (16 * x + y), t)
      | _, _ => None
      end
  | _ => None
  end.

(** The number of leading one bits of an octet with its top bit set. *)
Definition leading_ones (b : N) : nat :=
  if (b <? 192)%N then 1 else if (b <? 224)%N then 2
  else if (b <? 240)%N then 3 else if (b <? 248)%N then 4 else 5.

(** The marker bits of the first octet of an [n]-octet sequence. *)
Definition lead_bits (n : nat) : N :=
  match n with 2 => 192%N | 3 => 224%N | _ => 240%N end.

(** [n] further escapes, each an octet [10xxxxxx]; the code point so far
    is [v]. *)
Fixpoint continuation (n : nat) (s : list ascii) (v : N) (octets : list ascii)
    : option (N * list ascii * list ascii) :=
  match n with
  | 0 => Some (v, octets, s)
  | S n' =>
      match s with
      | "%" :: t =>
          match hex2 t with
          | Some (b, t') =>
              if (128 <=? b)%N && (b <? 192)%N
              then continuation n' t' (v * 64 + (b - 128))%N
                     (octets ++ [ascii_of_N b])
              else None
          | None => None
          end
      | _ => None
      end
  end.

(** The octets are the UTF-8 encoding of [v]: shortest form, no surrogate,
    at most U+10FFFF. *)
Definition valid_code_point (n : nat) (v : N) : bool :=
  match n with
  | 2 => (128 <=? v)%N
  | 3 => (2048 <=? v)%N && negb ((55296 <=? v)%N && (v <=? 57343)%N)
  | 4 => (65536 <=? v)%N && (v <=? 1114111)%N
  | _ => false
  end.

Fixpoint decode (fuel : nat) (reserved : list ascii) (s : list ascii)
    : option (list ascii) :=
  match fuel with
  | 0 => Some []
  | S fuel' =>
      match s with
      | [] => Some []
      | "%" :: t =>
          match hex2 t with
          | None => None
          | Some (b, t') =>
              if (b <? 128)%N then
                let c := ascii_of_N b in
                let piece := if existsb (eqc c) reserved then take 3 s else [c] in
                (piece ++.) <$> decode fuel' reserved t'
              else
                let n := leading_ones b in
                if (n =? 1)%nat || (4 <? n)%nat then None
                else
                  let first := (b - lead_bits n)%N in
                  match continuation (pred n) t' first [ascii_of_N b] with
                  | Some (v, octets, t'') =>
                      if valid_code_point n v
                      then (octets ++.) <$> decode fuel' reserved t''
                      else None
                  | None => None
                  end
          end
      | c :: t => (c ::.) <$> decode fuel' reserved t
      end
  end.

Definition decodeURIComponent (s : string) : option string :=
  str <$> decode (String.length s) [] (chars s).

Definition decodeURI (s : string) : option string :=
  str <$> decode (String.length s) (chars ";/?:@&=+$,#") (chars s).

End URI.

(** ** Values, exceptions, the browser *)

(** A variable that may hold [undefined], [null] or a value. *)
Inductive nullable (A : Type) : Type :=
  | undefined
  | null
  | val (a : A).
Arguments undefined {A}.
Arguments null {A}.
Arguments val {A} a.

#[global] Instance nullable_eq_dec {A} `{EqDecision A} : EqDecision (nullable A).
Proof. solve_decision. Defined.

(** Truthiness of an object reference. *)
Definition is_object {A} (v : nullable A) : bool :=
  match v with val _ => true | _ => false end.

(** What a callback may return. *)
Inductive JsVal : Type :=
  | VUndefined
  | VNull
  | VBool (b : bool)
  | VNumber (z : Z)
  | VString (s : string).

(** [v === false] *)
Definition is_false (v : JsVal) : bool :=
  match v with VBool false => true | _ => false end.

Inductive Error : Type :=
  | Err (message : string)   (* new Error(message) *)
  | URIError                 (* decodeURIComponent, decodeURI *)
  | SyntaxError              (* new RegExp *)
  | TypeError                (* a property of undefined or null, a call of a non-function *)
  | Thrown (v : JsVal).      (* whatever a callback throws *)

Inductive Result (A : Type) : Type :=
  | Return (a : A)
  | Throw (e : Error).
Arguments Return {A} a.
Arguments Throw {A} e.

#[global] Instance Result_ret : MRet Result := fun A a => Return a.
#[global] Instance Result_bind : MBind Result := fun A B k r =>
  match r with Return a => k a | Throw e => Throw e end.

Definition of_option {A} (e : Error) (o : option A) : Result A :=
  match o with Some a => Return a | None => Throw e end.

(** An exception that is not a [new Error(message)], the only kind that
    the router itself throws. *)
Definition foreign (e : Error) : Prop :=
  match e with Err _ => False | _ => True end.

(** The parts of a parsed URL that the router reads. *)
Record URL : Type := { pathname : string; search : string }.

(** The browser: the global object with its [location], [history] and event
    listeners, and the URL parser.  The router only calls into it; the
    properties below hold for every browser. *)
Class Browser : Type := {
  Window : Type;
  (** [new URL(path, 'http://example.com')], or the anchor element where
      there is no [URL]; [None] when the parser throws its [TypeError]. *)
  URL_new : string -> option URL;
  location_pathname : Window -> string;
  location_search : Window -> string;
  location_href : Window -> string;
  (** [history.pushState(null, null, url)] *)
  history_pushState : string -> Window -> Window;
  (** [location.hash = h] *)
  location_set_hash : string -> Window -> Window;
  (** [addEventListener(type, this._loadCurrent, false)] and its removal:
      the listener is always the function [_loadCurrent], handed over
      without its receiver; the browser keeps the type of the event. *)
  addEventListener : string -> Window -> Window;
  removeEventListener : string -> Window -> Window
}.

(** ** The contracts of the module *)

Record PathExpToken : Type := {
  name : string;
  prefix : string;
  delimiter : string;
  optional : bool;
  repeat : bool;
  pattern : string
}.

(** [PathExp extends RegExp] with an optional [keys]. *)
Record PathExp : Type := {
  regexp : RegExp.RegExp;
  keys : option (list PathExpToken)
}.

(** An object used as a map from strings to strings ([query], [params])
    is a [gmap] that holds its own properties.

    [o[k] = v] for a string [v], on an object made by [{}]: the property
    [k] is created or overwritten, except for the key [__proto__].  That
    key is the accessor of [Object.prototype], whose setter ignores a
    value that is not an object: the assignment creates no property. *)
Definition set_property (k v : string) (o : gmap string string) : gmap string string :=
  if bool_decide (k = "__proto__") then o else <[k := v]> o.

(** [interface Path]. *)
Record Path : Type := {
  path : string;
  query : gmap string string;
  queryString : string
}.

(** [parsed.path], for use where [path] names a parameter. *)
Definition path_of (parsed : Path) : string := path parsed.

(** [interface Request extends Path], with [params] and [oldPath]. *)
Record Request : Type := {
  r_path : string;
  r_query : gmap string string;
  r_queryString : string;
  r_params : gmap string string;
  r_oldPath : nullable string
}.

(** The options object read by [_tokensToPathExp]. *)
Record PathOptions : Type := {
  sensitive : option bool;
  strict : option bool;
  end_ : option bool
}.

Definition no_options : PathOptions :=
  {| sensitive := None; strict := None; end_ := None |}.

Definition truthy (b : option bool) : bool := default false b.

(** An element of the array returned by [_parse]. *)
Inductive Token : Type :=
  | TString (s : string)
  | TKey (k : PathExpToken).

(** ** RouteHelper *)

Module RouteHelper.
Import Js RegExp JsRegExp.

(** [/^\/+|\/+$/] *)
Definition LEADING_SLASHES_STRIPPER : RegExp := literal "^\/+|\/+$" EmptyString.

(** [/.*/] *)
Definition DEF_ROUTE : PathExp := {| regexp := literal ".*" EmptyString; keys := None |}.

Definition PATH_STRIPPER : RegExp :=
  literal
    (join "|"
       ["(\\.)";
        "([\/.])?(?:(?:\:(\w+)(?:\(((?:\\.|[^()])+)\))?|\(((?:\\.|[^()])+)\))([+*?])?|(\*))"])
    "g".

Definition _escapeString (str : string) : string :=
  replace str (literal "([.+*?=^!:${}()[\]|\/])" "g") "\$1".

Definition _escapeGroup (group : string) : string :=
  replace group (literal "([=!:$\/()])" "g") "\$1".

Definition clearSlashes (path : string) : string :=
  replace path LEADING_SLASHES_STRIPPER EmptyString.

Definition _flags (opts : PathOptions) : string :=
  if truthy (sensitive opts) then EmptyString else "i".

(** The state of the loop of [_parse] when [PATH_STRIPPER.exec] finds no
    further match. *)
Definition _parse_end (path : string) (tokens : list Token) (index : nat)
    (pathIt : string) : list Token :=
  let pathIt :=
    if (index <? String.length path)%nat then pathIt +:+ substr path index else pathIt in
  if nonempty pathIt then tokens ++ [TString pathIt] else tokens.

(** The [while] loop of [_parse].  [lastIndex] is the [lastIndex] of
    [PATH_STRIPPER], which carries the [g] flag: each [exec] resumes where
    the previous match ended, and the failing [exec] that ends the loop
    resets it to [0], so every call of [_parse] starts at [0].  A match of
    [PATH_STRIPPER] is never empty, so [fuel], one more than the length of
    [path], is not used up ([_parse_total]). *)
Fixpoint _parse_loop (fuel : nat) (path : string) (lastIndex : nat)
    (tokens : list Token) (key index : nat) (pathIt : string) : list Token :=
  match fuel with
  | 0 => _parse_end path tokens index pathIt
  | S fuel' =>
      match exec_from PATH_STRIPPER path lastIndex with
      | None => _parse_end path tokens index pathIt
      | Some res =>
          let m := matched res in
          let escaped := res_get res 1 in
          let offset := RegExp.index res in
          let pathIt := pathIt +:+ slice path (Z.of_nat index) (Z.of_nat offset) in
          let index := offset + String.length m in
          if nonempty (default EmptyString escaped) then
            _parse_loop fuel' path (end_index res) tokens key index
              (pathIt +:+ charAt (default EmptyString escaped) 1)
          else
            let tokens := if nonempty pathIt then tokens ++ [TString pathIt] else tokens in
            let pathIt := EmptyString in
            let prefix := res_get res 2 in
            let name := res_get res 3 in
            let capture := res_get res 4 in
            let group := res_get res 5 in
            let suffix := res_get res 6 in
            let asterisk := res_get res 7 in
            let repeat := bool_decide (suffix = Some "+") || bool_decide (suffix = Some "*") in
            let optional := bool_decide (suffix = Some "?") || bool_decide (suffix = Some "*") in
            let delimiter := or_else prefix "/" in
            let pattern :=
              or_else capture
                (or_else group
                   (if nonempty (default EmptyString asterisk) then ".*"
                    else "[^" +:+ delimiter +:+ "]+?")) in
            let named := nonempty (default EmptyString name) in
            let token :=
              {| name := if named then default EmptyString name else nat_toString key;
                 prefix := or_else prefix EmptyString;
                 delimiter := delimiter;
                 optional := optional;
                 repeat := repeat;
                 pattern := _escapeGroup pattern |} in
            _parse_loop fuel' path (end_index res) (tokens ++ [TKey token])
              (if named then key else S key) index pathIt
      end
  end.

Definition _parse (path : string) : list Token :=
  _parse_loop (S (String.length path)) path 0 [] 0 0 EmptyString.

(** The text added to [route] for one token. *)
Definition _token_route (token : Token) : string :=
  match token with
  | TString s => _escapeString s
  | TKey token =>
      let prefix := _escapeString (prefix token) in
      let capture := pattern token in
      let capture :=
        if repeat token then capture +:+ "(?:" +:+ prefix +:+ capture +:+ ")*"
        else capture in
      if optional token then
        if nonempty prefix then "(?:" +:+ prefix +:+ "(" +:+ capture +:+ "))?"
        else "(" +:+ capture +:+ ")?"
      else prefix +:+ "(" +:+ capture +:+ ")"
  end.

Definition _endsWithSlash (tokens : list Token) : bool :=
  match last tokens with
  | Some (TString lastToken) =>
      nonempty lastToken &&
      bool_decide (charAt lastToken (String.length lastToken - 1) = "/")
  | _ => false
  end.

(** The text given to [new RegExp] by [_tokensToPathExp]. *)
Definition _route_source (tokens : list Token) (options : PathOptions) : string :=
  let strict := truthy (strict options) in
  let end_ := negb (bool_decide (end_ options = Some false)) in
  let endsWithSlash := _endsWithSlash tokens in
  let route := foldl (fun route token => route +:+ _token_route token) EmptyString tokens in
  let route :=
    if negb strict then (if endsWithSlash then slice route 0 (-2) else route) +:+ "(?:\/(?=$))?"
    else route in
  let route :=
    if end_ then route +:+ "$"
    else route +:+ (if strict && endsWithSlash then EmptyString else "(?=\/|$)") in
  "^" +:+ route.

Definition _tokensToPathExp (tokens : list Token) (options : PathOptions)
    : Result RegExp :=
  of_option SyntaxError (new_RegExp (_route_source tokens options) (_flags options)).

Definition _keys_of (tokens : list Token) : list PathExpToken :=
  omap (fun t => match t with TKey k => Some k | TString _ => None end) tokens.

Definition stringToPathExp (path : string) (options : PathOptions) : Result PathExp :=
  let tokens := _parse path in
  pathExp ← _tokensToPathExp tokens options;
  mret {| regexp := pathExp; keys := Some (_keys_of tokens) |}.

(** The body of the loop of [parseQuery]:
    [searchParams[decodeURIComponent(pair[0])] = decodeURIComponent(pair[1])]. *)
Definition _parseQuery_step (searchParams : gmap string string) (param : string)
    : Result (gmap string string) :=
  let pair := split param "=" in
  k ← of_option URIError (URI.decodeURIComponent (toString_opt (pair !! 0)));
  v ← of_option URIError (URI.decodeURIComponent (toString_opt (pair !! 1)));
  mret (set_property k v searchParams).

Fixpoint _parseQuery_loop (searchParams : gmap string string) (paramsArr : list string)
    : Result (gmap string string) :=
  match paramsArr with
  | [] => mret searchParams
  | param :: rest =>
      searchParams ← _parseQuery_step searchParams param;
      _parseQuery_loop searchParams rest
  end.

(** The array [paramsArr] of [parseQuery]. *)
Definition _paramsArr (queryString : string) : list string :=
  let queryString :=
    if bool_decide (charAt queryString 0 = "?") then slice_from queryString 1
    else queryString in
  split queryString "&".

Definition parseQuery (queryString : string) : Result (gmap string string) :=
  _parseQuery_loop ∅ (_paramsArr queryString).

(** A piece of the query one of whose two sides is not percent-decodable. *)
Definition _param_fails (param : string) : Prop :=
  let pair := split param "=" in
  URI.decodeURIComponent (toString_opt (pair !! 0)) = None \/
  URI.decodeURIComponent (toString_opt (pair !! 1)) = None.

Section WithBrowser.
Context `{Browser}.

Definition parsePath (path : string) : Result Path :=
  parser ← of_option TypeError (URL_new path);
  let path := clearSlashes (pathname parser) in
  query ← parseQuery (search parser);
  mret {| path := path; query := query; queryString := search parser |}.

End WithBrowser.

End RouteHelper.

(** ** Router and RouteGroup *)

(** [interface Options]: every property is optional. *)
Record Options : Type := {
  mode : option string;
  root : option string;
  silent : option bool
}.

Module Router.
Import Js RegExp JsRegExp RouteHelper.

(** The three configuration errors, each a [new Error] with its message. *)
Definition AlreadyListening : Error := Err "Router already listening.".
Definition InvalidMode (mode : option string) : Error :=
  Err ("Invalid mode '" +:+ toString_opt mode +:+ "'. Valid modes are: 'history', 'hash'.").
Definition NotListening : Error :=
  Err "It is required to call the 'listen' function before navigating.".

(** [{}] *)
Definition empty_options : Options := {| mode := None; root := None; silent := None |}.

Definition _DEF_OPTIONS : Options :=
  {| mode := Some "hash"; root := Some "/"; silent := Some false |}.

(** One turn of the loop over the properties of [_DEF_OPTIONS] in
    [listen]: the given value when it [!== undefined], else the default
    when the property is still [undefined]. *)
Definition _merge_prop {A} (given current dflt : option A) : option A :=
  match given with
  | Some v => Some v
  | None => match current with None => dflt | Some c => Some c end
  end.

Definition _merge (options current : Options) : Options :=
  {| mode := _merge_prop (mode options) (mode current) (mode _DEF_OPTIONS);
     root := _merge_prop (root options) (root current) (root _DEF_OPTIONS);
     silent := _merge_prop (silent options) (silent current) (silent _DEF_OPTIONS) |}.

Section WithBrowser.
Context `{Browser}.
(** The state of the application, which the callbacks read and write. *)
Context {App : Type}.

(** How a callback ends: it returns a value, or throws: a value of its
    own ([Thrown]) or an exception that a call it made has thrown, which
    can be one of the router itself. *)
Inductive Completion : Type :=
  | Normal (v : JsVal)
  | Abrupt (e : Error).

(** What a callback leaves of the router.  A callback is any function:
    while it runs it can call back into the router ([use], [navigate],
    [listen], [stop], which run callbacks in turn) and write the location.
    [Effect] holds what is there when it ends: the window, the options,
    the loaded path and the handler table, each one where the callback
    has changed it ([F] is the type of the callbacks of the table).  The
    state of the application stands for all that a callback can tell
    apart, so the same function can leave another effect at each call. *)
Record Effect (F : Type) : Type := {
  new_window : option Window;
  new_options : option (nullable Options);
  new_loadedPath : option (nullable string);
  new_handlers : option (list (PathExp * F))
}.
Arguments new_window {F} e.
Arguments new_options {F} e.
Arguments new_loadedPath {F} e.
Arguments new_handlers {F} e.

(** The router is as the callback found it. *)
Definition untouched {F : Type} : Effect F :=
  {| new_window := None; new_options := None; new_loadedPath := None;
     new_handlers := None |}.

(** A value passed where the source takes [any].  A function is given
    the request and the state of the application; it ends with a
    completion, the new state of the application and its effect on the
    router. *)
#[warnings="-register-all"]
Inductive Arg : Type :=
  | AUndefined
  | AFunction (f : Request -> App -> Completion * App * Effect Arg)
  | AString (s : string).

Definition Activate : Type := Request -> App -> Completion * App * Effect Arg.

Record Handler : Type := { pathExp : PathExp; activate : Arg }.

Record GroupHandler : Type := { g_path : Arg; g_activate : Arg }.

(** [class RouteGroup], whose only field is [_handlers]. *)
Record RouteGroup : Type := { g_handlers : list GroupHandler }.

Definition new_RouteGroup : RouteGroup := {| g_handlers := [] |}.

(** [RouteGroup.prototype.use] *)
Definition RouteGroup_use (path activate : Arg) (group : RouteGroup) : RouteGroup :=
  {| g_handlers := g_handlers group ++ [{| g_path := path; g_activate := activate |}] |}.

(** An argument of [Router.use]: a value or a [RouteGroup]. *)
Inductive UseArg : Type :=
  | UValue (a : Arg)
  | UGroup (g : RouteGroup).

Record RequestProcessor : Type := { request : Request; p_activate : Arg }.

(** The static fields of [Router], the browser, the application, and a
    record of the calls made so far ([invoked], not part of the source:
    each callback invocation with the request it received). *)
Record State : Type := {
  window : Window;
  _options : nullable Options;
  _loadedPath : nullable string;
  _handlers : list Handler;
  app : App;
  invoked : list RequestProcessor
}.

Definition initial (w : Window) (a : App) : State :=
  {| window := w; _options := undefined; _loadedPath := undefined;
     _handlers := []; app := a; invoked := [] |}.

(** A method: it ends with a value or an exception, in a new state. *)
Definition M (A : Type) : Type := State -> Result A * State.

#[global] Instance M_ret : MRet M := fun A a st => (Return a, st).
#[global] Instance M_bind : MBind M := fun A B k m st =>
  match m st with
  | (Return a, st') => k a st'
  | (Throw e, st') => (Throw e, st')
  end.

Definition get : M State := fun st => (Return st, st).
Definition throw {A} (e : Error) : M A := fun st => (Throw e, st).
Definition lift {A} (r : Result A) : M A := fun st => (r, st).

Definition set_window (f : Window -> Window) : M unit := fun st =>
  (Return tt, {| window := f (window st); _options := _options st;
                 _loadedPath := _loadedPath st; _handlers := _handlers st;
                 app := app st; invoked := invoked st |}).
Definition set_options (o : nullable Options) : M unit := fun st =>
  (Return tt, {| window := window st; _options := o;
                 _loadedPath := _loadedPath st; _handlers := _handlers st;
                 app := app st; invoked := invoked st |}).
Definition set_loadedPath (p : nullable string) : M unit := fun st =>
  (Return tt, {| window := window st; _options := _options st;
                 _loadedPath := p; _handlers := _handlers st;
                 app := app st; invoked := invoked st |}).
Definition set_handlers (hs : list Handler) : M unit := fun st =>
  (Return tt, {| window := window st; _options := _options st;
                 _loadedPath := _loadedPath st; _handlers := hs;
                 app := app st; invoked := invoked st |}).

(** [this._options.p]: a [TypeError] when [_options] is [undefined] or
    [null]. *)
Definition options_of (st : State) : Result Options :=
  match _options st with
  | val o => Return o
  | _ => Throw TypeError
  end.

(** The handler table that a callback leaves. *)
Definition table (hs : list (PathExp * Arg)) : list Handler :=
  map (fun h => {| pathExp := h.1; activate := h.2 |}) hs.

(** [f.call(null, request)]: a [TypeError] when [f] is not a function.
    When the callback ends, normally or not, the router is as the
    callback has left it. *)
Definition call (f : Arg) (request : Request) : M JsVal := fun st =>
  match f with
  | AFunction fn =>
      let '(r, a, e) := fn request (app st) in
      (match r with Normal v => Return v | Abrupt x => Throw x end,
       {| window := default (window st) (new_window e);
          _options := default (_options st) (new_options e);
          _loadedPath := default (_loadedPath st) (new_loadedPath e);
          _handlers := default (_handlers st) (table <$> new_handlers e);
          app := a;
          invoked := invoked st ++ [{| request := request; p_activate := f |}] |})
  | _ => (Throw TypeError, st)
  end.

Definition with_oldPath (request : Request) (oldPath : nullable string) : Request :=
  {| r_path := r_path request; r_query := r_query request;
     r_queryString := r_queryString request; r_params := r_params request;
     r_oldPath := oldPath |}.

(** The loop over [args] in [_extractRequest]:
    [request.params[keys[i].name] = decodeURIComponent(args[i])]. *)
Fixpoint _extractRequest_loop (keys : option (list PathExpToken))
    (args : list (option string)) (i : nat) (params : gmap string string)
    : Result (gmap string string) :=
  match args with
  | [] => mret params
  | arg :: rest =>
      match arg with
      | Some a =>
          key ← of_option TypeError (keys ≫= (.!! i));
          v ← of_option URIError (URI.decodeURIComponent a);
          _extractRequest_loop keys rest (S i) (set_property (name key) v params)
      | None => _extractRequest_loop keys rest (S i) params
      end
  end.

Definition _extractRequest (path : string) (pathExp : option PathExp) : Result Request :=
  parsed ← parsePath path;
  let request :=
    {| r_path := path_of parsed; r_query := query parsed;
       r_queryString := queryString parsed; r_params := ∅; r_oldPath := undefined |} in
  match pathExp ≫= (fun pe => exec (regexp pe) (r_path request)) with
  | None => mret request
  | Some result =>
      let args := captures result in
      let keys := pathExp ≫= keys in
      params ← _extractRequest_loop keys args 0 ∅;
      mret {| r_path := r_path request; r_query := r_query request;
              r_queryString := r_queryString request; r_params := params;
              r_oldPath := r_oldPath request |}
  end.

Fixpoint _obtainRequestProcessors_loop (path : string) (parsedPath : Path)
    (handlers : list Handler) : Result (list RequestProcessor) :=
  match handlers with
  | [] => mret []
  | handler :: rest =>
      if test (regexp (pathExp handler)) (path_of parsedPath) then
        request ← _extractRequest path (Some (pathExp handler));
        rps ← _obtainRequestProcessors_loop path parsedPath rest;
        mret ({| request := request; p_activate := activate handler |} :: rps)
      else _obtainRequestProcessors_loop path parsedPath rest
  end.

Definition _obtainRequestProcessors (path : string) : M (list RequestProcessor) :=
  st ← get;
  lift (parsedPath ← parsePath path;
        _obtainRequestProcessors_loop path parsedPath (_handlers st)).

(** The loop of [_load]; its result is [count]. *)
Fixpoint _load_loop (requestProcessors : list RequestProcessor) (count : nat) : M nat :=
  match requestProcessors with
  | [] => mret count
  | requestProcessor :: rest =>
      st ← get;
      let request := with_oldPath (request requestProcessor) (_loadedPath st) in
      next ← call (p_activate requestProcessor) request;
      if is_false next then mret count
      else _load_loop rest (S count)
  end.

Definition _load (path : string) : M bool :=
  requestProcessors ← _obtainRequestProcessors path;
  count ← _load_loop requestProcessors 0;
  let navigated := (0 <? count)%nat in
  set_loadedPath (val path);;
  mret navigated.

Definition getCurrent : M string :=
  st ← get;
  o ← lift (options_of st);
  path ←
    (if bool_decide (mode o = Some "history") then
       decodedUri ← lift (of_option URIError
         (URI.decodeURI (location_pathname (window st) +:+ location_search (window st))));
       let path := clearSlashes decodedUri in
       if bool_decide (root o = Some "/") then mret path
       else
         r ← lift (of_option TypeError (root o));
         mret (slice_from path (Z.of_nat (String.length r)))
     else
       match match_ (location_href (window st)) (literal "#(.*)$" EmptyString) with
       | Some res => lift (of_option TypeError (res_get res 1))
       | None => mret EmptyString
       end);
  mret (clearSlashes path).

(** [_loadCurrent] called as a method of [Router], the way [listen]
    calls it. *)
Definition _loadCurrent : M bool :=
  currentPath ← getCurrent;
  st ← get;
  if bool_decide (val currentPath = _loadedPath st) then mret false
  else _load currentPath.

(** Who [this] is in a call of [_loadCurrent]: [Router] when [listen]
    calls it as a method; the global object when the browser calls it as
    the listener of a [popstate] or a [hashchange].  [listen] hands
    [this._loadCurrent] to [addEventListener] as it is, not bound to
    [Router], and the browser calls a listener with the target of the
    event as [this]. *)
Inductive Receiver : Type :=
  | ThisRouter
  | ThisWindow.

(** With the global object as [this] the first statement of
    [_loadCurrent], [this.getCurrent()], calls what is not a function
    (the global object has no [getCurrent] unless the page defines one):
    a [TypeError], before the guard and before any load. *)
Definition _loadCurrent_on (this : Receiver) : M bool :=
  match this with
  | ThisRouter => _loadCurrent
  | ThisWindow => throw TypeError
  end.

Definition listen (options : Options) : M bool :=
  st ← get;
  if is_object (_options st) then throw AlreadyListening
  else
    set_options (val empty_options);;
    set_options (val (_merge options empty_options));;
    st ← get;
    o ← lift (options_of st);
    (if bool_decide (mode o = Some "history") then
       set_window (addEventListener "popstate")
     else if bool_decide (mode o = Some "hash") then
       set_window (addEventListener "hashchange")
     else
       throw (InvalidMode (mode o)));;
    if negb (truthy (silent o)) then _loadCurrent else mret false.

Definition stop : M unit :=
  st ← get;
  o ← lift (options_of st);
  (if bool_decide (mode o = Some "history") then
     set_window (removeEventListener "popstate");;
     set_window (match root o with Some r => history_pushState r | None => id end)
   else
     set_window (removeEventListener "hashchange");;
     set_window (location_set_hash "#"));;
  set_handlers [];;
  set_loadedPath null;;
  set_options null.

(** [clearSlashes(path)] at an argument of type [any]: [path.replace] is a
    [TypeError] unless [path] is a string. *)
Definition clearSlashes_arg (path : Arg) : Result string :=
  match path with
  | AString s => Return (clearSlashes s)
  | _ => Throw TypeError
  end.

Definition is_function (a : Arg) : bool :=
  match a with AFunction _ => true | _ => false end.

(** The choice of [pathExp] in [_extractHandlers]. *)
Definition _group_pathExp (parentPath subPath : option string) : Result PathExp :=
  match parentPath, subPath with
  | None, None => Return DEF_ROUTE
  | None, Some subPath => stringToPathExp subPath no_options
  | Some parentPath, None => stringToPathExp parentPath no_options
  | Some parentPath, Some subPath =>
      stringToPathExp (parentPath +:+ "/" +:+ subPath) no_options
  end.

Fixpoint _extractHandlers_loop (parentPath : option string)
    (groupHandlers : list GroupHandler) (handlers : list Handler)
    : Result (list Handler) :=
  match groupHandlers with
  | [] => mret handlers
  | itHandler :: rest =>
      '(activate, subPath) ←
        (if is_function (g_path itHandler) then mret (g_path itHandler, None)
         else
           subPath ← clearSlashes_arg (g_path itHandler);
           mret (g_activate itHandler, Some subPath));
      pathExp ← _group_pathExp parentPath subPath;
      _extractHandlers_loop parentPath rest
        (handlers ++ [{| pathExp := pathExp; activate := activate |}])
  end.

(** [handlers] is the third parameter, the holder, whose default is [[]]. *)
Definition _extractHandlers (parentPath : option string) (routeGroup : RouteGroup)
    (handlers : list Handler) : Result (list Handler) :=
  _extractHandlers_loop parentPath (g_handlers routeGroup) handlers.

Definition use (path activate : UseArg) : M unit :=
  match path, activate with
  | UGroup group, _ =>
      handlers ← lift (_extractHandlers None group []);
      set_handlers handlers
  | UValue path, UGroup group =>
      parentPath ← lift (clearSlashes_arg path);
      handlers ← lift (_extractHandlers (Some parentPath) group []);
      set_handlers handlers
  | UValue path, UValue activate =>
      '(pathExp, activate) ←
        (if is_function path then mret (DEF_ROUTE, path)
         else
           path ← lift (clearSlashes_arg path);
           pathExp ← lift (stringToPathExp path no_options);
           mret (pathExp, activate));
      st ← get;
      set_handlers (_handlers st ++ [{| pathExp := pathExp; activate := activate |}])
  end.

Definition navigate (path : string) : M bool :=
  st ← get;
  if negb (is_object (_options st)) then
    throw NotListening
  else
    let path := clearSlashes path in
    o ← lift (options_of st);
    (if bool_decide (mode o = Some "history") then
       set_window (history_pushState (toString_opt (root o) +:+ path))
     else if bool_decide (mode o = Some "hash") then
       set_window (location_set_hash ("#" +:+ path))
     else mret tt);;
    _load path.

(** *** Notions used to state the properties *)

(** The browser, the options and the handler table are the same. *)
Definition same_setup (st st' : State) : Prop :=
  window st' = window st /\ _options st' = _options st /\ _handlers st' = _handlers st.

(** The request processor as its callback receives it in state [st]: with
    [oldPath] set to the loaded path. *)
Definition stamp (st : State) (rp : RequestProcessor) : RequestProcessor :=
  {| request := with_oldPath (request rp) (_loadedPath st); p_activate := p_activate rp |}.

(** A function that returns, whatever the request and the state of the
    application. *)
Definition total_callback (f : Arg) : Prop :=
  exists fn, f = AFunction fn /\
    forall request a, exists v a' e, fn request a = (Normal v, a', e).

(** A callback that leaves the router alone: it makes no call of
    [use], [navigate], [listen] or [stop] and does not write the
    location. *)
Definition quiet_callback (f : Arg) : Prop :=
  forall fn request a, f = AFunction fn -> (fn request a).2 = untouched.

(** The callbacks of the handler table leave the router alone. *)
Definition quiet_table (st : State) : Prop :=
  Forall (fun h => quiet_callback (activate h)) (_handlers st).

(** The entry that [group.use(path, activate)] adds to a group. *)
Definition member (path : string) (activate : Arg) : GroupHandler :=
  {| g_path := AString path; g_activate := activate |}.

(** The fragment [path] has a query segment, or a parameter captured by
    the first handler that matches it, whose percent-decoding fails. *)
Inductive decode_failure (st : State) (path : string) : Prop :=
  | query_failure (u : URL) (param : string) :
      URL_new path = Some u ->
      param ∈ _paramsArr (search u) ->
      _param_fails param ->
      decode_failure st path
  | param_failure (parsed : Path) (pre : list Handler) (h : Handler)
      (post : list Handler) (res : MatchResult) (a : string) :
      parsePath path = Return parsed ->
      _handlers st = pre ++ h :: post ->
      Forall (fun h' => test (regexp (pathExp h')) (path_of parsed) = false) pre ->
      exec (regexp (pathExp h)) (path_of parsed) = Some res ->
      Some a ∈ captures res ->
      URI.decodeURIComponent a = None ->
      decode_failure st path.

(** The path expression has a key for each capturing group of its
    pattern. *)
Definition keyed (pe : PathExp) : Prop :=
  ncaptures (regexp pe) <= length (default [] (keys pe)).

End WithBrowser.
End Router.

(** ** A plain browser

    An instance of [Browser] for running the router on concrete inputs: the
    location is kept as the three parts of its URL, a URL is cut at its
    first [#] and then at its first [?], and nothing is percent-encoded.
    On the plain fragments used below this is what a browser does. *)

Module PlainBrowser.
Import Js.

Record Location : Type := {
  l_pathname : string;
  l_search : string;
  l_fragment : option string;
  l_listeners : list string
}.

(** The text before the first [c], and the text after it if there is one. *)
Fixpoint cut_chars (c : ascii) (l : list ascii) : list ascii * option (list ascii) :=
  match l with
  | [] => ([], None)
  | a :: t =>
      if eqc a c then ([], Some t)
      else let '(before, after) := cut_chars c t in (a :: before, after)
  end.

Definition cut (c : ascii) (s : string) : string * option string :=
  let '(before, after) := cut_chars c (chars s) in (str before, str <$> after).

Definition parse_url (url : string) : URL * option string :=
  let '(rest, fragment) := cut "#" url in
  let '(p, q) := cut "?" rest in
  ({| pathname := if bool_decide (charAt p 0 = "/") then p else "/" +:+ p;
      search := match q with
                | Some q => if nonempty q then "?" +:+ q else EmptyString
                | None => EmptyString
                end |},
   fragment).

Definition href (l : Location) : string :=
  "http://example.com" +:+ l_pathname l +:+ l_search l +:+
  match l_fragment l with Some f => "#" +:+ f | None => EmptyString end.

Definition pushState (url : string) (l : Location) : Location :=
  let '(u, fragment) := parse_url url in
  {| l_pathname := pathname u; l_search := search u; l_fragment := fragment;
     l_listeners := l_listeners l |}.

Definition set_hash (h : string) (l : Location) : Location :=
  {| l_pathname := l_pathname l; l_search := l_search l;
     l_fragment := Some (if bool_decide (charAt h 0 = "#") then slice_from h 1 else h);
     l_listeners := l_listeners l |}.

Definition add_listener (type : string) (l : Location) : Location :=
  {| l_pathname := l_pathname l; l_search := l_search l; l_fragment := l_fragment l;
     l_listeners := if bool_decide (type ∈ l_listeners l) then l_listeners l
                    else l_listeners l ++ [type] |}.

Definition remove_listener (type : string) (l : Location) : Location :=
  {| l_pathname := l_pathname l; l_search := l_search l; l_fragment := l_fragment l;
     l_listeners := filter (fun t => t ≠ type) (l_listeners l) |}.

#[global] Instance browser : Browser := {
  Window := Location;
  URL_new url := Some (parse_url url).1;
  location_pathname := l_pathname;
  location_search := l_search;
  location_href := href;
  history_pushState := pushState;
  location_set_hash := set_hash;
  addEventListener := add_listener;
  removeEventListener := remove_listener
}.

(** A freshly opened page at the root of the site. *)
Definition home : Location :=
  {| l_pathname := "/"; l_search := EmptyString; l_fragment := None; l_listeners := [] |}.

End PlainBrowser.

(** ** Sample routers

    Callbacks that log their tag in the application state, and the routers
    on which the properties below are run. *)

Module Examples.
Import Js RegExp JsRegExp RouteHelper Router PlainBrowser.

Definition Log : Type := list string.

(** A callback that appends [tag] to the log and returns [ret]. *)
Definition logger (tag : string) (ret : JsVal) : Activate (App := Log) :=
  fun _ log => (Normal ret, log ++ [tag], untouched).

(** [Router.use(path, f)] *)
Definition on_route (path : string) (f : Activate (App := Log)) : M unit :=
  use (UValue (AString path)) (UValue (AFunction f)).

Definition fresh : State (App := Log) := initial home [].

(** [{ mode: 'hash', silent: true }] *)
Definition quiet : Options := {| mode := Some "hash"; root := None; silent := Some true |}.

(** Two handlers on the same route; the first returns [false]. *)
Definition chain : State (App := Log) :=
  ((on_route "a" (logger "first" (VBool false));;
    on_route "a" (logger "second" VUndefined);;
    listen quiet) fresh).2.

(** One handler on [a], after [navigate('a')]. *)
Definition visited : State (App := Log) :=
  ((on_route "a" (logger "h" VUndefined);;
    listen quiet;;
    navigate "a") fresh).2.

(** One handler on [companies/:id]. *)
Definition companies : State (App := Log) :=
  ((on_route "companies/:id" (logger "company" VUndefined);;
    listen quiet) fresh).2.

(** A group with the members [a] and [b], in that order. *)
Definition group_ab : RouteGroup (App := Log) :=
  RouteGroup_use (AString "b") (AFunction (logger "b" VUndefined))
    (RouteGroup_use (AString "a") (AFunction (logger "a" VUndefined)) new_RouteGroup).

(** [x] registered, then the group mounted on [p]. *)
Definition grouped : State (App := Log) :=
  ((on_route "x" (logger "x" VUndefined);;
    use (UValue (AString "p")) (UGroup group_ab)) fresh).2.

(** [x] registered, then [p/a] and [p/b] one by one. *)
Definition separate : State (App := Log) :=
  ((on_route "x" (logger "x" VUndefined);;
    on_route "p/a" (logger "a" VUndefined);;
    on_route "p/b" (logger "b" VUndefined)) fresh).2.

(** The pattern texts of the handler table. *)
Definition sources (st : State (App := Log)) : list string :=
  map (fun h => source (regexp (pathExp h))) (_handlers st).

(** The page [//shop/items//] of a site, with the router in history mode. *)
Definition shop : State (App := Log) :=
  (listen {| mode := Some "history"; root := None; silent := Some true |}
     (initial {| l_pathname := "//shop/items//"; l_search := EmptyString;
                 l_fragment := None; l_listeners := [] |} [])).2.

(** One handler on [a], on a router that has not been started. *)
Definition registered : State (App := Log) :=
  (on_route "a" (logger "h" VUndefined) fresh).2.

(** [{ mode: 'pushState' }], a mode that [listen] does not know. *)
Definition pushState_mode : Options :=
  {| mode := Some "pushState"; root := None; silent := None |}.

(** [registered] after [listen({ mode: 'pushState' })], which throws. *)
Definition failed_start : State (App := Log) := (listen pushState_mode registered).2.

(** A callback that calls [Router.navigate('home')], on the page [home]
    with a router in hash mode that has no route for [home]: when it ends
    the hash is [#home] and the loaded path is [home]. *)
Definition wanderer : Activate (App := Log) :=
  fun _ log =>
    (Normal VUndefined, log ++ ["wanderer"],
     {| new_window := Some (set_hash "#home" (add_listener "hashchange" home));
        new_options := None; new_loadedPath := Some (val "home");
        new_handlers := None |}).

(** [wanderer] on the empty route, and then [listen({})]. *)
Definition wandered : State (App := Log) :=
  ((on_route EmptyString wanderer;; listen empty_options) fresh).2.

(** The key of the route [companies/:id]. *)
Definition id_key : PathExpToken :=
  {| name := "id"; prefix := "/"; delimiter := "/"; optional := false;
     repeat := false; pattern := "[^\/]+?" |}.

End Examples.

(** ** Notions used to state further properties

    What the helpers of [RouteHelper] and [Router] compute, written
    without regular expressions, and the syntax trees of the literals of
    the source. *)

Module Notions.
Import Js RegExp JsRegExp RouteHelper Router.
#[local] Open Scope char_scope.

(** The state after the first [j] characters of what is left of the input. *)
Fixpoint advance_n (x : mstate) (j : nat) : mstate :=
  match j, m_rest x with
  | S j', a :: t => advance_n (advance x a t) j'
  | _, _ => x
  end.

(** The number of characters at the head of [l] that satisfy [p]. *)
Fixpoint run_length (p : ascii -> bool) (l : list ascii) : nat :=
  match l with
  | a :: t => if p a then S (run_length p t) else 0
  | [] => 0
  end.

Definition is_slash (a : ascii) : bool := eqc a "/".

(** [l] without the slashes at its head. *)
Fixpoint drop_slashes (l : list ascii) : list ascii :=
  match l with
  | a :: t => if is_slash a then drop_slashes t else l
  | [] => []
  end.

(** One side only: a path that starts with a slash loses the slashes at
    its head and keeps those at its end; any other path loses the slashes
    at its end. *)
Definition strip_one_side (path : string) : string :=
  let l := chars path in
  match l with
  | a :: _ => if is_slash a then str (drop_slashes l) else str (rev (drop_slashes (rev l)))
  | [] => EmptyString
  end.

(** The tree of [LEADING_SLASHES_STRIPPER]: [at_start] or [at_end]. *)
Definition slashes : regex := RRepeat (RSeq (RChar "/") REmpty) 1 None true.
Definition at_start : regex := RSeq RBol (RSeq slashes REmpty).
Definition at_end : regex := RSeq slashes (RSeq REol REmpty).

(** [l] with a backslash before each of its [special] characters. *)
Definition backslash_before (special : ascii -> bool) (l : list ascii) : list ascii :=
  flat_map (fun c => if special c then ["\"; c] else [c]) l.

(** The characters of the class of [_escapeString], and of [_escapeGroup]. *)
Definition string_special (c : ascii) : bool :=
  existsb (eqc c) (chars ".+*?=^!:${}()[]|/").
Definition group_special (c : ascii) : bool :=
  existsb (eqc c) (chars "=!:$/()").

(** The tree of a pattern that is one class in a capturing group. *)
Definition class_tree (items : list class_item) : regex :=
  RSeq (RGroup 1 (RSeq (RClass false items) REmpty)) REmpty.

Definition not_terminator (a : ascii) : bool := negb (is_line_terminator a).

(** The text after the first [#] of [l]; nothing when there is none. *)
Fixpoint after_hash (l : list ascii) : list ascii :=
  match l with
  | c :: t => if eqc c "#" then t else after_hash t
  | [] => []
  end.

(** The tree of the pattern of [getCurrent] in hash mode. *)
Definition hash_tree : regex :=
  RSeq (RChar "#") (RSeq (RGroup 1 (RSeq (RRepeat RAny 0 None true) REmpty))
                         (RSeq REol REmpty)).

(** *** Where a pattern cannot match *)

(** [r] may match the empty text. *)
Fixpoint may_be_empty (r : regex) : bool :=
  match r with
  | RChar _ | RAny | RClass _ _ => false
  | RSeq r1 r2 => may_be_empty r1 && may_be_empty r2
  | RAlt r1 r2 => may_be_empty r1 || may_be_empty r2
  | RRepeat r mn mx _ => (mn =? 0)%nat || bool_decide (mx = Some 0) || may_be_empty r
  | RGroup _ r => may_be_empty r
  | _ => true
  end.

(** A match of [r] that is not empty may start with [a]. *)
Fixpoint first_char (ic : bool) (r : regex) (a : ascii) : bool :=
  match r with
  | RChar c => eqc (canon ic a) (canon ic c)
  | RAny => negb (is_line_terminator a)
  | RClass neg items => xorb neg (class_mem ic items a)
  | RSeq r1 r2 => first_char ic r1 a || (may_be_empty r1 && first_char ic r2 a)
  | RAlt r1 r2 => first_char ic r1 a || first_char ic r2 a
  | RRepeat r _ _ _ | RGroup _ r => first_char ic r a
  | RBackref _ => true
  | _ => false
  end.

(** No match of [r] that takes a character can start at [x]. *)
Definition blocked (ic : bool) (r : regex) (x : mstate) : Prop :=
  match m_rest x with
  | a :: _ => first_char ic r a = false
  | [] => True
  end.

(** [x'] is at the same place of the input as [x]. *)
Definition same_place (x x' : mstate) : Prop :=
  m_pos x' = m_pos x /\ m_rest x' = m_rest x.

(** What is left at [x'] is an end of what is left at [x]. *)
Definition later (x x' : mstate) : Prop := exists n, m_rest x' = drop n (m_rest x).

(** A character that starts no token of a route: none of [\ : ( *]. *)
Definition plain (c : ascii) : bool := negb (existsb (eqc c) (chars "\:(*")).

(** The three parts of the tree of [PATH_STRIPPER]: an escaped character,
    or an optional prefix and what makes a key. *)
Definition stripper_escape : regex :=
  Eval vm_compute in match tree PATH_STRIPPER with RAlt a _ => a | r => r end.
Definition stripper_prefix : regex :=
  Eval vm_compute in match tree PATH_STRIPPER with RAlt _ (RSeq p _) => p | r => r end.
Definition stripper_key : regex :=
  Eval vm_compute in match tree PATH_STRIPPER with RAlt _ (RSeq _ k) => k | r => r end.

(** *** The parts of the pattern of [_parse] *)

(** The parts of [stripper_key]: a named key with its optional custom
    pattern, an unnamed group, the optional suffix, the asterisk. *)
Definition key_word : regex := RRepeat (RClass false [CWord false]) 1 None true.

Definition key_custom : regex :=
  Eval vm_compute in
    match stripper_key with
    | RSeq (RAlt (RSeq (RAlt (RSeq _ (RSeq _ (RSeq c _))) _) _) _) _ => c
    | r => r
    end.

Definition key_group : regex :=
  Eval vm_compute in
    match stripper_key with
    | RSeq (RAlt (RSeq (RAlt _ g) _) _) _ => g
    | r => r
    end.

Definition key_suffix : regex :=
  Eval vm_compute in
    match stripper_key with
    | RSeq (RAlt (RSeq _ (RSeq s _)) _) _ => s
    | r => r
    end.

Definition key_asterisk : regex :=
  Eval vm_compute in
    match stripper_key with
    | RSeq (RAlt _ a) _ => a
    | r => r
    end.

Definition is_prefix_char (a : ascii) : bool := eqc a "/" || eqc a ".".

(** A character after which the name of a key ends, and with it the
    key: not a word character, and none of [( + * ?]. *)
Definition ends_key (c : ascii) : bool :=
  negb (is_word c) && negb (existsb (eqc c) (chars "(+*?")).

(** [l] is empty or starts with a character that satisfies [p]. *)
Definition starts_with (p : ascii -> bool) (l : list ascii) : Prop :=
  match l with
  | c :: _ => p c = true
  | [] => True
  end.

(** The key token of [/:name]. *)
Definition slash_key (name : string) : PathExpToken :=
  {| name := name; prefix := "/"; delimiter := "/"; optional := false;
     repeat := false; pattern := "[^\/]+?" |}.

Definition stripper : regex := RAlt stripper_escape (RSeq stripper_prefix stripper_key).

(** The options that [listen] stores: each property as given, or its
    default. *)
Definition listened (options : Options) : Options :=
  {| mode := Some (default "hash"%string (mode options));
     root := Some (default "/"%string (root options));
     silent := Some (default false (silent options)) |}.

(** *** The pattern of a route with one key *)

(** The atom that [new RegExp] makes of a character of a literal token
    once [_escapeString] has escaped it. *)
Definition atom (c : ascii) : regex :=
  if string_special c then RSeq (RChar c) REmpty else RChar c.

(** The atoms of the text, and [r] after them. *)
Definition atoms (text : list ascii) (r : regex) : regex :=
  foldr (fun c r => RSeq (atom c) r) r text.

(** The trees of the parts of [\/([^\/]+?)(?:\/(?=$))?$]: the segment
    [[^\/]+?], and the optional last slash with the end [(?:\/(?=$))?$]. *)
Definition segment_tree : regex := RRepeat (RClass true [CRange "/" "/"]) 1 None false.

Definition route_end : regex :=
  RSeq (RRepeat (RSeq (RSeq (RChar "/") REmpty)
                   (RSeq (RLook false (RSeq REol REmpty)) REmpty))
          0 (Some 1) true)
    (RSeq REol REmpty).

(** The tree of the whole, the key being group [g]. *)
Definition key_pattern (g : nat) : regex :=
  RSeq (RSeq (RChar "/") REmpty)
    (RSeq (RGroup g (RSeq segment_tree REmpty)) route_end).

(** The text of the pattern of the key [/:name] with the end of a route. *)
Definition key_source : string := "\/([^\/]+?)(?:\/(?=$))?$".

(** [seen] is [text] up to the case of its letters. *)
Definition same_letters (seen text : list ascii) : Prop :=
  Forall2 (fun a c => canon true a = canon true c) seen text.

(** A segment of a path: some characters, none of them a slash. *)
Definition segment (value : list ascii) : Prop :=
  value <> [] /\ Forall (fun c => is_slash c = false) value.

(** Nothing, or one slash. *)
Definition last_slash (tail : list ascii) : Prop := tail = [] \/ tail = ["/"].

(** [subject] is [text] up to case, a slash, the segment [value], and at
    most one slash more. *)
Definition one_key_path (text subject value : list ascii) : Prop :=
  exists seen tail,
    subject = seen ++ "/" :: value ++ tail /\
    same_letters seen text /\ segment value /\ last_slash tail.

(** The tree of the pattern of the route: the start, the literal, the key. *)
Definition one_key_tree (text : list ascii) : regex :=
  RSeq RBol (atoms text (key_pattern 1)).

(** What [stringToPathExp] makes of the literal [text] and the key
    [/:name]. *)
Definition one_key_route (text name : string) : PathExp :=
  {| regexp :=
       {| source := "^" +:+ _escapeString text +:+ key_source;
          global := false; ignoreCase := true; multiline := false;
          tree := one_key_tree (chars text); ncaptures := 1 |};
     keys := Some [slash_key name] |}.

Section WithBrowser.
Context `{Browser} {App : Type}.

(** The handlers whose pattern matches the parsed path, in the order of
    the table. *)
Definition matching (parsed : Path) (handlers : list (Handler (App := App)))
    : list (Handler (App := App)) :=
  filter (fun h => test (regexp (pathExp h)) (path_of parsed) = true) handlers.

(** The callback of the handler that [_extractHandlers] makes of a member
    of a group: the first argument of [group.use] when that is a function. *)
Definition member_activate (gh : GroupHandler (App := App)) : Arg (App := App) :=
  if is_function (g_path gh) then g_path gh else g_activate gh.

(** The request of a fragment that has no parameters. *)
Definition plain_request (parsed : Path) : Request :=
  {| r_path := path_of parsed; r_query := query parsed;
     r_queryString := queryString parsed; r_params := ∅; r_oldPath := undefined |}.

(** The request of a fragment with the one parameter [name]. *)
Definition key_request (parsed : Path) (name value : string) : Request :=
  {| r_path := path_of parsed; r_query := query parsed;
     r_queryString := queryString parsed; r_params := {[ name := value ]};
     r_oldPath := undefined |}.

End WithBrowser.

End Notions.

(** * Properties *)

Import Js RegExp JsRegExp RouteHelper Router.

Create HintDb router_ops.
#[global] Hint Unfold get throw lift set_window set_options set_loadedPath set_handlers
  options_of of_option : router_ops.

(** Unfold the monad down to the pairs of result and state. *)
Ltac run_M :=
  repeat (autounfold with router_ops in *;
          unfold mbind, mret, M_bind, M_ret, Result_bind, Result_ret in *;
          cbn beta iota zeta in *).

Ltac break_match := repeat (case_match; simplify_eq/=).

(** ** The literals of the source are patterns *)

Lemma literals_are_patterns :
  Forall (fun re : string * string => new_RegExp re.1 re.2 <> None)
    [("^\/+|\/+$", EmptyString); (".*", EmptyString); ("#(.*)$", EmptyString);
     ("([.+*?=^!:${}()[\]|\/])", "g"); ("([=!:$\/()])", "g");
     (source PATH_STRIPPER, "g")].
Proof. repeat constructor; vm_compute; discriminate. Qed.

(** ** Matching moves forward

    A match never ends before it starts, and a pattern that [consumes]
    has no empty match; so the loop of [_parse], which resumes after each
    match of [PATH_STRIPPER], comes to an end. *)

Lemma ahead_refl x : ahead x x.
Proof. unfold ahead. auto. Qed.

Lemma ahead_trans x y z : ahead x y -> ahead y z -> ahead x z.
Proof. unfold ahead. intros [? ?] [? ?]. split; [lia|congruence]. Qed.

Lemma ahead_advance x a t :
  m_rest x = a :: t -> ahead x (advance x a t) /\ m_pos x < m_pos (advance x a t).
Proof. intros Hr. unfold ahead, extent, advance. simpl. rewrite Hr. simpl. lia. Qed.

Lemma ahead_with_caps x caps : ahead x (with_caps x caps).
Proof. unfold ahead, extent. simpl. auto. Qed.

Lemma ahead_clear_caps gs x x' : ahead (clear_caps gs x) x' -> ahead x x'.
Proof. unfold ahead, extent, clear_caps. simpl. auto. Qed.

Lemma one_char_progress p : progresses true (one_char p).
Proof.
  intros x k y. unfold one_char. destruct (m_rest x) as [|a t] eqn:Hr; [discriminate|].
  destruct (p a); [|discriminate]. intros Hk.
  destruct (ahead_advance x a t Hr). eauto.
Qed.

Lemma match_literal_ahead ic s : forall x y,
  match_literal ic s x = Some y -> ahead x y.
Proof.
  induction s as [|c s IH]; intros x y; simpl.
  - intros [= <-]. apply ahead_refl.
  - destruct (m_rest x) as [|a t] eqn:Hr; [discriminate|].
    destruct (eqc _ _); [|discriminate]. intros Hm.
    eapply ahead_trans; [apply (ahead_advance x a t Hr)|]. apply IH. exact Hm.
Qed.

Lemma repeat_matcher_progress body gs greedy k strict :
  progresses strict body ->
  forall fuel mn mx x y,
    repeat_matcher body gs greedy k fuel mn mx x = Some y ->
    exists x', k x' = Some y /\ ahead x x' /\
      ((0 <? mn)%nat && negb (bool_decide (mx = Some 0)) && strict = true ->
       m_pos x < m_pos x').
Proof.
  intros Hbody. induction fuel as [|fuel IH]; intros mn mx x y; simpl; [discriminate|].
  assert (Hstop : k x = Some y -> (0 <? mn)%nat = false ->
    exists x', k x' = Some y /\ ahead x x' /\
      ((0 <? mn)%nat && negb (bool_decide (mx = Some 0)) && strict = true ->
       m_pos x < m_pos x')).
  { intros Hk Hmn. exists x. split; [exact Hk|]. split; [apply ahead_refl|].
    rewrite Hmn. discriminate. }
  assert (Hzero : k x = Some y -> mx = Some 0 ->
    exists x', k x' = Some y /\ ahead x x' /\
      ((0 <? mn)%nat && negb (bool_decide (mx = Some 0)) && strict = true ->
       m_pos x < m_pos x')).
  { intros Hk ->. exists x. split; [exact Hk|]. split; [apply ahead_refl|].
    rewrite andb_false_r. discriminate. }
  assert (Hiter :
    body (clear_caps gs x) (fun y0 =>
      if (mn =? 0)%nat && (m_pos y0 =? m_pos x)%nat then None
      else repeat_matcher body gs greedy k fuel (pred mn) (pred <$> mx) y0) = Some y ->
    exists x', k x' = Some y /\ ahead x x' /\
      ((0 <? mn)%nat && negb (bool_decide (mx = Some 0)) && strict = true ->
       m_pos x < m_pos x')).
  { intros Hm. apply Hbody in Hm as (x1 & Hk1 & Ha1 & Hc1).
    destruct ((mn =? 0)%nat && (m_pos x1 =? m_pos x)%nat); [discriminate|].
    apply IH in Hk1 as (x' & Hk & Ha & _).
    apply ahead_clear_caps in Ha1.
    exists x'. split; [exact Hk|]. split; [eapply ahead_trans; eauto|].
    intros Hb. apply andb_true_iff in Hb as [_ Hb]. specialize (Hc1 Hb).
    destruct Ha. simpl in Hc1. lia. }
  destruct mx as [[|mx']|].
  - intros Hk. apply Hzero; auto.
  - destruct (0 <? mn)%nat eqn:Hmn; [exact Hiter|].
    destruct greedy; unfold or_try; case_match; intros; simplify_eq; auto.
  - destruct (0 <? mn)%nat eqn:Hmn; [exact Hiter|].
    destruct greedy; unfold or_try; case_match; intros; simplify_eq; auto.
Qed.

Section Progress.
Variables (ic ml : bool).

Lemma m_progress r : progresses (consumes r) (m ic ml r).
Proof.
  induction r as [ |c| |neg items|r1 IH1 r2 IH2|r1 IH1 r2 IH2|r1 IH1 mn mx greedy
                  |n r1 IH1|neg r1 IH1| | |neg|n]; intros x k y; simpl.
  - intros Hk. exists x. split; [exact Hk|]. split; [apply ahead_refl|discriminate].
  - intros Hm. apply one_char_progress in Hm as (x' & ? & ? & ?). eauto.
  - intros Hm. apply one_char_progress in Hm as (x' & ? & ? & ?). eauto.
  - intros Hm. apply one_char_progress in Hm as (x' & ? & ? & ?). eauto.
  - intros Hm. apply IH1 in Hm as (x1 & Hm2 & Ha1 & Hc1).
    apply IH2 in Hm2 as (x2 & Hk & Ha2 & Hc2).
    exists x2. split; [exact Hk|]. split; [eapply ahead_trans; eauto|].
    intros Hc. apply orb_true_iff in Hc. destruct Ha1, Ha2. destruct Hc as [Hc|Hc].
    + specialize (Hc1 Hc). lia.
    + specialize (Hc2 Hc). lia.
  - unfold or_try. destruct (m ic ml r1 x k) as [y1|] eqn:H1.
    + intros [= <-]. apply IH1 in H1 as (x' & ? & ? & Hc). exists x'.
      split; [assumption|]. split; [assumption|]. intros Hb.
      apply andb_true_iff in Hb as [Hb _]. auto.
    + intros H2. apply IH2 in H2 as (x' & ? & ? & Hc). exists x'.
      split; [assumption|]. split; [assumption|]. intros Hb.
      apply andb_true_iff in Hb as [_ Hb]. auto.
  - apply (repeat_matcher_progress _ _ _ _ _ IH1).
  - intros Hm. apply IH1 in Hm as (x1 & Hk & Ha & Hc).
    eexists. split; [exact Hk|]. split; [|exact Hc].
    eapply ahead_trans; [exact Ha|apply ahead_with_caps].
  - destruct (m ic ml r1 x Some) as [y1|]; destruct neg; try discriminate; intros Hk;
      eexists; (split; [exact Hk|]); (split; [|discriminate]);
      first [apply ahead_with_caps | apply ahead_refl].
  - intros Hk. exists x. split; [|split; [apply ahead_refl|discriminate]].
    destruct (m_prev x); [destruct (_ && _)|]; congruence.
  - intros Hk. exists x. split; [|split; [apply ahead_refl|discriminate]].
    destruct (m_rest x); [|destruct (_ && _)]; congruence.
  - intros Hk. exists x. split; [|split; [apply ahead_refl|discriminate]].
    destruct (xorb _ _); congruence.
  - intros Hk. destruct (m_caps x !! pred n) as [[s|]|] eqn:Hc.
    + destruct (match_literal ic s x) as [y1|] eqn:Hl; [|discriminate].
      exists y1. split; [exact Hk|]. split; [|discriminate].
      eapply match_literal_ahead; eauto.
    + exists x. split; [exact Hk|]. split; [apply ahead_refl|discriminate].
    + exists x. split; [exact Hk|]. split; [apply ahead_refl|discriminate].
Qed.

Lemma scan_progress r : forall x i y,
  scan ic ml r x (m_rest x) = Some (i, y) ->
  m_pos x <= i /\ i <= m_pos y /\ m_pos y <= extent x /\
  (consumes r = true -> i < m_pos y).
Proof.
  intros x. remember (m_rest x) as rest eqn:Hrest. revert x Hrest.
  induction rest as [|a t IH]; intros x Hrest i y; simpl.
  - destruct (m ic ml r x Some) as [y1|] eqn:Hm; [|discriminate].
    intros [= <- <-]. apply m_progress in Hm as (x' & [= <-] & [Hp He] & Hc).
    unfold extent in *. split; [lia|]. split; [lia|]. split; [lia|exact Hc].
  - destruct (m ic ml r x Some) as [y1|] eqn:Hm.
    + intros [= <- <-]. apply m_progress in Hm as (x' & [= <-] & [Hp He] & Hc).
      unfold extent in *. split; [lia|]. split; [lia|]. split; [lia|exact Hc].
    + intros Hs. apply IH in Hs as (H1 & H2 & H3 & H4); [|reflexivity].
      unfold extent, advance in *. simpl in *. rewrite <- Hrest. simpl.
      split; [lia|]. split; [lia|]. split; [lia|exact H4].
Qed.

End Progress.

(** ** Matching keeps the number of captures *)

Lemma clear_caps_width gs x : same_width x (clear_caps gs x).
Proof.
  unfold same_width, clear_caps. cbn [with_caps m_caps].
  induction gs as [|n gs IH]; cbn [foldr]; [reflexivity|].
  rewrite length_insert. exact IH.
Qed.

Lemma one_char_width p : keeps_width (one_char p).
Proof.
  intros x k y. unfold one_char. destruct (m_rest x) as [|a t]; [discriminate|].
  destruct (p a); [|discriminate]. intros Hk. exists (advance x a t). split; [exact Hk|reflexivity].
Qed.

Lemma match_literal_width ic s : forall x y,
  match_literal ic s x = Some y -> same_width x y.
Proof.
  induction s as [|c s IH]; intros x y; simpl.
  - intros [= <-]. reflexivity.
  - destruct (m_rest x) as [|a t]; [discriminate|].
    destruct (eqc _ _); [|discriminate]. intros Hm. apply IH in Hm. exact Hm.
Qed.

Lemma repeat_matcher_width body gs greedy k :
  keeps_width body ->
  forall fuel mn mx x y,
    repeat_matcher body gs greedy k fuel mn mx x = Some y ->
    exists x', k x' = Some y /\ same_width x x'.
Proof.
  intros Hbody. induction fuel as [|fuel IH]; intros mn mx x y; simpl; [discriminate|].
  assert (Hstop : k x = Some y -> exists x', k x' = Some y /\ same_width x x')
    by (intros Hk; exists x; split; [exact Hk|reflexivity]).
  assert (Hiter :
    body (clear_caps gs x) (fun y0 =>
      if (mn =? 0)%nat && (m_pos y0 =? m_pos x)%nat then None
      else repeat_matcher body gs greedy k fuel (pred mn) (pred <$> mx) y0) = Some y ->
    exists x', k x' = Some y /\ same_width x x').
  { intros Hm. apply Hbody in Hm as (x1 & Hk1 & Hw1).
    destruct ((mn =? 0)%nat && (m_pos x1 =? m_pos x)%nat); [discriminate|].
    apply IH in Hk1 as (x' & Hk & Hw).
    exists x'. split; [exact Hk|]. unfold same_width in *.
    rewrite Hw, Hw1. apply clear_caps_width. }
  destruct mx as [[|mx']|].
  - exact Hstop.
  - destruct (0 <? mn)%nat; [exact Hiter|].
    destruct greedy; unfold or_try; case_match; intros; simplify_eq; auto.
  - destruct (0 <? mn)%nat; [exact Hiter|].
    destruct greedy; unfold or_try; case_match; intros; simplify_eq; auto.
Qed.

Section Width.
Variables (ic ml : bool).

Lemma m_width r : keeps_width (m ic ml r).
Proof.
  induction r as [ |c| |neg items|r1 IH1 r2 IH2|r1 IH1 r2 IH2|r1 IH1 mn mx greedy
                  |n r1 IH1|neg r1 IH1| | |neg|n]; intros x k y; simpl.
  - intros Hk. exists x. split; [exact Hk|reflexivity].
  - apply one_char_width.
  - apply one_char_width.
  - apply one_char_width.
  - intros Hm. apply IH1 in Hm as (x1 & Hm2 & Hw1).
    apply IH2 in Hm2 as (x2 & Hk & Hw2).
    exists x2. split; [exact Hk|]. unfold same_width in *. congruence.
  - unfold or_try. destruct (m ic ml r1 x k) as [y1|] eqn:H1.
    + intros [= <-]. apply IH1 in H1. exact H1.
    + apply IH2.
  - apply (repeat_matcher_width _ _ _ _ IH1).
  - intros Hm. apply IH1 in Hm as (x1 & Hk & Hw).
    eexists. split; [exact Hk|]. unfold same_width in *. cbn [with_caps m_caps].
    rewrite length_insert. exact Hw.
  - destruct (m ic ml r1 x Some) as [y1|] eqn:H1; destruct neg; try discriminate; intros Hk.
    + eexists. split; [exact Hk|]. apply IH1 in H1 as (x' & [= <-] & Hw). exact Hw.
    + exists x. split; [exact Hk|reflexivity].
  - intros Hk. exists x. split; [|reflexivity].
    destruct (m_prev x); [destruct (_ && _)|]; congruence.
  - intros Hk. exists x. split; [|reflexivity].
    destruct (m_rest x); [|destruct (_ && _)]; congruence.
  - intros Hk. exists x. split; [|reflexivity].
    destruct (xorb _ _); congruence.
  - intros Hk. destruct (m_caps x !! pred n) as [[s|]|] eqn:Hc.
    + destruct (match_literal ic s x) as [y1|] eqn:Hl; [|discriminate].
      exists y1. split; [exact Hk|]. eapply match_literal_width; eauto.
    + exists x. split; [exact Hk|reflexivity].
    + exists x. split; [exact Hk|reflexivity].
Qed.

Lemma scan_width r : forall rest x i y,
  scan ic ml r x rest = Some (i, y) -> same_width x y.
Proof.
  induction rest as [|a t IH]; intros x i y; simpl.
  - destruct (m ic ml r x Some) as [y1|] eqn:Hm; [|discriminate].
    intros [= <- <-]. apply m_width in Hm as (x' & [= <-] & Hw). exact Hw.
  - destruct (m ic ml r x Some) as [y1|] eqn:Hm.
    + intros [= <- <-]. apply m_width in Hm as (x' & [= <-] & Hw). exact Hw.
    + intros Hs. apply IH in Hs. exact Hs.
Qed.

End Width.

(** The result of [exec] has one entry for each capturing group. *)
Lemma exec_from_captures re s lastIndex res :
  exec_from re s lastIndex = Some res -> length (captures res) = ncaptures re.
Proof.
  unfold exec_from. destruct (_ <? _)%nat; [discriminate|].
  destruct (scan _ _ _ _ _) as [[i y]|] eqn:Hs; [|discriminate].
  intros [= <-]. cbn [captures]. rewrite length_map.
  apply scan_width in Hs. unfold same_width in Hs. cbn [m_caps] in Hs.
  rewrite Hs, length_replicate. reflexivity.
Qed.

Lemma chars_length s : length (chars s) = String.length s.
Proof. induction s; simpl; auto. Qed.

(** A match lies in the subject, from [lastIndex] on, and is not empty
    when the pattern consumes. *)
Lemma exec_from_bounds re s lastIndex res :
  exec_from re s lastIndex = Some res ->
  lastIndex <= index res /\ index res <= end_index res /\
  end_index res <= String.length s /\
  (consumes (tree re) = true -> index res < end_index res).
Proof.
  unfold exec_from. case_match; [discriminate|].
  match goal with H : (_ <? _)%nat = false |- _ => apply Nat.ltb_ge in H; rename H into Hlen end.
  set (x := MState _ _ _ _).
  destruct (scan _ _ _ x _) as [[i y]|] eqn:Hs; [|discriminate].
  intros [= <-]. simpl.
  apply (scan_progress _ _ _ x) in Hs as (H1 & H2 & H3 & H4).
  unfold extent in H3. simpl in H1, H3.
  rewrite length_drop, chars_length in H3. rewrite chars_length in Hlen.
  split; [lia|]. split; [lia|]. split; [lia|exact H4].
Qed.

Lemma exec_from_past_end re s lastIndex :
  String.length s < lastIndex -> exec_from re s lastIndex = None.
Proof.
  intros Hl. unfold exec_from. rewrite chars_length.
  apply Nat.ltb_lt in Hl. rewrite Hl. reflexivity.
Qed.

Lemma PATH_STRIPPER_consumes : consumes (tree PATH_STRIPPER) = true.
Proof. vm_compute. reflexivity. Qed.

(** The loop of [_parse] ends before its fuel does: more fuel gives the
    same tokens. *)
Lemma _parse_loop_fuel path : forall fuel fuel' lastIndex tokens key index pathIt,
  String.length path < fuel + lastIndex ->
  String.length path < fuel' + lastIndex ->
  _parse_loop fuel path lastIndex tokens key index pathIt =
  _parse_loop fuel' path lastIndex tokens key index pathIt.
Proof.
  induction fuel as [|fuel IH]; intros [|fuel'] lastIndex tokens key index pathIt H1 H2.
  - reflexivity.
  - simpl. rewrite exec_from_past_end by lia. reflexivity.
  - simpl. rewrite exec_from_past_end by lia. reflexivity.
  - simpl. destruct (exec_from PATH_STRIPPER path lastIndex) as [res|] eqn:Hx; [|reflexivity].
    apply exec_from_bounds in Hx as (Hlo & _ & _ & Hne).
    specialize (Hne PATH_STRIPPER_consumes).
    case_match; apply IH; lia.
Qed.

Lemma _parse_total path fuel :
  String.length path < fuel ->
  _parse_loop fuel path 0 [] 0 0 EmptyString = _parse path.
Proof. intros Hf. unfold _parse. apply _parse_loop_fuel; lia. Qed.

(** The loop of a global [replace] ends before its fuel does. *)
Lemma replace_all_fuel re s repl : forall fuel fuel' copied lastIndex,
  String.length s < fuel + lastIndex ->
  String.length s < fuel' + lastIndex ->
  replace_all fuel re s repl copied lastIndex =
  replace_all fuel' re s repl copied lastIndex.
Proof.
  induction fuel as [|fuel IH]; intros [|fuel'] copied lastIndex H1 H2.
  - reflexivity.
  - simpl. rewrite exec_from_past_end by lia. reflexivity.
  - simpl. rewrite exec_from_past_end by lia. reflexivity.
  - simpl. destruct (exec_from re s lastIndex) as [res|] eqn:Hx; [|reflexivity].
    apply exec_from_bounds in Hx as (Hlo & Hle & _ & _).
    f_equal. f_equal.
    destruct (end_index res =? index res)%nat eqn:He; apply IH; try lia;
      apply Nat.eqb_neq in He; lia.
Qed.

Lemma hex2_length s b t : URI.hex2 s = Some (b, t) -> length s = S (S (length t)).
Proof. unfold URI.hex2. intros Hh. break_match. reflexivity. Qed.

Lemma continuation_length n : forall s v octets v' octets' t,
  URI.continuation n s v octets = Some (v', octets', t) -> length t <= length s.
Proof.
  induction n as [|n IH]; intros s v octets v' octets' t; simpl.
  - intros [= _ _ <-]. lia.
  - intros Hc. break_match.
    match goal with Hh : URI.hex2 _ = Some _ |- _ => apply hex2_length in Hh end.
    match goal with Hr : URI.continuation _ _ _ _ = Some _ |- _ => apply IH in Hr end.
    simpl. lia.
Qed.

(** [decode] reads its whole argument: more fuel than its length changes
    nothing. *)
Lemma decode_fuel reserved : forall fuel fuel' s,
  length s <= fuel -> length s <= fuel' ->
  URI.decode fuel reserved s = URI.decode fuel' reserved s.
Proof.
  induction fuel as [|fuel IH]; intros [|fuel'] s H1 H2;
    try (destruct s; simpl in *; [reflexivity|lia]).
  destruct s as [|c t]; [reflexivity|]. simpl in H1, H2.
  simpl. break_match; try reflexivity;
    repeat match goal with
    | Hh : URI.hex2 _ = Some _ |- _ => apply hex2_length in Hh
    | Hc : URI.continuation _ _ _ _ = Some _ |- _ => apply continuation_length in Hc
    end; f_equal; apply IH; simpl in *; lia.
Qed.

(** ** Splitting a string *)

Lemma split_chars_no_sep sep l : forall cur,
  sep ∉ l -> split_chars sep cur l = [str (rev cur ++ l)].
Proof.
  induction l as [|c t IH]; intros cur Hn; simpl.
  - rewrite app_nil_r. reflexivity.
  - apply not_elem_of_cons in Hn as [Hc Ht].
    unfold eqc. destruct (Ascii.eqb_spec c sep) as [->|_]; [congruence|].
    rewrite IH by assumption. simpl. rewrite <- app_assoc. reflexivity.
Qed.

Lemma split_no_sep s sep : sep ∉ chars s -> split s sep = [s].
Proof.
  intros Hn. unfold split. rewrite split_chars_no_sep by assumption. simpl.
  unfold str, chars. rewrite string_of_list_ascii_of_string. reflexivity.
Qed.

(** ** parseQuery *)

Lemma _parseQuery_step_throws m param e :
  _parseQuery_step m param = Throw e -> e = URIError.
Proof. unfold _parseQuery_step. run_M. intros Hs. break_match; reflexivity. Qed.

Lemma _parseQuery_loop_throws params : forall m e,
  _parseQuery_loop m params = Throw e -> e = URIError.
Proof.
  induction params as [|p rest IH]; intros m e; simpl; run_M; [discriminate|].
  destruct (_parseQuery_step m p) as [m'|e'] eqn:Hs.
  - apply IH.
  - intros [= <-]. eapply _parseQuery_step_throws; eauto.
Qed.

Lemma _parseQuery_step_fails m param :
  _param_fails param -> _parseQuery_step m param = Throw URIError.
Proof.
  unfold _param_fails, _parseQuery_step. run_M. intros [Hk | Hv].
  - rewrite Hk. reflexivity.
  - rewrite Hv. clear Hv. destruct (URI.decodeURIComponent _); reflexivity.
Qed.

(** One undecodable piece makes the whole of [parseQuery] throw: the
    pieces after it are not parsed, the ones before it are lost. *)
Lemma _parseQuery_loop_fails params : forall m param,
  param ∈ params -> _param_fails param ->
  _parseQuery_loop m params = Throw URIError.
Proof.
  induction params as [|p rest IH]; intros m param Hin Hf.
  - inversion Hin.
  - simpl. run_M. destruct (_parseQuery_step m p) as [m'|e] eqn:Hs.
    + apply elem_of_cons in Hin as [-> | Hin].
      * rewrite _parseQuery_step_fails in Hs by assumption. discriminate.
      * eapply IH; eauto.
    + apply _parseQuery_step_throws in Hs as ->. reflexivity.
Qed.

(** A piece without [=]: the value stored is the text [undefined], as
    [decodeURIComponent] converts its argument to a string. *)
Lemma _parseQuery_step_no_value m param k :
  "="%char ∉ chars param ->
  URI.decodeURIComponent param = Some k ->
  _parseQuery_step m param = Return (set_property k "undefined" m).
Proof.
  intros Hn Hk. unfold _parseQuery_step. rewrite split_no_sep by assumption.
  simpl. run_M. rewrite Hk. reflexivity.
Qed.

Lemma test_exec re s res : exec re s = Some res -> test re s = true.
Proof. intros Hx. unfold test. rewrite Hx. apply bool_decide_eq_true_2. eauto. Qed.

(** ** Router: what a method leaves alone, and what it can throw *)

Section RouterLaws.
Context `{Browser} {App : Type}.
Implicit Types (st : State (App := App)) (rps : list (RequestProcessor (App := App))).
Implicit Types (handlers pre post : list (Handler (App := App))).
Implicit Types (h : Handler (App := App)) (f : Arg (App := App)).

Lemma getCurrent_state st r st' : getCurrent st = (r, st') -> st' = st.
Proof. unfold getCurrent. run_M. intros Hg. break_match; reflexivity. Qed.

Lemma getCurrent_setup st st' :
  window st' = window st -> _options st' = _options st ->
  (getCurrent st').1 = (getCurrent st).1.
Proof.
  intros Hw Ho. unfold getCurrent. run_M. rewrite Hw, Ho.
  break_match; reflexivity.
Qed.

Lemma call_frame f request st r st' :
  quiet_callback f ->
  call f request st = (r, st') ->
  same_setup st st' /\ _loadedPath st' = _loadedPath st.
Proof.
  unfold call, same_setup. intros Hq Hc. destruct f as [|fn|s]; try (injection Hc as _ <-; auto).
  specialize (Hq fn request (app st) eq_refl).
  destruct (fn request (app st)) as [[c a] e]. cbn [snd] in Hq. subst e.
  injection Hc as _ <-. auto.
Qed.

Lemma call_invoked f request st v st' :
  call f request st = (Return v, st') ->
  invoked st' = invoked st ++ [{| request := request; p_activate := f |}].
Proof. unfold call. intros Hc. break_match; reflexivity. Qed.

Lemma call_invoked_throw f request st e st' :
  call f request st = (Throw e, st') ->
  invoked st' = invoked st ++ [{| request := request; p_activate := f |}] \/
  invoked st' = invoked st.
Proof. unfold call. intros Hc. break_match; auto. Qed.

(** With callbacks that leave the router alone, the chain leaves the
    browser, the options, the handler table and the loaded path as they
    are. *)
Lemma _load_loop_frame rps : forall count st r st',
  Forall (fun rp => quiet_callback (p_activate rp)) rps ->
  _load_loop rps count st = (r, st') ->
  same_setup st st' /\ _loadedPath st' = _loadedPath st.
Proof.
  induction rps as [|rp rest IH]; intros count st r st' Hq; simpl; run_M.
  - intros [= <- <-]. unfold same_setup; auto.
  - inversion Hq as [|? ? Hrp Hrest]; subst.
    destruct (call _ _ st) as [[next|e] st1] eqn:Hcall.
    + apply call_frame in Hcall as [(Hw & Ho & Hh) Hl]; [|exact Hrp].
      destruct (is_false next).
      * intros [= <- <-]. unfold same_setup; auto.
      * intros Hloop. apply IH in Hloop as [(Hw' & Ho' & Hh') Hl']; [|exact Hrest].
        unfold same_setup. repeat split; congruence.
    + apply call_frame in Hcall as [Hs Hl]; [|exact Hrp]. intros [= <- <-]; auto.
Qed.

Lemma parsePath_throws path e :
  parsePath path = Throw e -> foreign e.
Proof.
  unfold parsePath, parseQuery. run_M. intros Hp. break_match; try exact I.
  match goal with Hq : _parseQuery_loop _ _ = Throw _ |- _ =>
    apply _parseQuery_loop_throws in Hq as -> end. exact I.
Qed.

Lemma parsePath_query_fails path u param :
  URL_new path = Some u -> param ∈ _paramsArr (search u) -> _param_fails param ->
  parsePath path = Throw URIError.
Proof.
  intros Hu Hin Hf. unfold parsePath, parseQuery. run_M. rewrite Hu.
  rewrite (_parseQuery_loop_fails _ _ param Hin Hf). reflexivity.
Qed.

Lemma _extractRequest_loop_throws keys args : forall i params e,
  _extractRequest_loop keys args i params = Throw e -> foreign e.
Proof.
  induction args as [|[a|] rest IH]; intros i params e; simpl; run_M;
    [discriminate| |apply IH].
  intros Hl. break_match; try exact I. eapply IH; eauto.
Qed.

(** An undecodable capture makes the loop throw. *)
Lemma _extractRequest_loop_undecodable keys args : forall i params a,
  Some a ∈ args -> URI.decodeURIComponent a = None ->
  exists e, _extractRequest_loop keys args i params = Throw e.
Proof.
  induction args as [|arg rest IH]; intros i params a Hin Ha.
  - inversion Hin.
  - simpl. destruct arg as [b|].
    + run_M. destruct (option_bind _ _ (lookup i) keys) as [key|]; [|eauto].
      destruct (URI.decodeURIComponent b) as [v|] eqn:Hb; [|eauto].
      apply elem_of_cons in Hin as [[= ->] | Hin]; [congruence|].
      eapply IH; eauto.
    + apply elem_of_cons in Hin as [[=] | Hin]. eapply IH; eauto.
Qed.

(** With a key for every captured group, it throws the [URIError]. *)
Lemma _extractRequest_loop_fails ks args : forall i params a,
  length args <= length (drop i ks) ->
  Some a ∈ args -> URI.decodeURIComponent a = None ->
  _extractRequest_loop (Some ks) args i params = Throw URIError.
Proof.
  induction args as [|arg rest IH]; intros i params a Hlen Hin Ha.
  - inversion Hin.
  - assert (Hrest : length rest <= length (drop (S i) ks)).
    { rewrite length_drop in *. simpl in Hlen. lia. }
    simpl. destruct arg as [b|].
    + run_M. simpl. destruct (ks !! i) as [key|] eqn:Hkey.
      * destruct (URI.decodeURIComponent b) as [v|] eqn:Hb; [|reflexivity].
        apply elem_of_cons in Hin as [[= ->] | Hin]; [congruence|].
        eapply IH; eauto.
      * apply lookup_ge_None in Hkey. rewrite length_drop in Hlen. simpl in Hlen. lia.
    + apply elem_of_cons in Hin as [[=] | Hin]. eapply IH; eauto.
Qed.

Lemma _extractRequest_throws path pathExp e :
  _extractRequest path pathExp = Throw e -> foreign e.
Proof.
  unfold _extractRequest. run_M.
  destruct (parsePath path) as [parsed|e'] eqn:Hp.
  - intros Hx. break_match. eapply _extractRequest_loop_throws; eauto.
  - intros [= <-]. eapply parsePath_throws; eauto.
Qed.

Lemma _extractRequest_param_fails path parsed pe res a :
  parsePath path = Return parsed ->
  exec (regexp pe) (path_of parsed) = Some res ->
  Some a ∈ captures res -> URI.decodeURIComponent a = None ->
  exists e, _extractRequest path (Some pe) = Throw e /\ (keyed pe -> e = URIError).
Proof.
  intros Hp Hx Hin Ha. unfold _extractRequest. run_M. rewrite Hp. simpl.
  rewrite Hx.
  destruct (_extractRequest_loop_undecodable (keys pe) (captures res) 0 ∅ a Hin Ha)
    as [e He].
  exists e. rewrite He. split; [reflexivity|]. intros Hkeyed. unfold keyed in Hkeyed.
  pose proof (exec_from_captures _ _ _ _ Hx) as Hlen.
  destruct (keys pe) as [ks|]; simpl in Hkeyed.
  - rewrite (_extractRequest_loop_fails ks (captures res) 0 ∅ a) in He;
      [congruence| |exact Hin|exact Ha].
    rewrite drop_0. lia.
  - destruct (captures res); [inversion Hin|cbn [length] in Hlen; lia].
Qed.

Lemma _obtainRequestProcessors_loop_throws path parsedPath handlers : forall e,
  _obtainRequestProcessors_loop path parsedPath handlers = Throw e -> foreign e.
Proof.
  induction handlers as [|h rest IH]; intros e; simpl; run_M; [discriminate|].
  destruct (test _ _); [|apply IH].
  destruct (_extractRequest path _) as [rq|e'] eqn:Hx.
  - destruct (_obtainRequestProcessors_loop _ _ rest) eqn:Hr; [discriminate|].
    intros [= <-]. apply IH. reflexivity.
  - intros [= <-]. eapply _extractRequest_throws; eauto.
Qed.

Lemma _obtainRequestProcessors_loop_fails path parsed pre h post e :
  Forall (fun h' => test (regexp (pathExp h')) (path_of parsed) = false) pre ->
  test (regexp (pathExp h)) (path_of parsed) = true ->
  _extractRequest path (Some (pathExp h)) = Throw e ->
  _obtainRequestProcessors_loop path parsed (pre ++ h :: post) = Throw e.
Proof.
  intros Hpre Ht Hx. induction Hpre as [|h' pre Hh' _ IH]; simpl.
  - rewrite Ht. run_M. rewrite Hx. reflexivity.
  - rewrite Hh'. exact IH.
Qed.

Lemma _obtainRequestProcessors_state path st r st' :
  _obtainRequestProcessors path st = (r, st') -> st' = st.
Proof. unfold _obtainRequestProcessors. run_M. intros Ho. break_match; reflexivity. Qed.

Lemma _obtainRequestProcessors_throws path st e st' :
  _obtainRequestProcessors path st = (Throw e, st') -> foreign e.
Proof.
  unfold _obtainRequestProcessors. run_M.
  destruct (parsePath path) as [parsed|e'] eqn:Hp.
  - intros [= Hl _]. eapply _obtainRequestProcessors_loop_throws; eauto.
  - intros [= <- _]. eapply parsePath_throws; eauto.
Qed.

Lemma _obtainRequestProcessors_fails st path :
  decode_failure st path ->
  exists e, _obtainRequestProcessors path st = (Throw e, st) /\
    (Forall (fun h => keyed (pathExp h)) (_handlers st) -> e = URIError).
Proof.
  intros [u param Hu Hin Hf | parsed pre h post res a Hp Hh Hpre Hx Hin Ha];
    unfold _obtainRequestProcessors; run_M.
  - rewrite (parsePath_query_fails _ _ _ Hu Hin Hf). exists URIError. auto.
  - rewrite Hp, Hh.
    destruct (_extractRequest_param_fails path parsed (pathExp h) res a Hp Hx Hin Ha)
      as (e & He & Hkeyed).
    exists e.
    rewrite (_obtainRequestProcessors_loop_fails path parsed pre h post e);
      [|exact Hpre|eapply test_exec; eauto|exact He].
    split; [reflexivity|]. intros Hall. apply Hkeyed.
    rewrite Forall_forall in Hall. apply Hall. apply elem_of_app. right. left.
Qed.

Lemma _obtainRequestProcessors_loop_activate path parsedPath handlers : forall rps,
  _obtainRequestProcessors_loop path parsedPath handlers = Return rps ->
  Forall (fun rp => exists h, h ∈ handlers /\ p_activate rp = activate h) rps.
Proof.
  induction handlers as [|h rest IH]; intros rps; simpl; run_M.
  - intros [= <-]. constructor.
  - intros Hl.
    assert (Hrest : forall rps', _obtainRequestProcessors_loop path parsedPath rest = Return rps' ->
              Forall (fun rp => exists h0, h0 ∈ h :: rest /\ p_activate rp = activate h0) rps').
    { intros rps' Hr. apply IH in Hr. eapply Forall_impl; [exact Hr|].
      intros rp (h0 & Hin & Ha). exists h0. split; [right; exact Hin|exact Ha]. }
    break_match; auto.
    constructor; auto. exists h. split; [left|reflexivity].
Qed.

(** The callbacks of the request processors are those of the table. *)
Lemma _obtainRequestProcessors_activate (P : Arg -> Prop) path st rps st1 :
  _obtainRequestProcessors path st = (Return rps, st1) ->
  Forall (fun h => P (activate h)) (_handlers st) ->
  Forall (fun rp => P (p_activate rp)) rps.
Proof.
  unfold _obtainRequestProcessors. run_M.
  destruct (parsePath path) as [parsed|]; [|discriminate]. intros Hl Hall.
  destruct (_obtainRequestProcessors_loop path parsed (_handlers st)) as [rps'|] eqn:Hr;
    [|discriminate].
  injection Hl as <- _.
  apply _obtainRequestProcessors_loop_activate in Hr.
  eapply Forall_impl; [exact Hr|]. intros rp (h & Hin & ->).
  rewrite Forall_forall in Hall. apply Hall. exact Hin.
Qed.

Lemma _load_frame path st r st' :
  quiet_table st ->
  _load path st = (r, st') -> same_setup st st'.
Proof.
  intros Hq. unfold _load. run_M.
  destruct (_obtainRequestProcessors path st) as [[rps|e] st1] eqn:Hobt;
    pose proof (_obtainRequestProcessors_state _ _ _ _ Hobt) as ->.
  - pose proof (_obtainRequestProcessors_activate quiet_callback _ _ _ _ Hobt Hq) as Hrps.
    destruct (_load_loop rps 0 st) as [[count|e] st2] eqn:Hloop;
      apply _load_loop_frame in Hloop as [Hs _]; try exact Hrps; intros [= _ <-]; exact Hs.
  - intros [= _ <-]. unfold same_setup; auto.
Qed.

Lemma _load_return path st b st' :
  _load path st = (Return b, st') -> _loadedPath st' = val path.
Proof. unfold _load. run_M. intros Hl. break_match. reflexivity. Qed.

Lemma _load_obtain_throws path st e :
  _obtainRequestProcessors path st = (Throw e, st) -> _load path st = (Throw e, st).
Proof. unfold _load. run_M. intros ->. reflexivity. Qed.

(** With an empty handler table no callback runs: [_load] returns
    [false], or throws what parsing the fragment throws. *)
Lemma _load_empty_table path st r st' :
  _handlers st = [] ->
  _load path st = (r, st') ->
  r = Return false \/ exists e, r = Throw e /\ foreign e.
Proof.
  intros Hh. unfold _load, _obtainRequestProcessors. run_M. rewrite Hh.
  destruct (parsePath path) as [parsed|e] eqn:Hp; cbn [_obtainRequestProcessors_loop]; run_M.
  - cbn [_load_loop]. run_M. intros [= <- _]. left. reflexivity.
  - intros [= <- _]. right. exists e. split; [reflexivity|].
    eapply parsePath_throws; eauto.
Qed.

Lemma getCurrent_throws st e st' :
  getCurrent st = (Throw e, st') -> foreign e.
Proof. unfold getCurrent. run_M. intros Hg. break_match; exact I. Qed.

Lemma _loadCurrent_empty_table st e st' :
  _handlers st = [] ->
  _loadCurrent st = (Throw e, st') -> foreign e.
Proof.
  intros Hh. unfold _loadCurrent. run_M.
  destruct (getCurrent st) as [[p|e'] st1] eqn:Hg.
  - pose proof (getCurrent_state _ _ _ Hg) as ->.
    case_bool_decide; [discriminate|]. intros Hl.
    destruct (_load_empty_table _ _ _ _ Hh Hl) as [[=] | (e1 & [= <-] & Hf)]. exact Hf.
  - intros [= <- _]. eapply getCurrent_throws; eauto.
Qed.

(** *** The chain of callbacks *)

(** When no processor of [pre] returns [false], the loop goes on with
    what follows. *)
Lemma _load_loop_pass_app front back : forall count st st1,
  _load_loop front count st = (Return (count + length front), st1) ->
  _load_loop (front ++ back) count st = _load_loop back (count + length front) st1.
Proof.
  induction front as [|rp front IH]; intros count st st1; simpl; run_M.
  - intros [= Hc <-]. rewrite Nat.add_0_r. reflexivity.
  - destruct (call _ _ st) as [[next|e] st0] eqn:Hc; [|discriminate].
    destruct (is_false next) eqn:Hf.
    + intros [= Hn _]. lia.
    + intros Hrest. rewrite (IH (S count) st0 st1).
      * f_equal. lia.
      * rewrite Hrest. f_equal. f_equal. lia.
Qed.

Lemma _load_loop_count rps : forall count st n st',
  _load_loop rps count st = (Return n, st') -> count <= n <= count + length rps.
Proof.
  induction rps as [|rp rest IH]; intros count st n st'; simpl; run_M.
  - intros [= <- _]. lia.
  - destruct (call _ _ st) as [[next|e] st0]; [|discriminate].
    destruct (is_false next).
    + intros [= <- _]. lia.
    + intros Hr. apply IH in Hr. lia.
Qed.

(** The callbacks are invoked in the order of the matches, without a gap. *)
Lemma _load_loop_invoked rps : forall count st r st',
  Forall (fun rp => quiet_callback (p_activate rp)) rps ->
  _load_loop rps count st = (r, st') ->
  exists k, invoked st' = invoked st ++ map (stamp st) (take k rps).
Proof.
  induction rps as [|rp rest IH]; intros count st r st' Hq; simpl; run_M.
  - intros [= _ <-]. exists 0. simpl. rewrite app_nil_r. reflexivity.
  - inversion Hq as [|? ? Hrp Hrest]; subst.
    destruct (call _ _ st) as [[next|e] st0] eqn:Hc.
    + pose proof (call_frame _ _ _ _ _ Hrp Hc) as [_ Hlp].
      assert (Hinv : invoked st0 = invoked st ++ [stamp st rp])
        by exact (call_invoked _ _ _ _ _ Hc).
      destruct (is_false next).
      * intros [= _ <-]. exists 1. simpl. rewrite ?take_0. exact Hinv.
      * intros Hr. apply IH in Hr as [k Hk]; [|exact Hrest]. exists (S k). simpl.
        rewrite Hk, Hinv, <- app_assoc. simpl. f_equal. f_equal.
        apply map_ext. intros rp'. unfold stamp. rewrite Hlp. reflexivity.
    + assert (Hinv : exists k,
                invoked st0 = invoked st ++ map (stamp st) (take k (rp :: rest))).
      { destruct (call_invoked_throw _ _ _ _ _ Hc) as [Hi | Hi].
        - exists 1. simpl. rewrite ?take_0. exact Hi.
        - exists 0. simpl. rewrite app_nil_r. exact Hi. }
      intros [= _ <-]. exact Hinv.
Qed.

(** The short circuit: once the processors of [front] have been called
    without a [false] and the next one returns [false], the loop ends;
    no processor of [back] is called, and the [false] is not counted. *)
Lemma _load_loop_stops_at_false front rp back count st st1 st2 :
  _load_loop front count st = (Return (count + length front), st1) ->
  call (p_activate rp) (with_oldPath (request rp) (_loadedPath st1)) st1
    = (Return (VBool false), st2) ->
  _load_loop (front ++ rp :: back) count st = (Return (count + length front), st2) /\
  invoked st2 = invoked st1 ++ [stamp st1 rp].
Proof.
  intros Hpre Hcall. split.
  - rewrite (_load_loop_pass_app _ _ _ _ _ Hpre). simpl. run_M. rewrite Hcall. reflexivity.
  - exact (call_invoked _ _ _ _ _ Hcall).
Qed.

(** *** listen, stop, navigate *)

Lemma InvalidMode_not_AlreadyListening m : InvalidMode m <> AlreadyListening.
Proof. unfold InvalidMode, AlreadyListening. cbv [String.append]. discriminate. Qed.

(** The guard of [listen] is [_options] being set. *)
Lemma listen_AlreadyListening options st :
  is_object (_options st) = true -> listen options st = (Throw AlreadyListening, st).
Proof. intros Hobj. unfold listen. run_M. rewrite Hobj. reflexivity. Qed.

(** With [_options] not set and no handler, [listen] does not end with
    that error: no callback runs that could throw it. *)
Lemma listen_idle_empty_table options st :
  is_object (_options st) = false -> _handlers st = [] ->
  (listen options st).1 <> Throw AlreadyListening.
Proof.
  intros Hobj Hh. unfold listen. run_M. rewrite Hobj. simpl.
  repeat case_bool_decide; simpl.
  - destruct (truthy _); simpl; [discriminate|].
    destruct (_loadCurrent _) as [[b|e] st1] eqn:Hc; simpl; [discriminate|].
    intros [= ->]. apply _loadCurrent_empty_table in Hc; [exact Hc|exact Hh].
  - destruct (truthy _); simpl; [discriminate|].
    destruct (_loadCurrent _) as [[b|e] st1] eqn:Hc; simpl; [discriminate|].
    intros [= ->]. apply _loadCurrent_empty_table in Hc; [exact Hc|exact Hh].
  - intros Hm. simpl in Hm.
    match type of Hm with Throw (InvalidMode ?m) = _ =>
      apply (InvalidMode_not_AlreadyListening m); congruence end.
Qed.

(** The mode is checked after [_options] has been set: the router that
    threw [InvalidMode] has its options. *)
Lemma listen_InvalidMode options st m :
  is_object (_options st) = false ->
  mode options = Some m -> m <> "hash" -> m <> "history" ->
  listen options st =
    (Throw (InvalidMode (Some m)), (set_options (val (_merge options empty_options)) st).2).
Proof.
  intros Hobj Hm Hh Hy. unfold listen. run_M. rewrite Hobj. simpl. rewrite Hm. simpl.
  rewrite !bool_decide_eq_false_2 by congruence. reflexivity.
Qed.

Lemma listen_silent options st :
  is_object (_options st) = false ->
  silent options = Some true ->
  mode options = None \/ mode options = Some "hash" \/ mode options = Some "history" ->
  exists st', listen options st = (Return false, st') /\
    _options st' = val (_merge options empty_options).
Proof.
  intros Hobj Hs Hm. unfold listen. run_M. rewrite Hobj. simpl. rewrite Hs. simpl.
  destruct Hm as [-> | [-> | ->]]; simpl; eexists; split; reflexivity.
Qed.

Lemma navigate_NotListening path st :
  is_object (_options st) = false -> navigate path st = (Throw NotListening, st).
Proof. intros Hobj. unfold navigate. run_M. rewrite Hobj. reflexivity. Qed.


Lemma stop_not_listening st :
  is_object (_options st) = false -> stop st = (Throw TypeError, st).
Proof. unfold stop. run_M. destruct (_options st); [reflexivity..|discriminate]. Qed.

Lemma stop_listening st o :
  _options st = val o ->
  exists st', stop st = (Return tt, st') /\
    _handlers st' = [] /\ _loadedPath st' = null /\ _options st' = null /\
    app st' = app st /\ invoked st' = invoked st.
Proof.
  intros Ho. unfold stop. run_M. rewrite Ho.
  case_bool_decide; eexists; (split; [reflexivity|]); simpl; auto.
Qed.

(** As the listener of an event, [_loadCurrent] throws before its guard:
    nothing is loaded and the state stays. *)
Lemma _loadCurrent_on_event st :
  _loadCurrent_on ThisWindow st = (Throw TypeError, st) /\
  _loadCurrent_on ThisRouter st = _loadCurrent st.
Proof. split; reflexivity. Qed.



(** With callbacks that leave the router alone the current path is the
    same after [_load]. *)
Lemma getCurrent_after_load path st r st' p :
  quiet_table st ->
  _load path st = (r, st') ->
  getCurrent st = (Return p, st) -> getCurrent st' = (Return p, st').
Proof.
  intros Hq Hl Hg. pose proof (_load_frame _ _ _ _ Hq Hl) as (Hw & Ho & _).
  pose proof (getCurrent_setup st st' Hw Ho) as Heq. rewrite Hg in Heq.
  destruct (getCurrent st') as [r1 st2] eqn:Hg1.
  pose proof (getCurrent_state _ _ _ Hg1) as ->. simpl in Heq. congruence.
Qed.

(** *** Completion of a load *)

Lemma call_total f request st :
  total_callback f -> exists v st', call f request st = (Return v, st').
Proof.
  intros (fn & -> & Hfn). unfold call.
  destruct (Hfn request (app st)) as (v & a' & e & ->). eauto.
Qed.

Lemma _load_loop_total rps : forall count st,
  Forall (fun rp => total_callback (p_activate rp)) rps ->
  exists n st', _load_loop rps count st = (Return n, st').
Proof.
  induction rps as [|rp rest IH]; intros count st Hall; simpl; run_M; [eauto|].
  inversion Hall as [|? ? Hrp Hrest]; subst.
  destruct (call_total _ (with_oldPath (request rp) (_loadedPath st)) st Hrp) as (v & st1 & ->).
  destruct (is_false v); [eauto|]. apply IH. exact Hrest.
Qed.

Lemma _load_completes path st rps :
  _obtainRequestProcessors path st = (Return rps, st) ->
  Forall (fun h => total_callback (activate h)) (_handlers st) ->
  exists navigated st', _load path st = (Return navigated, st').
Proof.
  intros Ho Hall. unfold _load. run_M. rewrite Ho.
  pose proof (_obtainRequestProcessors_activate total_callback _ _ _ _ Ho Hall) as Hrps.
  destruct (_load_loop_total rps 0 st Hrps) as (n & st1 & ->). simpl. eauto.
Qed.

(** *** Groups *)

(** On an empty table, mounting the group [a], [b] on [prefix] is
    registering [prefix/a] and then [prefix/b], as long as cutting the
    slashes of the joined paths is cutting those of their parts. *)
Lemma use_group_on_empty_table prefix a fa b fb st ea eb :
  _handlers st = [] ->
  clearSlashes (prefix +:+ "/" +:+ a) = clearSlashes prefix +:+ "/" +:+ clearSlashes a ->
  clearSlashes (prefix +:+ "/" +:+ b) = clearSlashes prefix +:+ "/" +:+ clearSlashes b ->
  stringToPathExp (clearSlashes prefix +:+ "/" +:+ clearSlashes a) no_options = Return ea ->
  stringToPathExp (clearSlashes prefix +:+ "/" +:+ clearSlashes b) no_options = Return eb ->
  use (UValue (AString prefix)) (UGroup {| g_handlers := [member a fa; member b fb] |}) st =
  (use (UValue (AString (prefix +:+ "/" +:+ a))) (UValue fa);;
   use (UValue (AString (prefix +:+ "/" +:+ b))) (UValue fb)) st.
Proof.
  destruct st as [w o lp hs ap inv]. cbn [_handlers]. intros -> Ha Hb Hea Heb.
  unfold use, _extractHandlers. run_M.
  cbn -[clearSlashes stringToPathExp String.append].
  rewrite Ha, Hb, Hea. cbn -[clearSlashes stringToPathExp String.append].
  rewrite Heb. reflexivity.
Qed.

(** [_options] is set by [listen] and cleared by [stop] only: the other
    methods leave it as it is. *)
Lemma _loadCurrent_frame st r st' :
  quiet_table st ->
  _loadCurrent st = (r, st') -> same_setup st st'.
Proof.
  intros Hq. unfold _loadCurrent. run_M.
  destruct (getCurrent st) as [[p|e] st0] eqn:Hg;
    apply getCurrent_state in Hg as ->;
    [|intros [= _ <-]; unfold same_setup; auto].
  case_bool_decide; [intros [= _ <-]; unfold same_setup; auto|].
  apply _load_frame. exact Hq.
Qed.

Lemma _loadCurrent_options st r st' :
  quiet_table st ->
  _loadCurrent st = (r, st') -> _options st' = _options st.
Proof. intros Hq Hl. apply (_loadCurrent_frame _ _ _ Hq Hl). Qed.

Lemma use_options path activate st r st' :
  use path activate st = (r, st') -> _options st' = _options st.
Proof. unfold use. run_M. intros Hu. break_match; reflexivity. Qed.

(** Mounting a group replaces the handler table by the handlers of the
    group: what was registered before is gone, whatever it was. *)
Lemma use_group_replaces_handlers prefix group st hs :
  _extractHandlers (Some (clearSlashes prefix)) group [] = Return hs ->
  let r := use (UValue (AString prefix)) (UGroup group) st in
  r.1 = Return tt /\ _handlers r.2 = hs.
Proof. intros Hx. unfold use. run_M. simpl. rewrite Hx. simpl. auto. Qed.

End RouterLaws.

(** ** Properties of every router *)

Section RouterProperties.
Context `{Browser} {App : Type}.
Implicit Types (st : State (App := App)).


(** C5 (as amended).  A percent-decoding failure is not recovered: when
    a query segment of the fragment, or a parameter captured by the first
    matching handler, cannot be decoded, [_load] ends with an exception
    thrown to its caller, in the state it started from: no callback has
    run and the loaded path has not moved.  The exception is the
    [URIError] when every handler has a key for each capturing group of
    its pattern. *)
Theorem C5_decode_failure_propagates st path :
  decode_failure st path ->
  exists e, _load path st = (Throw e, st) /\
    (Forall (fun h => keyed (pathExp h)) (_handlers st) -> e = URIError).
Proof.
  intros Hf. destruct (_obtainRequestProcessors_fails st path Hf) as (e & He & Hk).
  exists e. split; [apply _load_obtain_throws; exact He|exact Hk].
Qed.

(** C7.  [stop] on a listening router succeeds and leaves no handler, a
    [null] loaded path and [null] options, which is the idle state:
    [listen] does not throw [AlreadyListening] there, and with a valid
    mode it starts the router again. *)
Theorem C7_stop_is_full_reset st o :
  _options st = val o ->
  exists st', stop st = (Return tt, st') /\
    _handlers st' = [] /\ _loadedPath st' = null /\ _options st' = null /\
    (forall options, (listen options st').1 <> Throw AlreadyListening) /\
    (forall options,
       silent options = Some true ->
       mode options = None \/ mode options = Some "hash" \/ mode options = Some "history" ->
       exists st'', listen options st' = (Return false, st'') /\
         is_object (_options st'') = true).
Proof.
  intros Ho. destruct (stop_listening st o Ho) as (st' & Hs & Hh & Hl & Hn & _).
  exists st'. repeat split; try assumption.
  - intros options. apply listen_idle_empty_table; [rewrite Hn; reflexivity|exact Hh].
  - intros options Hsil Hmode.
    destruct (listen_silent options st') as (st'' & Hlis & Hopt); auto.
    { rewrite Hn. reflexivity. }
    exists st''. rewrite Hopt. auto.
Qed.

(** C9.  Whenever [_load(path)] returns, the loaded path is [path]: also
    when no handler matched and when a callback returned [false].  And it
    does return whenever the fragment parses and the callbacks are
    functions that return. *)
Theorem C9_load_advances_loaded_path st path :
  (forall navigated st',
     _load path st = (Return navigated, st') -> _loadedPath st' = val path) /\
  (forall rps,
     _obtainRequestProcessors path st = (Return rps, st) ->
     Forall (fun h => total_callback (activate h)) (_handlers st) ->
     exists navigated st',
       _load path st = (Return navigated, st') /\ _loadedPath st' = val path).
Proof.
  split; [intros navigated st'; apply _load_return|].
  intros rps Ho Hall.
  destruct (_load_completes path st rps Ho Hall) as (navigated & st' & Hl).
  exists navigated, st'. split; [exact Hl|]. eapply _load_return; eauto.
Qed.

(** C10.  [stop] needs a listening router: with [_options] undefined
    (never started) or [null] (stopped) it throws the [TypeError] of
    reading [_options.mode] and changes nothing; so the [stop] after a
    successful [stop] always throws. *)
Theorem C10_stop_requires_listening st :
  _options st = undefined \/ _options st = null ->
  stop st = (Throw TypeError, st) /\
  (forall st0 st1, stop st0 = (Return tt, st1) -> stop st1 = (Throw TypeError, st1)).
Proof.
  intros Hopt. split.
  - apply stop_not_listening. destruct Hopt as [-> | ->]; reflexivity.
  - intros st0 st1 Hs. apply stop_not_listening.
    destruct (_options st0) as [| |o] eqn:Ho.
    + rewrite stop_not_listening in Hs by (rewrite Ho; reflexivity). discriminate.
    + rewrite stop_not_listening in Hs by (rewrite Ho; reflexivity). discriminate.
    + destruct (stop_listening st0 o Ho) as (st' & Hs' & _ & _ & Hn & _).
      rewrite Hs in Hs'. injection Hs' as <-. rewrite Hn. reflexivity.
Qed.

End RouterProperties.

(** ** Further properties

    What the helpers compute, read off the regular expressions of the
    source. *)

Import Notions.

Section StringFacts.
#[local] Open Scope char_scope.

(** *** Runs of one character *)

Lemma clear_caps_nil x : clear_caps [] x = x.
Proof. destruct x. reflexivity. Qed.

Lemma advance_n_pos x : forall j, j <= length (m_rest x) -> m_pos (advance_n x j) = m_pos x + j.
Proof.
  intros j. revert x. induction j as [|j IH]; intros x Hj; simpl; [lia|].
  destruct (m_rest x) as [|a t] eqn:Hr; simpl in Hj; [lia|].
  rewrite IH by (simpl; lia). simpl. lia.
Qed.

Lemma advance_n_rest x : forall j, m_rest (advance_n x j) = drop j (m_rest x).
Proof.
  intros j. revert x. induction j as [|j IH]; intros x; simpl; [reflexivity|].
  destruct (m_rest x) as [|a t] eqn:Hr; simpl; [rewrite Hr; reflexivity|].
  rewrite IH. reflexivity.
Qed.

Lemma advance_n_caps x : forall j, m_caps (advance_n x j) = m_caps x.
Proof.
  intros j. revert x. induction j as [|j IH]; intros x; simpl; [reflexivity|].
  destruct (m_rest x) as [|a t]; [reflexivity|]. rewrite IH. reflexivity.
Qed.

Lemma run_length_le p l : run_length p l <= length l.
Proof. induction l as [|a t IH]; simpl; [lia|]. destruct (p a); simpl; lia. Qed.

Section Runs.
Variables (body : mstate -> (mstate -> option mstate) -> option mstate) (p : ascii -> bool).
Hypothesis Hbody : forall x k, body x k = one_char p x k.

Lemma advance_n_S x a t j : m_rest x = a :: t -> advance_n x (S j) = advance_n (advance x a t) j.
Proof. intros Hr. simpl. rewrite Hr. reflexivity. Qed.

Lemma repeat_matcher_star k fuel x :
  repeat_matcher body [] true k (S fuel) 0 None x =
  match m_rest x with
  | a :: t =>
      if p a then or_try (repeat_matcher body [] true k fuel 0 None (advance x a t)) (k x)
      else k x
  | [] => k x
  end.
Proof.
  cbn -[Nat.eqb]. rewrite clear_caps_nil, Hbody. unfold one_char.
  destruct (m_rest x) as [|a t]; [reflexivity|]. destruct (p a); [|reflexivity].
  cbn -[Nat.eqb].
  replace (S (m_pos x) =? m_pos x)%nat with false by (symmetry; apply Nat.eqb_neq; lia).
  reflexivity.
Qed.

(** A greedy repetition of a one-character matcher goes to the end of the
    run, and succeeds there if the continuation does. *)
Lemma repeat_run_success k z : forall fuel x,
  run_length p (m_rest x) < fuel ->
  k (advance_n x (run_length p (m_rest x))) = Some z ->
  repeat_matcher body [] true k fuel 0 None x = Some z.
Proof.
  induction fuel as [|fuel IH]; intros x Hf Hk; [lia|].
  rewrite repeat_matcher_star.
  destruct (m_rest x) as [|a t] eqn:Hr; cbn [run_length] in *.
  - exact Hk.
  - destruct (p a) eqn:Hp; [|exact Hk].
    rewrite (advance_n_S x a t _ Hr) in Hk.
    rewrite (IH (advance x a t)); [reflexivity|simpl; lia|exact Hk].
Qed.

(** It fails when the continuation fails at every point of the run. *)
Lemma repeat_run_failure k : forall fuel x,
  (forall j, j <= run_length p (m_rest x) -> k (advance_n x j) = None) ->
  repeat_matcher body [] true k fuel 0 None x = None.
Proof.
  induction fuel as [|fuel IH]; intros x Hk; [reflexivity|].
  rewrite repeat_matcher_star.
  assert (H0 : k x = None) by (apply (Hk 0); lia).
  destruct (m_rest x) as [|a t] eqn:Hr; cbn [run_length] in *; [exact H0|].
  destruct (p a) eqn:Hp; [|exact H0].
  rewrite IH; [exact H0|].
  intros j Hj. rewrite <- (advance_n_S x a t _ Hr). apply Hk. simpl in Hj. lia.
Qed.

(** With one mandatory repetition: the first character, then the run. *)
Lemma repeat_run_plus k fuel x :
  repeat_matcher body [] true k (S fuel) 1 None x =
  match m_rest x with
  | a :: t => if p a then repeat_matcher body [] true k fuel 0 None (advance x a t) else None
  | [] => None
  end.
Proof.
  simpl. rewrite clear_caps_nil, Hbody. unfold one_char.
  destruct (m_rest x) as [|a t]; [reflexivity|]. destruct (p a); reflexivity.
Qed.

End Runs.

(** *** clearSlashes *)

Lemma LEADING_SLASHES_STRIPPER_tree :
  LEADING_SLASHES_STRIPPER =
  {| source := "^\/+|\/+$"; global := false; ignoreCase := false; multiline := false;
     tree := RAlt at_start at_end; ncaptures := 0 |}.
Proof. vm_compute. reflexivity. Qed.

Lemma is_slash_true a : is_slash a = true <-> a = "/".
Proof. apply Ascii.eqb_eq. Qed.

Lemma slashes_success x k a t z :
  m_rest x = a :: t -> is_slash a = true ->
  k (advance_n x (S (run_length is_slash t))) = Some z ->
  m false false slashes x k = Some z.
Proof.
  intros Hr Ha Hk. unfold slashes. cbn [m groups_of app].
  replace (1 + length (m_rest x) + 1) with (S (length (m_rest x) + 1)) by lia.
  rewrite (repeat_run_plus _ is_slash) by reflexivity.
  rewrite Hr, Ha.
  apply (repeat_run_success _ is_slash); [reflexivity| |].
  - pose proof (run_length_le is_slash t). cbn [m_rest advance length]. lia.
  - rewrite (advance_n_S x a t _ Hr) in Hk. exact Hk.
Qed.

Lemma slashes_failure x k :
  match m_rest x with
  | a :: t =>
      is_slash a = true ->
      forall j, j <= run_length is_slash t -> k (advance_n x (S j)) = None
  | [] => True
  end ->
  m false false slashes x k = None.
Proof.
  intros Hk. unfold slashes. cbn [m groups_of app].
  replace (1 + length (m_rest x) + 1) with (S (length (m_rest x) + 1)) by lia.
  rewrite (repeat_run_plus _ is_slash) by reflexivity.
  destruct (m_rest x) as [|a t] eqn:Hr; [reflexivity|].
  destruct (is_slash a); [|reflexivity].
  apply (repeat_run_failure _ is_slash); [reflexivity|].
  intros j Hj. rewrite <- (advance_n_S x a t _ Hr). apply Hk; [reflexivity|exact Hj].
Qed.

Lemma run_length_replicate n : run_length is_slash (replicate n "/") = n.
Proof. induction n as [|n IH]; simpl; [reflexivity|]. rewrite IH. reflexivity. Qed.

Lemma run_length_short core r d :
  last core = Some d -> is_slash d = false ->
  run_length is_slash (core ++ r) < length core.
Proof.
  induction core as [|c core IH]; intros Hl Hd; [discriminate|].
  destruct core as [|c' core].
  - simpl in Hl. assert (c = d) as -> by congruence. simpl. rewrite Hd. lia.
  - specialize (IH Hl Hd). change (run_length is_slash ((c :: c' :: core) ++ r))
      with (if is_slash c then S (run_length is_slash ((c' :: core) ++ r)) else 0).
    destruct (is_slash c); simpl length in *; lia.
Qed.

Lemma drop_slashes_run l : drop_slashes l = drop (run_length is_slash l) l.
Proof. induction l as [|a t IH]; [reflexivity|]. simpl. destruct (is_slash a); [exact IH|reflexivity]. Qed.

Lemma drop_slashes_replicate l : l = replicate (run_length is_slash l) "/" ++ drop_slashes l.
Proof.
  induction l as [|a t IH]; [reflexivity|]. simpl.
  destruct (is_slash a) eqn:Ha; [|reflexivity].
  apply is_slash_true in Ha. subst a. simpl. f_equal. exact IH.
Qed.

Lemma drop_slashes_head l : head (drop_slashes l) <> Some "/".
Proof.
  induction l as [|a t IH]; [discriminate|]. simpl.
  destruct (is_slash a) eqn:Ha; [exact IH|].
  simpl. intros [= ->]. discriminate.
Qed.

(** A path that starts with a slash: the first alternative matches at [0]
    and takes the slashes at the head. *)
Lemma stripper_at_start x t :
  m_prev x = None -> m_rest x = "/" :: t ->
  m false false (RAlt at_start at_end) x Some =
  Some (advance_n x (S (run_length is_slash t))).
Proof.
  intros Hp Hr. cbn [m]. unfold at_start at 1. cbn [m]. rewrite Hp.
  rewrite (slashes_success x _ "/" t (advance_n x (S (run_length is_slash t))) Hr);
    reflexivity.
Qed.

(** Elsewhere only the second alternative can match, and only where
    slashes go to the end of the path. *)
Lemma stripper_scan n : forall core x,
  m_rest x = core ++ replicate n "/" ->
  last core <> Some "/" ->
  (m_prev x = None -> head (m_rest x) <> Some "/") ->
  scan false false (RAlt at_start at_end) x (core ++ replicate n "/") =
  if (n =? 0)%nat then None
  else Some (m_pos x + length core, advance_n x (length core + n)).
Proof.
  induction core as [|c core IH]; intros x Hr Hl Hp.
  - cbn [Datatypes.app] in *. destruct n as [|n].
    + cbn [replicate] in *. cbn [scan m]. unfold at_start, at_end. cbn [m].
      rewrite !slashes_failure by (rewrite Hr; exact I).
      destruct (m_prev x); reflexivity.
    + cbn [replicate] in *. cbn [Nat.eqb scan m].
      destruct (m_prev x) as [p|] eqn:Hprev;
        [|exfalso; apply Hp; [reflexivity|rewrite Hr; reflexivity]].
      unfold at_start at 1. cbn [m]. rewrite Hprev. cbn [andb or_try].
      unfold at_end. cbn [m].
      rewrite (slashes_success x _ "/" (replicate n "/") (advance_n x (S n)) Hr).
      * cbn [length]. rewrite Nat.add_0_r. reflexivity.
      * reflexivity.
      * rewrite run_length_replicate, advance_n_rest, Hr.
        cbn [drop]. rewrite drop_ge by (rewrite length_replicate; lia). reflexivity.
  - cbn [Datatypes.app] in *.
    assert (Hnone : m false false (RAlt at_start at_end) x Some = None).
    { cbn [m].
      assert (He : m false false at_end x Some = None).
      { unfold at_end. cbn [m]. apply slashes_failure. rewrite Hr.
        intros Hc j Hj. rewrite advance_n_rest, Hr. cbn [drop].
        apply is_slash_true in Hc. subst c.
        destruct (last core) as [d|] eqn:Hlast;
          [|apply last_None in Hlast; subst core; exfalso; apply Hl; reflexivity].
        assert (Hd : is_slash d = false).
        { destruct (is_slash d) eqn:Hd; [|reflexivity]. apply is_slash_true in Hd. subst d.
          exfalso. apply Hl. destruct core; [discriminate|exact Hlast]. }
        pose proof (run_length_short core (replicate n "/") d Hlast Hd) as Hshort.
        destruct (drop j (core ++ replicate n "/")) as [|e r] eqn:Hdrop; [|reflexivity].
        apply (f_equal length) in Hdrop. rewrite length_drop, length_app in Hdrop.
        simpl in Hdrop. lia. }
      rewrite He. unfold at_start. cbn [m].
      destruct (m_prev x) as [p|] eqn:Hprev; [reflexivity|].
      rewrite slashes_failure; [reflexivity|]. rewrite Hr.
      intros Hc. exfalso. apply Hp; [reflexivity|]. rewrite Hr.
      apply is_slash_true in Hc. subst c. reflexivity. }
    cbn [scan]. rewrite Hnone.
    rewrite (IH (advance x c (core ++ replicate n "/"))).
    + destruct (n =? 0)%nat; [reflexivity|].
      cbn [length Nat.add]. rewrite (advance_n_S x c _ _ Hr).
      cbn [m_pos advance]. do 2 f_equal. lia.
    + reflexivity.
    + destruct core; [discriminate|exact Hl].
    + discriminate.
Qed.

Lemma chars_str l : chars (str l) = l.
Proof. apply list_ascii_of_string_of_list_ascii. Qed.

Lemma str_chars s : str (chars s) = s.
Proof. apply string_of_list_ascii_of_string. Qed.

Lemma trailing_slashes l :
  exists n, l = rev (drop_slashes (rev l)) ++ replicate n "/" /\
            last (rev (drop_slashes (rev l))) <> Some "/".
Proof.
  exists (run_length is_slash (rev l)). split.
  - rewrite <- (rev_involutive l) at 1.
    rewrite (drop_slashes_replicate (rev l)) at 1.
    rewrite rev_app_distr. f_equal.
    generalize (run_length is_slash (rev l)). intros n.
    induction n as [|n IH]; [reflexivity|].
    simpl. rewrite IH. clear IH. induction n as [|n IH]; [reflexivity|].
    simpl. f_equal. exact IH.
  - pose proof (drop_slashes_head (rev l)) as Hh.
    destruct (drop_slashes (rev l)) as [|a t]; [discriminate|].
    simpl in *. rewrite last_snoc. exact Hh.
Qed.

Lemma clearSlashes_strip path : clearSlashes path = strip_one_side path.
Proof.
  unfold clearSlashes, replace, strip_one_side, exec, exec_from.
  rewrite LEADING_SLASHES_STRIPPER_tree.
  cbn [global ignoreCase multiline tree ncaptures chars].
  fold (chars path). remember (chars path) as l eqn:Hchars.
  assert (path = str l) as -> by (subst l; symmetry; apply str_chars). clear Hchars.
  change (chars EmptyString) with (@nil ascii).
  rewrite take_0, !drop_0. cbn [Nat.ltb Nat.leb last replicate length expand].
  destruct l as [|a t].
  - vm_compute. reflexivity.
  - destruct (is_slash a) eqn:Ha.
    + apply is_slash_true in Ha. subst a. cbn [scan].
      rewrite (stripper_at_start _ t) by reflexivity.
      cbn [index end_index Datatypes.app]. rewrite take_0.
      rewrite advance_n_pos
        by (pose proof (run_length_le is_slash t); cbn [m_rest length]; lia).
      cbn [m_pos Nat.add Datatypes.app]. rewrite skipn_cons, <- drop_slashes_run.
      reflexivity.
    + assert (Hh : head (a :: t) <> Some "/") by (intros [= ->]; discriminate).
      destruct (trailing_slashes (a :: t)) as (n & Hl & Hlast).
      generalize dependent (rev (drop_slashes (rev (a :: t)))). intros core Hl Hlast.
      rewrite Hl in Hh |- *. clear Hl Ha a t.
      rewrite (stripper_scan n core).
      * destruct n as [|n]; cbn [Nat.eqb].
        { cbn [replicate]. rewrite app_nil_r. reflexivity. }
        cbn [index end_index Datatypes.app].
        rewrite advance_n_pos by (cbn [m_rest]; rewrite length_app, length_replicate; lia).
        cbn [m_pos Nat.add].
        rewrite take_app_length.
        rewrite drop_ge by (rewrite length_app, length_replicate; lia).
        rewrite app_nil_r. reflexivity.
      * reflexivity.
      * exact Hlast.
      * intros _. exact Hh.
Qed.

(** *** _escapeString and _escapeGroup *)

Section ClassReplace.
Variables (items : list class_item) (re : RegExp) (special : ascii -> bool).
Hypothesis Hre :
  global re = true /\ ignoreCase re = false /\ multiline re = false /\
  tree re = class_tree items /\ ncaptures re = 1.
Hypothesis Hspecial : forall c, class_mem false items c = special c.

Lemma class_m x :
  m false false (class_tree items) x Some =
  match m_rest x with
  | a :: t =>
      if special a then Some (with_caps (advance x a t) (<[0 := Some [a]]> (m_caps x))) else None
  | [] => None
  end.
Proof.
  unfold Notions.class_tree. cbn [m]. unfold one_char.
  destruct (m_rest x) as [|a t]; [reflexivity|].
  cbn [xorb]. rewrite Hspecial. destruct (special a); [|reflexivity].
  cbn [pred m_pos advance m_caps]. replace (S (m_pos x) - m_pos x) with 1 by lia.
  reflexivity.
Qed.

Lemma class_scan_none : forall rest x,
  m_rest x = rest -> Forall (fun c => special c = false) rest ->
  scan false false (class_tree items) x rest = None.
Proof.
  induction rest as [|c rest IH]; intros x Hr Hall; cbn [scan]; rewrite class_m, Hr.
  - reflexivity.
  - inversion Hall as [|? ? Hc Hall']; subst. rewrite Hc. apply IH; [reflexivity|exact Hall'].
Qed.

Lemma class_scan_some c rest : forall mid x,
  m_rest x = mid ++ c :: rest -> Forall (fun c => special c = false) mid -> special c = true ->
  scan false false (class_tree items) x (mid ++ c :: rest) =
  Some (m_pos x + length mid,
        MState (S (m_pos x + length mid)) (Some c) rest (<[0 := Some [c]]> (m_caps x))).
Proof.
  induction mid as [|a mid IH]; intros x Hr Hall Hc; cbn [Datatypes.app] in *;
    cbn [scan]; rewrite class_m, Hr.
  - rewrite Hc. cbn [length]. rewrite Nat.add_0_r. reflexivity.
  - inversion Hall as [|? ? Ha Hall']; subst. rewrite Ha.
    rewrite (IH (advance x a (mid ++ c :: rest))); [|reflexivity|exact Hall'|exact Hc].
    cbn [m_pos advance length m_caps]. rewrite Nat.add_succ_r. reflexivity.
Qed.

Lemma class_exec_none pre rest :
  Forall (fun c => special c = false) rest ->
  exec_from re (str (pre ++ rest)) (length pre) = None.
Proof.
  intros Hall. destruct Hre as (_ & Hic & Hml & Ht & Hn).
  unfold exec_from. rewrite chars_str, Hic, Hml, Ht, Hn.
  replace (length (pre ++ rest) <? length pre)%nat with false
    by (symmetry; apply Nat.ltb_ge; rewrite length_app; lia).
  rewrite drop_app_length.
  rewrite class_scan_none; [reflexivity|reflexivity|exact Hall].
Qed.

Lemma class_exec_some pre mid c rest :
  Forall (fun c => special c = false) mid -> special c = true ->
  exec_from re (str (pre ++ mid ++ c :: rest)) (length pre) =
  Some {| index := length pre + length mid; matched := str [c];
          captures := [Some (str [c])]; end_index := S (length pre + length mid) |}.
Proof.
  intros Hall Hc. destruct Hre as (_ & Hic & Hml & Ht & Hn).
  unfold exec_from. rewrite chars_str, Hic, Hml, Ht, Hn.
  replace (length (pre ++ mid ++ c :: rest) <? length pre)%nat with false
    by (symmetry; apply Nat.ltb_ge; rewrite length_app; lia).
  rewrite drop_app_length.
  rewrite class_scan_some; [|reflexivity|exact Hall|exact Hc].
  cbn [m_pos m_caps replicate]. f_equal. f_equal.
  replace (S (length pre + length mid) - (length pre + length mid)) with 1 by lia.
  rewrite (app_assoc pre mid), <- length_app, drop_app_length. reflexivity.
Qed.

Lemma class_first rest :
  Forall (fun c => special c = false) rest \/
  exists mid c rest', rest = mid ++ c :: rest' /\
    Forall (fun c => special c = false) mid /\ special c = true.
Proof.
  induction rest as [|a rest IH]; [left; constructor|].
  destruct (special a) eqn:Ha.
  - right. exists [], a, rest. repeat split; [constructor|exact Ha].
  - destruct IH as [Hall|(mid & c & rest' & -> & Hall & Hc)].
    + left. constructor; assumption.
    + right. exists (a :: mid), c, rest'. repeat split; [constructor; assumption|exact Hc].
Qed.

Lemma backslash_before_plain l :
  Forall (fun c => special c = false) l -> backslash_before special l = l.
Proof.
  induction 1 as [|c l Hc _ IH]; [reflexivity|].
  unfold backslash_before in *. cbn [flat_map]. rewrite Hc, IH. reflexivity.
Qed.

Lemma class_replace_all : forall fuel pre rest,
  length rest < fuel ->
  replace_all fuel re (str (pre ++ rest)) ["\"; "$"; "1"] (length pre) (length pre) =
  backslash_before special rest.
Proof.
  induction fuel as [|fuel IH]; intros pre rest Hf; [lia|].
  cbn [replace_all].
  destruct (class_first rest) as [Hall|(mid & c & rest' & -> & Hall & Hc)].
  - rewrite class_exec_none by exact Hall.
    rewrite chars_str, drop_app_length, backslash_before_plain by exact Hall. reflexivity.
  - rewrite class_exec_some by assumption.
    cbn [index end_index].
    replace (S (length pre + length mid) =? length pre + length mid)%nat with false
      by (symmetry; apply Nat.eqb_neq; lia).
    rewrite chars_str, drop_app_length.
    replace (length pre + length mid - length pre) with (length mid) by lia.
    rewrite take_app_length.
    replace (pre ++ mid ++ c :: rest') with ((pre ++ mid ++ [c]) ++ rest')
      by (rewrite <- !app_assoc; reflexivity).
    replace (S (length pre + length mid)) with (length (pre ++ mid ++ [c]))
      by (rewrite !length_app; simpl; lia).
    rewrite IH by (rewrite length_app in Hf; simpl in Hf; lia).
    unfold backslash_before. rewrite flat_map_app.
    fold (backslash_before special mid). rewrite backslash_before_plain by exact Hall.
    cbn [flat_map]. rewrite Hc.
    reflexivity.
Qed.

Lemma class_replace s :
  replace s re "\$1" = str (backslash_before special (chars s)).
Proof.
  unfold replace. destruct Hre as (-> & _).
  rewrite <- (str_chars s) at 2.
  rewrite (class_replace_all _ [] (chars s)); [reflexivity|].
  rewrite chars_length. lia.
Qed.

End ClassReplace.

Lemma _escapeString_backslash s :
  _escapeString s = str (backslash_before string_special (chars s)).
Proof.
  unfold _escapeString.
  apply (class_replace (map (fun c => CRange c c) (chars ".+*?=^!:${}()[]|/"))).
  - vm_compute. repeat split; reflexivity.
  - intros c. destruct c as [[] [] [] [] [] [] [] []]; vm_compute; reflexivity.
Qed.

(** *** The default route and the hash *)

Lemma any_star_m x k z :
  k (advance_n x (run_length not_terminator (m_rest x))) = Some z ->
  m false false (RSeq (RRepeat RAny 0 None true) REmpty) x k = Some z.
Proof.
  intros Hk. cbn [m groups_of].
  apply (repeat_run_success _ not_terminator); [reflexivity| |exact Hk].
  pose proof (run_length_le not_terminator (m_rest x)). lia.
Qed.

Lemma DEF_ROUTE_exec s :
  exists res, exec (regexp DEF_ROUTE) s = Some res /\ captures res = [].
Proof.
  unfold exec, exec_from.
  change (regexp DEF_ROUTE) with
    {| source := ".*"; global := false; ignoreCase := false; multiline := false;
       tree := RSeq (RRepeat RAny 0 None true) REmpty; ncaptures := 0 |}.
  cbn [ignoreCase multiline tree ncaptures replicate].
  rewrite take_0, !drop_0. cbn [Nat.ltb Nat.leb last].
  set (x := MState 0 None (chars s) []).
  assert (Hm : m false false (RSeq (RRepeat RAny 0 None true) REmpty) x Some =
               Some (advance_n x (run_length not_terminator (m_rest x))))
    by (apply any_star_m; reflexivity).
  destruct (chars s) as [|a t] eqn:Hs; cbn [scan]; rewrite Hm;
    (eexists; split; [reflexivity|]); cbn [captures]; rewrite advance_n_caps; reflexivity.
Qed.

Lemma run_length_all p l : Forall (fun c => p c = true) l -> run_length p l = length l.
Proof. induction 1 as [|c l Hc _ IH]; [reflexivity|]. simpl. rewrite Hc, IH. reflexivity. Qed.

Lemma hash_m_none x :
  match m_rest x with a :: _ => eqc a "#" = false | [] => True end ->
  m false false hash_tree x Some = None.
Proof.
  intros Hx. unfold hash_tree. cbn [m]. unfold one_char.
  destruct (m_rest x) as [|a t]; [reflexivity|]. cbn [canon]. rewrite Hx. reflexivity.
Qed.

Lemma hash_m_some x post :
  m_rest x = "#" :: post -> Forall (fun c => not_terminator c = true) post ->
  m false false hash_tree x Some =
  Some (with_caps (advance_n (advance x "#" post) (length post))
          (<[0 := Some post]> (m_caps x))).
Proof.
  intros Hr Hpost. unfold hash_tree.
  change (m false false (RSeq (RChar "#") ?r) x Some)
    with (one_char (fun a => eqc a "#") x (fun y => m false false r y Some)).
  unfold one_char. rewrite Hr. cbn [eqc Ascii.eqb Bool.eqb].
  set (y := advance x "#" post).
  change (m false false (RSeq (RGroup 1 ?r) ?r') y Some)
    with (m false false r y (fun z =>
            m false false r' (with_caps z (<[0 := Some (take (m_pos z - m_pos y) (m_rest y))]> (m_caps z))) Some)).
  erewrite any_star_m; [reflexivity|].
  change (m_rest y) with post. rewrite (run_length_all _ _ Hpost).
  cbn [m with_caps m_rest m_pos m_prev m_caps]. rewrite advance_n_rest.
  change (m_rest y) with post. rewrite drop_all. cbn [andb].
  rewrite advance_n_pos, advance_n_caps by (change (m_rest y) with post; lia).
  change (m_pos y) with (S (m_pos x)). change (m_caps y) with (m_caps x).
  replace (S (m_pos x) + length post - S (m_pos x)) with (length post) by lia.
  rewrite firstn_all. reflexivity.
Qed.

Lemma hash_scan_none : forall rest x,
  m_rest x = rest -> Forall (fun c => eqc c "#" = false) rest ->
  scan false false hash_tree x rest = None.
Proof.
  induction rest as [|c rest IH]; intros x Hr Hall; cbn [scan].
  - rewrite hash_m_none by (rewrite Hr; exact I). reflexivity.
  - inversion Hall as [|? ? Hc Hall']; subst.
    rewrite hash_m_none by (rewrite Hr; exact Hc).
    apply IH; [reflexivity|exact Hall'].
Qed.

Lemma hash_scan_some post : forall pre x,
  m_rest x = pre ++ "#" :: post -> Forall (fun c => eqc c "#" = false) pre ->
  Forall (fun c => not_terminator c = true) post ->
  exists y, scan false false hash_tree x (pre ++ "#" :: post) = Some (m_pos x + length pre, y) /\
            m_caps y = <[0 := Some post]> (m_caps x) /\
            m_pos y = S (m_pos x + length pre + length post).
Proof.
  induction pre as [|c pre IH]; intros x Hr Hpre Hpost; cbn [Datatypes.app] in *; cbn [scan].
  - rewrite (hash_m_some x post Hr Hpost). eexists. split; [|split].
    + cbn [length]. rewrite Nat.add_0_r. reflexivity.
    + reflexivity.
    + cbn [m_pos with_caps length]. rewrite advance_n_pos by (cbn [m_rest advance]; lia).
      cbn [m_pos advance]. lia.
  - inversion Hpre as [|? ? Hc Hpre']; subst.
    rewrite hash_m_none by (rewrite Hr; exact Hc).
    destruct (IH (advance x c (pre ++ "#" :: post)) eq_refl Hpre' Hpost) as (y & Hs & Hcaps & Hpos).
    exists y. rewrite Hs. cbn [m_pos advance length m_caps] in *.
    split; [do 2 f_equal; lia|]. split; [exact Hcaps|lia].
Qed.

Lemma after_hash_none l : Forall (fun c => eqc c "#" = false) l -> after_hash l = [].
Proof. induction 1 as [|c l Hc _ IH]; [reflexivity|]. simpl. rewrite Hc. exact IH. Qed.

Lemma hash_split l :
  Forall (fun c => eqc c "#" = false) l \/
  exists pre, l = pre ++ "#" :: after_hash l /\ Forall (fun c => eqc c "#" = false) pre.
Proof.
  induction l as [|a l IH]; [left; constructor|].
  destruct (eqc a "#") eqn:Ha.
  - right. exists nil. simpl. rewrite Ha. apply Ascii.eqb_eq in Ha. subst a.
    split; [reflexivity|constructor].
  - destruct IH as [Hall|(pre & Hl & Hpre)].
    + left. constructor; assumption.
    + right. exists (a :: pre). simpl. rewrite Ha. split; [f_equal; exact Hl|].
      constructor; assumption.
Qed.

(** The match of the hash pattern in [getCurrent]: the text after the first [#]. *)
Lemma hash_match href :
  Forall (fun c => not_terminator c = true) (chars href) ->
  match match_ href (literal "#(.*)$" EmptyString) with
  | Some res => res_get res 1
  | None => Some EmptyString
  end = Some (str (after_hash (chars href))).
Proof.
  intros Hnl. unfold match_, exec, exec_from.
  change (literal "#(.*)$" EmptyString) with
    {| source := "#(.*)$"; global := false; ignoreCase := false; multiline := false;
       tree := hash_tree; ncaptures := 1 |}.
  cbn [ignoreCase multiline tree ncaptures replicate].
  rewrite take_0, !drop_0. cbn [Nat.ltb Nat.leb last].
  destruct (hash_split (chars href)) as [Hall|(pre & Hl & Hpre)].
  - rewrite hash_scan_none by (try reflexivity; exact Hall).
    rewrite after_hash_none by exact Hall. reflexivity.
  - set (post := after_hash (chars href)) in *.
    assert (Hpost : Forall (fun c => not_terminator c = true) post).
    { rewrite Hl in Hnl. apply Forall_app in Hnl as [_ Hnl].
      inversion Hnl; assumption. }
    rewrite Hl.
    destruct (hash_scan_some post pre (MState 0 None (pre ++ "#" :: post) [None])
                eq_refl Hpre Hpost) as (y & -> & Hcaps & Hpos).
    unfold res_get. cbn [captures]. rewrite Hcaps. reflexivity.
Qed.

(** *** clearSlashes, twice *)

Lemma drop_slashes_id l : head l <> Some "/" -> drop_slashes l = l.
Proof.
  destruct l as [|a t]; [reflexivity|]. simpl. intros Hh.
  destruct (is_slash a) eqn:Ha; [|reflexivity].
  apply is_slash_true in Ha. subst a. contradiction.
Qed.

Lemma trim_head l :
  head l <> Some "/" -> head (rev (drop_slashes (rev l))) <> Some "/".
Proof.
  intros Hh. destruct (trailing_slashes l) as (n & Hl & _).
  destruct (rev (drop_slashes (rev l))) as [|a t]; [discriminate|].
  rewrite Hl in Hh. exact Hh.
Qed.

Lemma trim_last l : last (rev (drop_slashes (rev l))) <> Some "/".
Proof. destruct (trailing_slashes l) as (n & _ & Hl). exact Hl. Qed.

Lemma strip_one_side_head path : head (chars (strip_one_side path)) <> Some "/".
Proof.
  unfold strip_one_side. destruct (chars path) as [|a t] eqn:Hp; [discriminate|].
  destruct (is_slash a) eqn:Ha; rewrite chars_str.
  - apply drop_slashes_head.
  - apply trim_head. simpl. intros [= ->]. discriminate.
Qed.

Lemma strip_one_side_no_head path :
  head (chars path) <> Some "/" ->
  strip_one_side path = str (rev (drop_slashes (rev (chars path)))).
Proof.
  unfold strip_one_side. destruct (chars path) as [|a t] eqn:Hp; [reflexivity|].
  intros Hh. destruct (is_slash a) eqn:Ha; [|reflexivity].
  apply is_slash_true in Ha. subst a. contradiction.
Qed.

Lemma strip_one_side_fixed path :
  head (chars path) <> Some "/" -> last (chars path) <> Some "/" ->
  strip_one_side path = path.
Proof.
  intros Hh Hl. rewrite strip_one_side_no_head by exact Hh.
  rewrite drop_slashes_id, rev_involutive; [apply str_chars|].
  destruct (chars path) as [|a t] using rev_ind; [discriminate|].
  rewrite rev_app_distr. simpl. rewrite last_snoc in Hl. exact Hl.
Qed.

Lemma clearSlashes_twice path :
  let q := clearSlashes (clearSlashes path) in
  head (chars q) <> Some "/" /\ last (chars q) <> Some "/" /\ clearSlashes q = q.
Proof.
  intros q. subst q. rewrite !clearSlashes_strip.
  assert (Hh : head (chars (strip_one_side (strip_one_side path))) <> Some "/")
    by apply strip_one_side_head.
  assert (Hl : last (chars (strip_one_side (strip_one_side path))) <> Some "/").
  { rewrite (strip_one_side_no_head (strip_one_side path)) by apply strip_one_side_head.
    rewrite chars_str. apply trim_last. }
  split; [exact Hh|]. split; [exact Hl|]. apply strip_one_side_fixed; assumption.
Qed.

(** *** Strings and lists of characters *)

Lemma chars_app a b : chars (a +:+ b) = chars a ++ chars b.
Proof.
  induction a as [|c a IH]; [reflexivity|].
  change (c :: chars (a +:+ b) = c :: (chars a ++ chars b)). f_equal. exact IH.
Qed.

Lemma str_app l1 l2 : str (l1 ++ l2) = str l1 +:+ str l2.
Proof.
  induction l1 as [|c l1 IH]; [reflexivity|].
  change (String c (str (l1 ++ l2)) = String c (str l1 +:+ str l2)). f_equal. exact IH.
Qed.

Lemma _escapeString_app a b : _escapeString (a +:+ b) = _escapeString a +:+ _escapeString b.
Proof.
  rewrite !_escapeString_backslash, chars_app. unfold backslash_before.
  rewrite flat_map_app. apply str_app.
Qed.

Lemma slice_two s : slice (s +:+ "\/") 0 (-2) = s.
Proof.
  unfold slice. rewrite chars_app, length_app.
  change (length (chars "\/")) with 2. unfold rel_index. cbn [Z.ltb Z.compare].
  replace (Z.to_nat 0 `min` (length (chars s) + 2)) with 0 by lia.
  replace (Z.to_nat ((Z.of_nat (length (chars s) + 2) + -2) `max` 0))
    with (length (chars s)) by lia.
  rewrite drop_0, Nat.sub_0_r, take_app_length. apply str_chars.
Qed.

Lemma foldl_route tokens (t : Token) :
  foldl (fun route token => route +:+ _token_route token) EmptyString (tokens ++ [t]) =
  foldl (fun route token => route +:+ _token_route token) EmptyString tokens +:+ _token_route t.
Proof. rewrite foldl_app. reflexivity. Qed.

Lemma append_assoc (a b c : string) : (a +:+ b) +:+ c = a +:+ (b +:+ c).
Proof.
  induction a as [|x a IH]; [reflexivity|].
  change (String x ((a +:+ b) +:+ c) = String x (a +:+ (b +:+ c))). f_equal. exact IH.
Qed.

Lemma _endsWithSlash_slash tokens s :
  _endsWithSlash (tokens ++ [TString (s +:+ "/")]) = true.
Proof.
  unfold _endsWithSlash. rewrite last_snoc.
  assert (Hne : nonempty (s +:+ "/") = true) by (destruct s; reflexivity).
  rewrite Hne. apply bool_decide_eq_true_2.
  unfold charAt. rewrite chars_app, <- chars_length, chars_app, length_app.
  change (length (chars "/")) with 1.
  rewrite lookup_app_r by lia.
  replace (length (chars s) + 1 - 1 - length (chars s)) with 0 by lia.
  reflexivity.
Qed.

Lemma _endsWithSlash_plain tokens s :
  last (chars s) <> Some "/" -> _endsWithSlash (tokens ++ [TString s]) = false.
Proof.
  intros Hl. unfold _endsWithSlash. rewrite last_snoc.
  destruct (nonempty s) eqn:Hs; [|reflexivity]. apply bool_decide_eq_false_2.
  unfold charAt. rewrite <- chars_length, last_lookup in *.
  replace (length (chars s) - 1) with (pred (length (chars s))) by lia.
  destruct (chars s !! pred (length (chars s))) as [c|] eqn:Hc; [|discriminate].
  intros [= ->]. apply Hl. reflexivity.
Qed.

Lemma _route_source_trailing_slash tokens s options :
  truthy (strict options) = false ->
  last (chars s) <> Some "/" ->
  _route_source (tokens ++ [TString (s +:+ "/")]) options =
  _route_source (tokens ++ [TString s]) options.
Proof.
  intros Hstrict Hl. unfold _route_source.
  rewrite Hstrict, _endsWithSlash_slash, (_endsWithSlash_plain tokens s Hl).
  cbn [negb andb]. rewrite !foldl_route. cbn [_token_route].
  rewrite _escapeString_app.
  replace (_escapeString "/") with "\/"%string by (vm_compute; reflexivity).
  rewrite <- append_assoc, slice_two. reflexivity.
Qed.

(** *** parseQuery, pair by pair *)

(** Text without [%] decodes to itself. *)
Lemma decode_plain reserved l : forall fuel,
  length l <= fuel -> "%" ∉ l -> URI.decode fuel reserved l = Some l.
Proof.
  induction l as [|c l IH]; intros fuel Hf Hn.
  - destruct fuel; reflexivity.
  - destruct fuel as [|fuel]; [simpl in Hf; lia|].
    apply not_elem_of_cons in Hn as [Hc Hn].
    assert (Hrest : URI.decode fuel reserved l = Some l) by (apply IH; [simpl in Hf; lia|exact Hn]).
    cbn [URI.decode].
    destruct c as [[] [] [] [] [] [] [] []]; try (rewrite Hrest; reflexivity).
    contradiction Hc. reflexivity.
Qed.

Lemma decodeURIComponent_plain s :
  "%" ∉ chars s -> URI.decodeURIComponent s = Some s.
Proof.
  intros Hn. unfold URI.decodeURIComponent.
  rewrite decode_plain; [simpl; f_equal; apply str_chars| |exact Hn].
  rewrite chars_length. lia.
Qed.

Lemma split_chars_app sep l2 : forall l1 cur,
  split_chars sep cur (l1 ++ sep :: l2) = split_chars sep cur l1 ++ split_chars sep [] l2.
Proof.
  induction l1 as [|c l1 IH]; intros cur; cbn [Datatypes.app split_chars].
  - unfold eqc. rewrite Ascii.eqb_refl. reflexivity.
  - destruct (eqc c sep); [cbn [Datatypes.app]; f_equal|]; apply IH.
Qed.

Lemma split_app a b sep :
  split (a +:+ String sep b) sep = split a sep ++ split b sep.
Proof. unfold split. rewrite chars_app. apply split_chars_app. Qed.

Lemma _paramsArr_app q param :
  "&" ∉ chars param -> _paramsArr (q +:+ "&" +:+ param) = _paramsArr q ++ [param].
Proof.
  intros Hn. unfold _paramsArr.
  assert (Hsplit : forall a, split (a +:+ "&" +:+ param) "&" = split a "&" ++ [param]).
  { intros a. change ("&" +:+ param)%string with (String "&" param).
    rewrite split_app, (split_no_sep param) by exact Hn. reflexivity. }
  destruct q as [|c q].
  - rewrite bool_decide_eq_false_2 by discriminate.
    rewrite bool_decide_eq_false_2 by discriminate. apply Hsplit.
  - change (charAt (String c q +:+ "&" +:+ param) 0) with (charAt (String c q) 0).
    case_bool_decide; [|apply Hsplit].
    change (slice_from (String c q +:+ "&" +:+ param) 1) with (str (drop 0 (chars (q +:+ "&" +:+ param)))).
    change (slice_from (String c q) 1) with (str (drop 0 (chars q))).
    rewrite !drop_0, !str_chars. apply Hsplit.
Qed.

Lemma _parseQuery_loop_app l param : forall m,
  _parseQuery_loop m (l ++ [param]) =
  (m' ← _parseQuery_loop m l; _parseQuery_step m' param).
Proof.
  induction l as [|p l IH]; intros m; cbn [Datatypes.app _parseQuery_loop]; run_M.
  - destruct (_parseQuery_step m param); reflexivity.
  - destruct (_parseQuery_step m p) as [m'|e]; [|reflexivity]. apply IH.
Qed.

Lemma _parseQuery_step_pair m k v :
  "%" ∉ chars k -> "=" ∉ chars k -> "%" ∉ chars v -> "=" ∉ chars v ->
  _parseQuery_step m (k +:+ "=" +:+ v) = Return (set_property k v m).
Proof.
  intros Hk1 Hk2 Hv1 Hv2. unfold _parseQuery_step.
  change ("=" +:+ v)%string with (String "=" v).
  rewrite split_app, !split_no_sep by assumption.
  cbn [Datatypes.app lookup list_lookup toString_opt]. run_M.
  rewrite !decodeURIComponent_plain by assumption. reflexivity.
Qed.

Lemma set_property_insert k v o :
  k <> "__proto__"%string -> set_property k v o = <[k := v]> o.
Proof. intros Hk. unfold set_property. rewrite bool_decide_eq_false_2 by exact Hk. reflexivity. Qed.

(** X7.  The pairs are stored from left to right, a later one
    overwriting: when [q] parses to [m], [q&k=v] parses to [m] with [k]
    set to [v], whatever [m] held for [k]; [k] is any key but
    [__proto__], which the object does not store. *)
Theorem X7_parseQuery_later_pair_wins q m k v :
  "%" ∉ chars k -> "=" ∉ chars k -> "&" ∉ chars k ->
  "%" ∉ chars v -> "=" ∉ chars v -> "&" ∉ chars v ->
  k <> "__proto__"%string ->
  parseQuery q = Return m ->
  parseQuery (q +:+ "&" +:+ k +:+ "=" +:+ v) = Return (<[k := v]> m).
Proof.
  intros Hk1 Hk2 Hk3 Hv1 Hv2 Hv3 Hp Hq. unfold parseQuery in *.
  rewrite _paramsArr_app.
  - rewrite _parseQuery_loop_app. run_M. rewrite Hq.
    rewrite <- (set_property_insert k v m Hp). apply _parseQuery_step_pair; assumption.
  - rewrite chars_app. change (chars ("=" +:+ v)) with ("=" :: chars v).
    rewrite elem_of_app, elem_of_cons. intros [?|[?|?]]; [contradiction|discriminate|contradiction].
Qed.

(** X6.  A query of one pair, [?k=v] with [k] and [v] free of [%], [=]
    and [&] and [k] other than [__proto__], parses to the object with the
    one property [k], whose value is [v]. *)
Theorem X6_parseQuery_single_pair k v :
  "%" ∉ chars k -> "=" ∉ chars k -> "&" ∉ chars k ->
  "%" ∉ chars v -> "=" ∉ chars v -> "&" ∉ chars v ->
  k <> "__proto__"%string ->
  parseQuery ("?" +:+ k +:+ "=" +:+ v) = Return {[ k := v ]}.
Proof.
  intros Hk1 Hk2 Hk3 Hv1 Hv2 Hv3 Hp. unfold parseQuery, _paramsArr.
  change (charAt ("?" +:+ k +:+ "=" +:+ v) 0) with "?"%string.
  rewrite bool_decide_eq_true_2 by reflexivity.
  change (slice_from ("?" +:+ k +:+ "=" +:+ v) 1) with (str (drop 0 (chars (k +:+ "=" +:+ v)))).
  rewrite drop_0, str_chars, split_no_sep.
  - cbn [_parseQuery_loop]. run_M. rewrite _parseQuery_step_pair by assumption.
    rewrite (set_property_insert k v ∅ Hp). reflexivity.
  - rewrite chars_app. change (chars ("=" +:+ v)) with ("=" :: chars v).
    rewrite elem_of_app, elem_of_cons. intros [?|[?|?]]; [contradiction|discriminate|contradiction].
Qed.

(** *** The parameters of a request *)

Lemma _extractRequest_loop_sound keys args : forall i params0 params,
  _extractRequest_loop keys args i params0 = Return params ->
  forall k v, params !! k = Some v ->
    params0 !! k = Some v \/
    exists j key a, keys ≫= (.!! (i + j)) = Some key /\ name key = k /\
      args !! j = Some (Some a) /\ URI.decodeURIComponent a = Some v.
Proof.
  induction args as [|arg args IH]; intros i params0 params; cbn [_extractRequest_loop]; run_M.
  - intros [= <-] k v Hk. left. exact Hk.
  - destruct arg as [a|].
    + destruct (option_bind _ _ (lookup i) keys) as [key|] eqn:Hkey; [|discriminate].
      destruct (URI.decodeURIComponent a) as [v0|] eqn:Ha; [|discriminate].
      intros Hl k v Hk. destruct (IH _ _ _ Hl k v Hk) as [Hin|(j & key' & a' & H1 & H2 & H3 & H4)].
      * unfold set_property in Hin. case_bool_decide; [left; exact Hin|].
        destruct (decide (name key = k)) as [<-|Hne].
        -- rewrite lookup_insert in Hin. 
           right. exists 0, key, a. rewrite Nat.add_0_r.
           split; [exact Hkey|]. split; [reflexivity|]. split; [reflexivity|].
           revert Hin. case_decide; [|congruence]. intros [= <-]. exact Ha.
        -- rewrite lookup_insert_ne in Hin by exact Hne. left. exact Hin.
      * right. exists (S j), key', a'. rewrite Nat.add_succ_r. auto.
    + intros Hl k v Hk. destruct (IH _ _ _ Hl k v Hk) as [Hin|(j & key' & a' & H1 & H2 & H3 & H4)].
      * left. exact Hin.
      * right. exists (S j), key', a'. rewrite Nat.add_succ_r. auto.
Qed.

(** *** Where a pattern cannot match *)

Lemma later_refl x : later x x.
Proof. exists 0. rewrite drop_0. reflexivity. Qed.

Lemma later_trans x y z : later x y -> later y z -> later x z.
Proof. intros [n Hn] [k Hk]. exists (n + k). rewrite Hk, Hn, drop_drop. reflexivity. Qed.

Lemma one_char_later p x k z :
  one_char p x k = Some z -> exists x', k x' = Some z /\ later x x'.
Proof.
  unfold one_char. destruct (m_rest x) as [|a t] eqn:Hr; [discriminate|].
  destruct (p a); [|discriminate]. intros Hk. eexists. split; [exact Hk|].
  exists 1. rewrite Hr. reflexivity.
Qed.

Lemma match_literal_later ic s : forall x y, match_literal ic s x = Some y -> later x y.
Proof.
  induction s as [|c s IH]; intros x y; simpl.
  - intros [= <-]. apply later_refl.
  - destruct (m_rest x) as [|a t] eqn:Hr; [discriminate|].
    destruct (eqc _ _); [|discriminate]. intros Hm.
    eapply later_trans; [|apply IH; exact Hm]. exists 1. rewrite Hr. reflexivity.
Qed.

Lemma repeat_matcher_later body gs greedy k :
  (forall x k z, body x k = Some z -> exists x', k x' = Some z /\ later x x') ->
  forall fuel mn mx x z,
    repeat_matcher body gs greedy k fuel mn mx x = Some z ->
    exists x', k x' = Some z /\ later x x'.
Proof.
  intros Hbody. induction fuel as [|fuel IH]; intros mn mx x z; simpl; [discriminate|].
  assert (Hstop : k x = Some z -> exists x', k x' = Some z /\ later x x')
    by (intros Hk; exists x; split; [exact Hk|apply later_refl]).
  assert (Hiter :
    body (clear_caps gs x) (fun y0 =>
      if (mn =? 0)%nat && (m_pos y0 =? m_pos x)%nat then None
      else repeat_matcher body gs greedy k fuel (pred mn) (pred <$> mx) y0) = Some z ->
    exists x', k x' = Some z /\ later x x').
  { intros Hm. apply Hbody in Hm as (x1 & Hk1 & Hl1).
    destruct ((mn =? 0)%nat && (m_pos x1 =? m_pos x)%nat); [discriminate|].
    apply IH in Hk1 as (x' & Hk & Hl). exists x'. split; [exact Hk|].
    eapply later_trans; [|exact Hl]. exact Hl1. }
  destruct mx as [[|mx']|]; [exact Hstop| |];
    (destruct (0 <? mn)%nat; [exact Hiter|]);
    destruct greedy; unfold or_try; case_match; intros; simplify_eq; auto.
Qed.

Section Later.
Variables (ic ml : bool).

Lemma m_later r : forall x k z,
  m ic ml r x k = Some z -> exists x', k x' = Some z /\ later x x'.
Proof.
  induction r as [ |c| |neg items|r1 IH1 r2 IH2|r1 IH1 r2 IH2|r1 IH1 mn mx greedy
                  |n r1 IH1|neg r1 IH1| | |neg|n]; intros x k z; simpl.
  - intros Hk. exists x. split; [exact Hk|apply later_refl].
  - apply one_char_later.
  - apply one_char_later.
  - apply one_char_later.
  - intros Hm. apply IH1 in Hm as (x1 & Hm2 & Hl1).
    apply IH2 in Hm2 as (x2 & Hk & Hl2).
    exists x2. split; [exact Hk|eapply later_trans; eauto].
  - unfold or_try. destruct (m ic ml r1 x k) as [y1|] eqn:H1.
    + intros [= <-]. apply IH1 in H1. exact H1.
    + apply IH2.
  - apply repeat_matcher_later. exact IH1.
  - intros Hm. apply IH1 in Hm as (x1 & Hk & Hl).
    eexists. split; [exact Hk|]. exact Hl.
  - destruct (m ic ml r1 x Some) as [y1|]; destruct neg; try discriminate; intros Hk;
      eexists; (split; [exact Hk|]); exists 0; rewrite drop_0; reflexivity.
  - intros Hk. exists x. split; [|apply later_refl].
    destruct (m_prev x); [destruct (_ && _)|]; congruence.
  - intros Hk. exists x. split; [|apply later_refl].
    destruct (m_rest x); [|destruct (_ && _)]; congruence.
  - intros Hk. exists x. split; [|apply later_refl].
    destruct (xorb _ _); congruence.
  - intros Hk. destruct (m_caps x !! pred n) as [[s|]|] eqn:Hc.
    + destruct (match_literal ic s x) as [y1|] eqn:Hl; [|discriminate].
      exists y1. split; [exact Hk|]. eapply match_literal_later; eauto.
    + exists x. split; [exact Hk|apply later_refl].
    + exists x. split; [exact Hk|apply later_refl].
Qed.

Lemma blocked_same_place r x x' : same_place x x' -> blocked ic r x -> blocked ic r x'.
Proof. intros [_ Hr]. unfold blocked. rewrite Hr. auto. Qed.

Lemma same_place_refl x : same_place x x.
Proof. split; reflexivity. Qed.

Lemma one_char_blocked p x k :
  match m_rest x with a :: _ => p a = false | [] => True end ->
  one_char p x k = None.
Proof.
  unfold one_char. destruct (m_rest x) as [|a t]; [reflexivity|]. intros ->. reflexivity.
Qed.

(** Where [r] is blocked it matches the empty text or nothing: [m] fails
    when the continuation fails at the place of [x]. *)
Lemma m_blocked r : forall x k,
  blocked ic r x ->
  (may_be_empty r = true -> forall x', same_place x x' -> k x' = None) ->
  m ic ml r x k = None.
Proof.
  induction r as [ |c| |neg items|r1 IH1 r2 IH2|r1 IH1 r2 IH2|r1 IH1 mn mx greedy
                  |n r1 IH1|neg r1 IH1| | |neg|n]; intros x k Hb Hk; cbn [m].
  - apply Hk; [reflexivity|apply same_place_refl].
  - apply one_char_blocked. exact Hb.
  - apply one_char_blocked. exact Hb.
  - apply one_char_blocked. exact Hb.
  - assert (Hb1 : blocked ic r1 x).
    { unfold blocked in *. destruct (m_rest x); [exact I|]. cbn [first_char] in Hb.
      apply orb_false_iff in Hb as [Hb _]. exact Hb. }
    apply IH1; [exact Hb1|]. intros He1 x' Hx'.
    apply IH2.
    + unfold blocked in *. destruct Hx' as [_ ->]. destruct (m_rest x); [exact I|].
      cbn [first_char] in Hb. rewrite He1 in Hb.
      apply orb_false_iff in Hb as [_ Hb]. exact Hb.
    + intros He2 x'' Hx''. apply Hk; [cbn [may_be_empty]; rewrite He1, He2; reflexivity|].
      destruct Hx' as [Hp Hr], Hx'' as [Hp' Hr']. split; congruence.
  - assert (Hb12 : blocked ic r1 x /\ blocked ic r2 x).
    { unfold blocked in *. destruct (m_rest x); [auto|]. cbn [first_char] in Hb.
      apply orb_false_iff in Hb. exact Hb. }
    rewrite IH1, IH2; [reflexivity|tauto| |tauto|];
      intros He; apply Hk; cbn [may_be_empty]; rewrite He; auto using orb_true_r.
  - assert (Hrm : forall fuel mn' mx' x',
              same_place x x' ->
              ((mn' =? 0)%nat || bool_decide (mx' = Some 0) || may_be_empty r1 = true ->
               forall x'', same_place x x'' -> k x'' = None) ->
              repeat_matcher (m ic ml r1) (groups_of r1) greedy k fuel mn' mx' x' = None).
    { induction fuel as [|fuel IHf]; intros mn' mx' x' Hx' Hk'; [reflexivity|].
      cbn [repeat_matcher].
      assert (Hiter :
        m ic ml r1 (clear_caps (groups_of r1) x') (fun y =>
          if (mn' =? 0)%nat && (m_pos y =? m_pos x')%nat then None
          else repeat_matcher (m ic ml r1) (groups_of r1) greedy k fuel (pred mn')
                 (pred <$> mx') y) = None).
      { apply IH1.
        - apply (blocked_same_place r1 x); [|exact Hb].
          destruct Hx' as [Hp Hr]. split; assumption.
        - intros He y Hy.
          assert (Hxy : same_place x y).
          { destruct Hx' as [Hp Hr], Hy as [Hp' Hr']. cbn in Hp', Hr'. split; congruence. }
          destruct ((mn' =? 0)%nat && (m_pos y =? m_pos x')%nat); [reflexivity|].
          apply IHf; [exact Hxy|]. intros _. apply Hk'. rewrite He. apply orb_true_r. }
      assert (Hkx : (0 <? mn')%nat = false -> k x' = None).
      { intros Hmn. apply Hk'; [|exact Hx'].
        apply Nat.ltb_ge in Hmn. replace mn' with 0 by lia. reflexivity. }
      destruct mx' as [[|mx'']|].
      - apply Hk'; [|exact Hx']. rewrite bool_decide_eq_true_2 by reflexivity.
        rewrite orb_true_r. reflexivity.
      - destruct (0 <? mn')%nat eqn:Hmn; [exact Hiter|].
        rewrite Hiter, Hkx by reflexivity. destruct greedy; reflexivity.
      - destruct (0 <? mn')%nat eqn:Hmn; [exact Hiter|].
        rewrite Hiter, Hkx by reflexivity. destruct greedy; reflexivity. }
    apply Hrm; [apply same_place_refl|]. intros He. apply Hk. exact He.
  - apply IH1; [exact Hb|]. intros He x' Hx'. apply Hk; [exact He|].
    destruct Hx' as [Hp Hr]. split; assumption.
  - destruct (m ic ml r1 x Some) as [y1|]; destruct neg; try reflexivity;
      apply Hk; try reflexivity; split; reflexivity.
  - destruct (m_prev x); [destruct (_ && _)|]; try reflexivity;
      apply Hk; try reflexivity; apply same_place_refl.
  - destruct (m_rest x); [|destruct (_ && _)]; try reflexivity;
      apply Hk; try reflexivity; apply same_place_refl.
  - destruct (xorb _ _); [|reflexivity]. apply Hk; [reflexivity|apply same_place_refl].
  - destruct (m_caps x !! pred n) as [[s|]|] eqn:Hc;
      try (apply Hk; [reflexivity|apply same_place_refl]).
    unfold blocked in Hb. cbn [first_char] in Hb.
    destruct (m_rest x) as [|a t] eqn:Hr; [|discriminate].
    destruct s as [|c s]; cbn [match_literal]; [|rewrite Hr; reflexivity].
    apply Hk; [reflexivity|apply same_place_refl].
Qed.

End Later.

Lemma PATH_STRIPPER_tree :
  tree PATH_STRIPPER = RAlt stripper_escape (RSeq stripper_prefix stripper_key) /\
  ignoreCase PATH_STRIPPER = false /\ multiline PATH_STRIPPER = false.
Proof. vm_compute. auto. Qed.

Lemma plain_blocks a :
  plain a = true ->
  first_char false stripper_escape a = false /\ first_char false stripper_key a = false.
Proof.
  destruct a as [[] [] [] [] [] [] [] []]; vm_compute; intros Hp;
    first [discriminate Hp | split; reflexivity].
Qed.

Lemma plain_blocked x :
  Forall (fun c => plain c = true) (m_rest x) ->
  blocked false stripper_escape x /\ blocked false stripper_key x.
Proof.
  unfold blocked. destruct (m_rest x) as [|a t]; [auto|].
  intros Hall. inversion Hall; subst. apply plain_blocks. assumption.
Qed.

(** On plain text [PATH_STRIPPER] matches nowhere. *)
Lemma PATH_STRIPPER_plain_m x :
  Forall (fun c => plain c = true) (m_rest x) ->
  m false false (RAlt stripper_escape (RSeq stripper_prefix stripper_key)) x Some = None.
Proof.
  intros Hall. cbn [m].
  rewrite (m_blocked false false stripper_escape);
    [|apply plain_blocked; exact Hall|discriminate].
  cbn [or_try].
  destruct (m false false stripper_prefix x _) as [z|] eqn:Hm; [|reflexivity].
  apply m_later in Hm as (x' & Hk & [n Hn]).
  rewrite (m_blocked false false stripper_key) in Hk; [discriminate| |discriminate].
  apply plain_blocked. rewrite Hn. apply Forall_drop. exact Hall.
Qed.

Lemma PATH_STRIPPER_plain_scan : forall rest x,
  m_rest x = rest -> Forall (fun c => plain c = true) rest ->
  scan false false (RAlt stripper_escape (RSeq stripper_prefix stripper_key)) x rest = None.
Proof.
  induction rest as [|a t IH]; intros x Hr Hall; cbn [scan];
    rewrite PATH_STRIPPER_plain_m by (rewrite Hr; exact Hall); [reflexivity|].
  apply IH; [reflexivity|]. inversion Hall; assumption.
Qed.

Lemma PATH_STRIPPER_plain_exec path :
  Forall (fun c => plain c = true) (chars path) ->
  exec_from PATH_STRIPPER path 0 = None.
Proof.
  intros Hall. unfold exec_from.
  destruct PATH_STRIPPER_tree as (-> & -> & ->).
  rewrite take_0, !drop_0. cbn [Nat.ltb Nat.leb].
  rewrite PATH_STRIPPER_plain_scan; [reflexivity|reflexivity|exact Hall].
Qed.

Lemma _parse_plain path :
  Forall (fun c => plain c = true) (chars path) ->
  _parse path = if nonempty path then [TString path] else [].
Proof.
  intros Hall. unfold _parse. cbn [_parse_loop].
  rewrite PATH_STRIPPER_plain_exec by exact Hall.
  unfold _parse_end. destruct path as [|c path]; [reflexivity|].
  cbn [String.length Nat.ltb Nat.leb nonempty].
  unfold substr. rewrite drop_0. 
  change (EmptyString +:+ ?s)%string with s.
  rewrite str_chars. reflexivity.
Qed.

Lemma plain_slash l :
  Forall (fun c => plain c = true) l -> Forall (fun c => plain c = true) (l ++ ["/"]).
Proof. intros Hl. apply Forall_app. split; [exact Hl|]. repeat constructor. Qed.

(** A literal route compiles to the same pattern with a slash at its end
    and without it. *)
Lemma stringToPathExp_trailing_slash p options :
  Forall (fun c => plain c = true) (chars p) ->
  truthy (strict options) = false ->
  last (chars p) <> Some "/" ->
  stringToPathExp (p +:+ "/") options = stringToPathExp p options.
Proof.
  intros Hp Hs Hl. unfold stringToPathExp.
  rewrite !_parse_plain by (rewrite ?chars_app; try apply plain_slash; exact Hp).
  replace (nonempty (p +:+ "/")) with true by (destruct p; reflexivity).
  assert (Ht : _tokensToPathExp [TString (p +:+ "/")] options =
               _tokensToPathExp (if nonempty p then [TString p] else []) options).
  { unfold _tokensToPathExp. f_equal.
    pose proof (_route_source_trailing_slash [] p options Hs Hl) as Hr.
    cbn [Datatypes.app] in Hr. rewrite Hr. destruct p; reflexivity. }
  rewrite Ht. destruct (nonempty p); reflexivity.
Qed.

Lemma clearSlashes_leading p :
  head (chars p) <> Some "/" -> clearSlashes ("/" +:+ p) = p.
Proof.
  intros Hh. rewrite clearSlashes_strip. unfold strip_one_side.
  change (chars ("/" +:+ p)) with ("/" :: chars p).
  cbn [is_slash eqc Ascii.eqb Bool.eqb drop_slashes].
  rewrite drop_slashes_id by exact Hh. apply str_chars.
Qed.

Lemma clearSlashes_trailing p :
  head (chars p) <> Some "/" -> last (chars p) <> Some "/" ->
  clearSlashes (p +:+ "/") = p.
Proof.
  intros Hh Hl. destruct p as [|c p]; [vm_compute; reflexivity|].
  rewrite clearSlashes_strip, strip_one_side_no_head by exact Hh.
  rewrite chars_app. change (chars "/") with ["/"]. rewrite rev_app_distr.
  cbn [rev Datatypes.app drop_slashes is_slash eqc Ascii.eqb Bool.eqb].
  rewrite drop_slashes_id, rev_involutive; [apply str_chars|].
  destruct (chars (String c p)) as [|a t] using rev_ind; [discriminate|].
  rewrite rev_app_distr. cbn. rewrite last_snoc in Hl. exact Hl.
Qed.

(** Slashes around a literal route do not count: with one in front, one
    at the end, or both, the route that [use] compiles is the same. *)
Lemma literal_route_slashes p options :
  Forall (fun c => plain c = true) (chars p) ->
  truthy (strict options) = false ->
  head (chars p) <> Some "/" -> last (chars p) <> Some "/" ->
  clearSlashes ("/" +:+ p) = clearSlashes p /\
  clearSlashes (p +:+ "/") = clearSlashes p /\
  stringToPathExp (clearSlashes ("/" +:+ p +:+ "/")) options =
  stringToPathExp (clearSlashes p) options.
Proof.
  intros Hp Hs Hh Hl.
  assert (Hfix : clearSlashes p = p)
    by (rewrite clearSlashes_strip; apply strip_one_side_fixed; assumption).
  rewrite Hfix. split; [apply clearSlashes_leading; exact Hh|].
  split; [apply clearSlashes_trailing; assumption|].
  destruct p as [|c p].
  { replace (clearSlashes ("/" +:+ EmptyString +:+ "/")) with EmptyString
      by (vm_compute; reflexivity).
    reflexivity. }
  rewrite clearSlashes_leading.
  - apply stringToPathExp_trailing_slash; assumption.
  - exact Hh.
Qed.

(** *** The tokens of a route with a key *)

Lemma stripper_key_parts :
  stripper_key =
  RSeq (RAlt (RSeq (RAlt (RSeq (RSeq (RChar ":") REmpty)
                            (RSeq (RGroup 3 (RSeq key_word REmpty)) (RSeq key_custom REmpty)))
                         key_group)
                   (RSeq key_suffix REmpty))
             key_asterisk)
       REmpty /\
  stripper_prefix =
  RRepeat (RGroup 2 (RSeq (RClass false [CRange "/" "/"; CRange "." "."]) REmpty))
    0 (Some 1) true /\
  (exists r, key_custom = RRepeat r 0 (Some 1) true /\ forall a, first_char false r a = eqc a "(") /\
  (exists r, key_suffix = RRepeat r 0 (Some 1) true /\
     forall a, first_char false r a = existsb (eqc a) (chars "+*?")).
Proof.
  split; [vm_compute; reflexivity|]. split; [vm_compute; reflexivity|].
  split; eexists; (split; [vm_compute; reflexivity|]); intros a;
    destruct a as [[] [] [] [] [] [] [] []]; vm_compute; reflexivity.
Qed.

(** An optional part that cannot start at [x] is skipped. *)
Lemma m_optional_skipped ic ml r mx greedy x k :
  blocked ic r x ->
  m ic ml (RRepeat r 0 mx greedy) x k = k x.
Proof.
  intros Hb. cbn [m]. rewrite Nat.add_1_r. cbn [Nat.add repeat_matcher].
  destruct mx as [[|mx]|]; [reflexivity| |];
    (rewrite (m_blocked ic ml r);
     [cbn [Nat.ltb Nat.leb]; destruct greedy; unfold or_try; destruct (k x); reflexivity
     |apply (blocked_same_place ic r x); [split; reflexivity|exact Hb]
     |intros _ y [Hp _]; cbn [Nat.eqb andb]; cbn in Hp; rewrite Hp, Nat.eqb_refl; reflexivity]).
Qed.

Lemma repeat_matcher_optional body gs k n x :
  repeat_matcher body gs true k (S (S n)) 0 (Some 1) x =
  or_try (body (clear_caps gs x)
            (fun y => if (m_pos y =? m_pos x)%nat then None else k y))
         (k x).
Proof. reflexivity. Qed.

(** The optional prefix takes one character, [/] or [.], when it can and
    the rest matches after it. *)
Lemma stripper_prefix_m x k :
  m false false stripper_prefix x k =
  match m_rest x with
  | a :: t =>
      if is_prefix_char a
      then or_try (k (with_caps (advance x a t) (<[1 := Some [a]]> (<[1 := None]> (m_caps x)))))
                  (k x)
      else k x
  | [] => k x
  end.
Proof.
  destruct stripper_key_parts as (_ & -> & _).
  cbn [m groups_of Datatypes.app].
  destruct (m_rest x) as [|a t] eqn:Hr.
  - cbn [length Nat.add repeat_matcher m]. unfold one_char.
    cbn [clear_caps with_caps m_rest]. rewrite Hr. reflexivity.
  - replace (0 + length (a :: t) + 1) with (S (S (length t))) by (simpl; lia).
    rewrite repeat_matcher_optional. cbn [m]. unfold one_char.
    cbn [clear_caps with_caps m_rest foldr pred m_caps m_pos]. rewrite Hr.
    replace (xorb false (class_mem false [CRange "/" "/"; CRange "." "."] a))
      with (is_prefix_char a)
      by (destruct a as [[] [] [] [] [] [] [] []]; vm_compute; reflexivity).
    destruct (is_prefix_char a); [|reflexivity].
    unfold clear_caps, with_caps, advance.
    cbn [m_pos m_prev m_rest m_caps foldr pred].
    replace (S (m_pos x) =? m_pos x)%nat with false by (symmetry; apply Nat.eqb_neq; lia).
    replace (S (m_pos x) - m_pos x) with 1 by lia. reflexivity.
Qed.

Lemma run_length_app p l tail :
  Forall (fun c => p c = true) l -> starts_with (fun c => negb (p c)) tail ->
  run_length p (l ++ tail) = length l.
Proof.
  intros Hl Ht. induction Hl as [|c l Hc _ IH]; cbn [Datatypes.app run_length length].
  - destruct tail as [|c t]; [reflexivity|]. cbn in *. 
    destruct (p c); [discriminate|reflexivity].
  - rewrite Hc, IH. reflexivity.
Qed.

Lemma key_word_m x k z name tail :
  m_rest x = name ++ tail -> name <> [] ->
  Forall (fun c => is_word c = true) name ->
  starts_with (fun c => negb (is_word c)) tail ->
  k (advance_n x (length name)) = Some z ->
  m false false key_word x k = Some z.
Proof.
  intros Hr Hne Hw Ht Hk. unfold key_word. cbn [m groups_of].
  assert (Hbody : forall x k, m false false (RClass false [CWord false]) x k =
                              one_char is_word x k).
  { intros y k'. cbn [m]. unfold one_char. destruct (m_rest y) as [|a t]; [reflexivity|].
    replace (xorb false (class_mem false [CWord false] a)) with (is_word a);
      [reflexivity|].
    unfold class_mem. cbn. destruct (is_word a); reflexivity. }
  replace (1 + length (m_rest x) + 1) with (S (length (m_rest x) + 1)) by lia.
  rewrite (repeat_run_plus _ is_word Hbody), Hr.
  destruct name as [|c name]; [contradiction|]. cbn [Datatypes.app].
  inversion Hw as [|? ? Hc Hw']; subst. rewrite Hc.
  apply (repeat_run_success _ is_word Hbody).
  - cbn [m_rest advance length].
    pose proof (run_length_le is_word (name ++ tail)). lia.
  - cbn [m_rest advance]. rewrite (run_length_app is_word name tail Hw' Ht).
    cbn [length] in Hk. rewrite (advance_n_S x c (name ++ tail) _ Hr) in Hk. exact Hk.
Qed.

Lemma key_custom_skipped x k :
  starts_with (fun c => negb (eqc c "(")) (m_rest x) ->
  m false false key_custom x k = k x.
Proof.
  intros Hs. destruct stripper_key_parts as (_ & _ & (r & -> & Hf) & _).
  apply m_optional_skipped. unfold blocked, starts_with in *.
  destruct (m_rest x) as [|a t]; [exact I|]. rewrite Hf.
  destruct (eqc a "("); [discriminate|reflexivity].
Qed.

Lemma key_suffix_skipped x k :
  starts_with (fun c => negb (existsb (eqc c) (chars "+*?"))) (m_rest x) ->
  m false false key_suffix x k = k x.
Proof.
  intros Hs. destruct stripper_key_parts as (_ & _ & _ & (r & -> & Hf)).
  apply m_optional_skipped. unfold blocked, starts_with in *.
  destruct (m_rest x) as [|a t]; [exact I|]. rewrite Hf.
  destruct (existsb _ _); [discriminate|reflexivity].
Qed.

Lemma ends_key_parts tail :
  starts_with ends_key tail ->
  starts_with (fun c => negb (is_word c)) tail /\
  starts_with (fun c => negb (eqc c "(")) tail /\
  starts_with (fun c => negb (existsb (eqc c) (chars "+*?"))) tail.
Proof.
  destruct tail as [|c t]; [cbn; auto|]. unfold starts_with, ends_key.
  destruct c as [[] [] [] [] [] [] [] []]; vm_compute; intros Hc;
    first [discriminate Hc | auto].
Qed.

(** The key [:name] is matched where it stands, with its name as group 3. *)
Lemma stripper_key_m x name tail :
  m_rest x = ":" :: name ++ tail -> name <> [] ->
  Forall (fun c => is_word c = true) name ->
  starts_with ends_key tail ->
  m false false stripper_key x Some =
  Some (with_caps (advance_n x (S (length name))) (<[2 := Some name]> (m_caps x))).
Proof.
  intros Hr Hne Hw Ht. apply ends_key_parts in Ht as (Ht1 & Ht2 & Ht3).
  destruct stripper_key_parts as (-> & _).
  cbn [m]. unfold one_char at 1. rewrite Hr. cbn [canon eqc Ascii.eqb Bool.eqb].
  set (y := advance x ":" (name ++ tail)).
  erewrite (key_word_m y _ _ name tail); [reflexivity|reflexivity|exact Hne|exact Hw|exact Ht1|].
  replace (m_pos (advance_n y (length name)) - m_pos y) with (length name)
    by (rewrite advance_n_pos by (cbn; rewrite length_app; lia); lia).
  cbn [m_rest y advance]. rewrite take_app_length.
  rewrite key_custom_skipped
    by (cbn [m_rest with_caps]; rewrite advance_n_rest; cbn [m_rest y advance];
        rewrite drop_app_length; exact Ht2).
  rewrite key_suffix_skipped
    by (cbn [m_rest with_caps]; rewrite advance_n_rest; cbn [m_rest y advance];
        rewrite drop_app_length; exact Ht3).
  cbn [or_try]. rewrite advance_n_caps. cbn [m_caps y advance].
  rewrite (advance_n_S x ":" (name ++ tail) _ Hr). reflexivity.
Qed.

Lemma stripper_at_key x name tail :
  m_rest x = "/" :: ":" :: name ++ tail -> name <> [] ->
  Forall (fun c => is_word c = true) name ->
  starts_with ends_key tail ->
  exists z, m false false stripper x Some = Some z /\
    m_pos z = m_pos x + 2 + length name /\
    m_caps z = <[2 := Some name]> (<[1 := Some ["/"]]> (<[1 := None]> (m_caps x))).
Proof.
  intros Hr Hne Hw Ht. unfold stripper. cbn [m].
  rewrite (m_blocked false false stripper_escape);
    [|unfold blocked; rewrite Hr; reflexivity|discriminate].
  rewrite stripper_prefix_m, Hr. cbn [or_try is_prefix_char eqc Ascii.eqb Bool.eqb orb].
  rewrite (stripper_key_m _ name tail); [|reflexivity|exact Hne|exact Hw|exact Ht].
  cbn [or_try]. eexists. split; [reflexivity|]. split; [|reflexivity].
  cbn [m_pos with_caps].
  rewrite advance_n_pos by (cbn [m_rest with_caps advance length]; rewrite length_app; lia).
  cbn [m_pos with_caps advance]. lia.
Qed.

Lemma stripper_at_literal x c more :
  m_rest x = c :: more -> plain c = true -> starts_with plain more ->
  m false false stripper x Some = None.
Proof.
  intros Hr Hc Hm. unfold stripper. cbn [m].
  assert (Hkey : forall y, starts_with plain (m_rest y) -> m false false stripper_key y Some = None).
  { intros y Hy. apply m_blocked; [|discriminate].
    unfold blocked. unfold starts_with in Hy. destruct (m_rest y) as [|a t]; [exact I|].
    apply plain_blocks. exact Hy. }
  rewrite (m_blocked false false stripper_escape);
    [|unfold blocked; rewrite Hr; apply plain_blocks; exact Hc|discriminate].
  rewrite stripper_prefix_m, Hr. cbn [or_try].
  rewrite (Hkey x) by (rewrite Hr; exact Hc).
  destruct (is_prefix_char c); [|reflexivity].
  rewrite Hkey by exact Hm. reflexivity.
Qed.

Lemma stripper_scan_key name tail : forall text x,
  m_rest x = text ++ "/" :: ":" :: name ++ tail ->
  Forall (fun c => plain c = true) text -> name <> [] ->
  Forall (fun c => is_word c = true) name ->
  starts_with ends_key tail ->
  exists z, scan false false stripper x (text ++ "/" :: ":" :: name ++ tail) =
              Some (m_pos x + length text, z) /\
    m_pos z = m_pos x + length text + 2 + length name /\
    m_caps z = <[2 := Some name]> (<[1 := Some ["/"]]> (<[1 := None]> (m_caps x))).
Proof.
  induction text as [|c lit IH]; intros x Hr Hl Hne Hw Ht; cbn [Datatypes.app] in *.
  - destruct (stripper_at_key x name tail Hr Hne Hw Ht) as (z & Hm & Hp & Hc).
    exists z. cbn [scan]. rewrite Hm. cbn [length]. rewrite Nat.add_0_r. auto.
  - inversion Hl as [|? ? Hc Hl']; subst.
    cbn [scan]. rewrite (stripper_at_literal x c _ Hr Hc).
    + destruct (IH (advance x c (lit ++ "/" :: ":" :: name ++ tail)) eq_refl Hl' Hne Hw Ht)
        as (z & Hs & Hp & Hcaps).
      exists z. rewrite Hs. cbn [m_pos advance m_caps length] in *.
      split; [do 2 f_equal; lia|]. split; [lia|exact Hcaps].
    + destruct lit as [|c' lit]; [reflexivity|]. inversion Hl'; assumption.
Qed.

Lemma PATH_STRIPPER_exec_key lit name tail :
  Forall (fun c => plain c = true) lit -> name <> [] ->
  Forall (fun c => is_word c = true) name ->
  starts_with ends_key tail ->
  exec_from PATH_STRIPPER (str (lit ++ "/" :: ":" :: name ++ tail)) 0 =
  Some {| index := length lit; matched := str ("/" :: ":" :: name);
          captures := [None; Some "/"%string; Some (str name); None; None; None; None];
          end_index := length lit + 2 + length name |}.
Proof.
  intros Hl Hne Hw Ht. unfold exec_from.
  destruct PATH_STRIPPER_tree as (-> & -> & ->). fold stripper.
  replace (ncaptures PATH_STRIPPER) with 7 by (vm_compute; reflexivity).
  rewrite chars_str, take_0, !drop_0. cbn [Nat.ltb Nat.leb].
  destruct (stripper_scan_key name tail lit
              (MState 0 (last []) (lit ++ "/" :: ":" :: name ++ tail) (replicate 7 None))
              eq_refl Hl Hne Hw Ht) as (z & -> & Hp & Hc).
  cbn [m_pos m_caps Nat.add] in *. rewrite Hp, Hc. f_equal. f_equal.
  rewrite drop_app_length.
  replace (length lit + 2 + length name - length lit) with (S (S (length name))) by lia.
  cbn [take]. rewrite take_app_length. reflexivity.
Qed.

Lemma PATH_STRIPPER_exec_plain pre rest :
  Forall (fun c => plain c = true) rest ->
  exec_from PATH_STRIPPER (str (pre ++ rest)) (length pre) = None.
Proof.
  intros Hall. unfold exec_from.
  destruct PATH_STRIPPER_tree as (-> & -> & ->). fold stripper.
  rewrite chars_str, drop_app_length.
  replace (length (pre ++ rest) <? length pre)%nat with false
    by (symmetry; apply Nat.ltb_ge; rewrite length_app; lia).
  rewrite PATH_STRIPPER_plain_scan; [reflexivity|reflexivity|exact Hall].
Qed.

(** One turn of the loop of [_parse] on a match that is a named key with
    a prefix and nothing else. *)
Lemma _parse_loop_named fuel path lastIndex tokens key index pathIt res pfx nm :
  exec_from PATH_STRIPPER path lastIndex = Some res ->
  captures res = [None; Some pfx; Some nm; None; None; None; None] ->
  nonempty pfx = true -> nonempty nm = true ->
  _parse_loop (S fuel) path lastIndex tokens key index pathIt =
  _parse_loop fuel path (end_index res)
    ((if nonempty (pathIt +:+ slice path (Z.of_nat index) (Z.of_nat (RegExp.index res)))
      then tokens ++ [TString (pathIt +:+ slice path (Z.of_nat index)
                                            (Z.of_nat (RegExp.index res)))]
      else tokens) ++
     [TKey {| name := nm; prefix := pfx; delimiter := pfx; optional := false;
              repeat := false; pattern := _escapeGroup ("[^" +:+ pfx +:+ "]+?") |}])
    key (RegExp.index res + String.length (matched res)) EmptyString.
Proof.
  intros Hx Hc Hp Hn. cbn [_parse_loop]. rewrite Hx. unfold res_get. rewrite Hc.
  cbn [lookup list_lookup mjoin option_join default nonempty or_else bool_decide
       decide_rel orb]. 
  unfold id. rewrite Hp, Hn. reflexivity.
Qed.

Lemma slice_prefix a b :
  slice (str (a ++ b)) (Z.of_nat 0) (Z.of_nat (length a)) = str a.
Proof.
  unfold slice, rel_index. rewrite chars_str, length_app.
  replace (Z.of_nat 0 <? 0)%Z with false by reflexivity.
  replace (Z.of_nat (length a) <? 0)%Z with false by (symmetry; apply Z.ltb_ge; lia).
  rewrite !Nat2Z.id.
  replace (0 `min` (length a + length b)) with 0 by lia.
  replace (length a `min` (length a + length b)) with (length a) by lia.
  rewrite drop_0, Nat.sub_0_r, take_app_length. reflexivity.
Qed.

Lemma nonempty_str l : nonempty (str l) = negb (bool_decide (l = [])).
Proof. destruct l; reflexivity. Qed.

(** The tokens of a route that is a literal, the key [/:name], and a
    literal. *)
Lemma _parse_one_key text name tail :
  Forall (fun c => plain c = true) (chars text) ->
  nonempty name = true ->
  Forall (fun c => is_word c = true) (chars name) ->
  starts_with ends_key (chars tail) ->
  Forall (fun c => plain c = true) (chars tail) ->
  _parse (text +:+ "/:" +:+ name +:+ tail) =
  (if nonempty text then [TString text] else []) ++ [TKey (slash_key name)] ++
  (if nonempty tail then [TString tail] else []).
Proof.
  intros Hl Hne Hw He Ht.
  set (path := (text +:+ "/:" +:+ name +:+ tail)%string).
  assert (Hpath : path = str (chars text ++ "/" :: ":" :: chars name ++ chars tail)).
  { unfold path. rewrite <- (str_chars (text +:+ _)), !chars_app. reflexivity. }
  assert (Hname : chars name <> []) by (destruct name; [discriminate|discriminate]).
  assert (Hlen : String.length path =
                 length (chars text) + 2 + length (chars name) + length (chars tail)).
  { rewrite Hpath, <- chars_length, chars_str, length_app. cbn [length].
    rewrite length_app. lia. }
  rewrite <- (_parse_total path (S (S (String.length path)))) by lia.
  pose proof (PATH_STRIPPER_exec_key (chars text) (chars name) (chars tail) Hl Hname Hw He)
    as Hx.
  rewrite <- Hpath in Hx.
  rewrite (_parse_loop_named _ path 0 [] 0 0 EmptyString _ "/" name Hx);
    [|cbn [captures]; rewrite str_chars; reflexivity|reflexivity|exact Hne].
  cbn [RegExp.index end_index matched].
  replace (slice path (Z.of_nat 0) (Z.of_nat (length (chars text)))) with text
    by (rewrite Hpath, slice_prefix, str_chars; reflexivity).
  change (EmptyString +:+ text)%string with text.
  replace (_escapeGroup ("[^" +:+ "/" +:+ "]+?")) with "[^\/]+?"%string
    by (vm_compute; reflexivity).
  fold (slash_key name).
  cbn [_parse_loop].
  replace (exec_from PATH_STRIPPER path (length (chars text) + 2 + length (chars name)))
    with (@None MatchResult).
  2:{ symmetry. rewrite Hpath.
      replace (chars text ++ "/" :: ":" :: chars name ++ chars tail)
        with ((chars text ++ "/" :: ":" :: chars name) ++ chars tail)
        by (rewrite <- app_assoc; reflexivity).
      replace (length (chars text) + 2 + length (chars name))
        with (length (chars text ++ "/" :: ":" :: chars name))
        by (rewrite length_app; cbn [length]; lia).
      apply PATH_STRIPPER_exec_plain. exact Ht. }
  unfold _parse_end.
  replace (String.length (str ("/" :: ":" :: chars name))) with (2 + length (chars name))
    by (rewrite <- chars_length, chars_str; reflexivity).
  assert (Hsub : substr path (length (chars text) + (2 + length (chars name))) = tail).
  { unfold substr. rewrite Hpath, chars_str.
    replace (chars text ++ "/" :: ":" :: chars name ++ chars tail)
      with ((chars text ++ "/" :: ":" :: chars name) ++ chars tail)
      by (rewrite <- app_assoc; reflexivity).
    replace (length (chars text) + (2 + length (chars name)))
      with (length (chars text ++ "/" :: ":" :: chars name))
      by (rewrite length_app; cbn [length]; lia).
    rewrite drop_app_length. apply str_chars. }
  rewrite Hsub, Hlen. change (EmptyString +:+ tail)%string with tail.
  destruct tail as [|c tail].
  - cbn [chars list_ascii_of_string length].
    replace (length (chars text) + (2 + length (chars name)) <?
             length (chars text) + 2 + length (chars name) + 0)%nat with false
      by (symmetry; apply Nat.ltb_ge; lia).
    cbn [nonempty]. rewrite app_nil_r. destruct (nonempty text); reflexivity.
  - replace (length (chars text) + (2 + length (chars name)) <?
             length (chars text) + 2 + length (chars name) + length (chars (String c tail)))%nat
      with true by (symmetry; apply Nat.ltb_lt; cbn [chars list_ascii_of_string length]; lia).
    cbn [nonempty]. destruct (nonempty text); cbn [Datatypes.app]; rewrite <- ?app_assoc; reflexivity.
Qed.

Lemma new_RegExp_source src flags re : new_RegExp src flags = Some re -> source re = src.
Proof. unfold new_RegExp. intros Hn. break_match. reflexivity. Qed.

Lemma _route_source_one_key text name :
  _route_source ((if nonempty text then [TString text] else []) ++ [TKey (slash_key name)])
    no_options =
  ("^" +:+ _escapeString text +:+ "\/([^\/]+?)(?:\/(?=$))?$")%string.
Proof.
  unfold _route_source.
  replace (_endsWithSlash _) with false
    by (unfold _endsWithSlash; rewrite last_snoc; reflexivity).
  cbn [truthy strict no_options end_ negb bool_decide decide_rel andb].
  rewrite foldl_route. cbn [_token_route slash_key prefix pattern repeat optional].
  replace (_escapeString "/") with "\/"%string by (vm_compute; reflexivity).
  replace (foldl (fun route token => route +:+ _token_route token) EmptyString
             (if nonempty text then [TString text] else []))
    with (_escapeString text)
    by (destruct text; [vm_compute; reflexivity|reflexivity]).
  generalize (_escapeString text). intros e.
  rewrite bool_decide_eq_false_2 by discriminate. unfold truthy. cbn [negb andb default].
  rewrite !append_assoc. reflexivity.
Qed.

Lemma append_empty s : (s +:+ EmptyString)%string = s.
Proof.
  induction s as [|c s IH]; [reflexivity|].
  change (String c (s +:+ EmptyString) = String c s). f_equal. exact IH.
Qed.

(** X24.  The route made of a literal and the key [/:name] compiles to
    the pattern [^], the escaped literal, [\/([^\/]+?)] for the key, the
    optional last slash and [$], with the one key [name]. *)
Theorem X24_route_with_one_key_pattern text name pathExp :
  Forall (fun c => plain c = true) (chars text) ->
  nonempty name = true ->
  Forall (fun c => is_word c = true) (chars name) ->
  stringToPathExp (text +:+ "/:" +:+ name) no_options = Return pathExp ->
  keys pathExp = Some [slash_key name] /\
  source (regexp pathExp) =
    ("^" +:+ _escapeString text +:+ "\/([^\/]+?)(?:\/(?=$))?$")%string.
Proof.
  intros Hl Hne Hw. unfold stringToPathExp.
  pose proof (_parse_one_key text name EmptyString Hl Hne Hw I (List.Forall_nil _)) as Ht.
  rewrite append_empty in Ht.
  rewrite Ht. cbn [nonempty Datatypes.app].
  unfold _tokensToPathExp. rewrite _route_source_one_key. run_M.
  destruct (new_RegExp _ _) as [re|] eqn:Hre; [|discriminate].
  intros [= <-]. cbn [keys regexp]. split.
  - destruct (nonempty text); reflexivity.
  - eapply new_RegExp_source. exact Hre.
Qed.

(** *** Routes with one key: the pattern and what it matches *)

Lemma parse_key_pattern n g :
  parse_alternative (30 + n) (chars key_source) g = Some (key_pattern g, [], S g).
Proof. vm_compute. reflexivity. Qed.

Lemma special_chars c :
  string_special c = false ->
  c <> "|" /\ c <> ")" /\ forall t, parse_quant (c :: t) = QNone.
Proof.
  destruct c as [[] [] [] [] [] [] [] []]; vm_compute; intros Hc;
    first [discriminate Hc | repeat split; try discriminate; intros; reflexivity].
Qed.

Lemma parse_alternative_step c rest g f :
  c <> "|" -> c <> ")" ->
  parse_alternative (S f) (c :: rest) g =
  match parse_term f (c :: rest) g with
  | Some (r1, s1, g1) =>
      match parse_alternative f s1 g1 with
      | Some (r2, s2, g2) => Some (RSeq r1 r2, s2, g2)
      | None => None
      end
  | None => None
  end.
Proof.
  intros H1 H2.
  destruct c as [[] [] [] [] [] [] [] []]; first [reflexivity | congruence].
Qed.

Lemma parse_term_plain c rest g f :
  string_special c = false -> c <> "\" -> parse_quant rest = QNone ->
  parse_term (S f) (c :: rest) g = Some (RChar c, rest, g).
Proof.
  intros Hs Hb Hq.
  destruct c as [[] [] [] [] [] [] [] []];
    first [ discriminate Hs | congruence
          | cbn [parse_term]; unfold quantified; rewrite Hq; reflexivity ].
Qed.

Lemma parse_term_escaped c rest g f :
  string_special c = true -> parse_quant rest = QNone ->
  parse_term (S f) ("\" :: c :: rest) g = Some (RSeq (RChar c) REmpty, rest, g).
Proof.
  intros Hs Hq.
  destruct c as [[] [] [] [] [] [] [] []];
    first [ discriminate Hs
          | cbn [parse_term]; cbn; unfold quantified; rewrite Hq; reflexivity ].
Qed.

Lemma escaped_quiet text tail :
  parse_quant tail = QNone ->
  parse_quant (backslash_before string_special text ++ tail) = QNone.
Proof.
  intros Ht. destruct text as [|c text]; [exact Ht|].
  unfold backslash_before. cbn [flat_map].
  destruct (string_special c) eqn:Hc; [reflexivity|].
  cbn [Datatypes.app]. apply special_chars. exact Hc.
Qed.

(** The escaped text of a literal token parses to its atoms. *)
Lemma parse_escaped_text tail g f : forall text,
  Forall (fun c => c <> "\") text ->
  parse_quant tail = QNone ->
  parse_alternative (length text + S (S f))
    (backslash_before string_special text ++ tail) g =
  match parse_alternative (S (S f)) tail g with
  | Some (r, s', g') => Some (atoms text r, s', g')
  | None => None
  end.
Proof.
  induction text as [|c text IH]; intros Hb Hq.
  - cbn [length Nat.add backslash_before flat_map Datatypes.app atoms foldr].
    destruct (parse_alternative (S (S f)) tail g) as [[[r s'] g']|]; reflexivity.
  - inversion Hb as [|? ? Hc Hb']; subst.
    pose proof (escaped_quiet text tail Hq) as Hquiet.
    unfold backslash_before in *. cbn [flat_map length Nat.add].
    replace (length text + S (S f)) with (S (length text + S f)) in * by lia.
    destruct (string_special c) eqn:Hs.
    + cbn [Datatypes.app].
      rewrite parse_alternative_step by discriminate.
      rewrite (parse_term_escaped c _ g _ Hs Hquiet).
      rewrite (IH Hb' Hq).
      destruct (parse_alternative (S (S f)) tail g) as [[[r s'] g']|]; [|reflexivity].
      cbn [atoms foldr]. unfold atom at 1. rewrite Hs. reflexivity.
    + cbn [Datatypes.app].
      destruct (special_chars c Hs) as (H1 & H2 & _).
      rewrite parse_alternative_step by assumption.
      rewrite (parse_term_plain c _ g _ Hs Hc Hquiet).
      rewrite (IH Hb' Hq).
      destruct (parse_alternative (S (S f)) tail g) as [[[r s'] g']|]; [|reflexivity].
      cbn [atoms foldr]. unfold atom at 1. rewrite Hs. reflexivity.
Qed.

Lemma max_backref_atoms text r : max_backref (atoms text r) = max_backref r.
Proof.
  induction text as [|c text IH]; [reflexivity|]. cbn [atoms foldr max_backref].
  fold (atoms text r). rewrite IH. unfold atom. destruct (string_special c); reflexivity.
Qed.

Lemma backslash_before_length special l : length l <= length (backslash_before special l).
Proof.
  induction l as [|c l IH]; [reflexivity|]. unfold backslash_before in *. cbn [flat_map].
  rewrite length_app. destruct (special c); cbn [length]; lia.
Qed.

Lemma parse_disjunction_whole f s g r g' :
  parse_alternative f s g = Some (r, [], g') ->
  parse_disjunction (S f) s g = Some (r, [], g').
Proof. intros Ha. cbn [parse_disjunction]. rewrite Ha. reflexivity. Qed.

Lemma parse_term_bol n f rest g :
  parse_term (n + S f) ("^" :: rest) g = Some (RBol, rest, g).
Proof. rewrite Nat.add_succ_r. reflexivity. Qed.

(** The pattern of a literal and the key [/:name] is a regular expression. *)
Lemma new_RegExp_one_key text :
  Forall (fun c => c <> "\") (chars text) ->
  new_RegExp ("^" +:+ _escapeString text +:+ key_source) "i" =
  Some {| source := "^" +:+ _escapeString text +:+ key_source;
          global := false; ignoreCase := true; multiline := false;
          tree := RSeq RBol (atoms (chars text) (key_pattern 1)); ncaptures := 1 |}.
Proof.
  intros Hb. unfold new_RegExp.
  change (parse_flags (chars "i") false false false) with (Some (false, true, false)).
  rewrite _escapeString_backslash.
  change (chars ("^" +:+ ?s)) with ("^" :: chars s).
  rewrite chars_app, chars_str.
  set (E := backslash_before string_special (chars text)).
  cbn [length].
  pose proof (backslash_before_length string_special (chars text)) as Hlen. fold E in Hlen.
  assert (Hk : length (chars key_source) = 24) by reflexivity.
  remember (4 * S (length (E ++ chars key_source)) + 4) as fuel eqn:Hfuel.
  rewrite length_app, Hk in Hfuel.
  set (n := fuel - length (chars text) - 32).
  assert (Hf : fuel = S (S (length (chars text) + S (S (28 + n))))) by (unfold n; lia).
  rewrite Hf.
  rewrite (parse_disjunction_whole _ _ _ (RSeq RBol (atoms (chars text) (key_pattern 1))) 2).
  - cbn [max_backref]. rewrite max_backref_atoms. reflexivity.
  - rewrite parse_alternative_step by discriminate.
    rewrite parse_term_bol.
    rewrite (parse_escaped_text (chars key_source) 1 _ (chars text) Hb eq_refl).
    change (S (S (28 + n))) with (30 + n).
    rewrite parse_key_pattern. reflexivity.
Qed.

Lemma slash_canon c : eqc (canon true c) (canon true "/") = is_slash c.
Proof. destruct c as [[] [] [] [] [] [] [] []]; vm_compute; reflexivity. Qed.

Lemma class_not_slash c :
  xorb true (class_mem true [CRange "/" "/"] c) = negb (is_slash c).
Proof. destruct c as [[] [] [] [] [] [] [] []]; vm_compute; reflexivity. Qed.

Lemma atom_m c x k :
  m true false (atom c) x k = one_char (fun a => eqc (canon true a) (canon true c)) x k.
Proof. unfold atom. destruct (string_special c); reflexivity. Qed.

Lemma atoms_cons c text r : atoms (c :: text) r = RSeq (atom c) (atoms text r).
Proof. reflexivity. Qed.

(** The atoms of [text] take a text that is [text] up to case. *)
Lemma atoms_match r k : forall text seen x rest,
  same_letters seen text -> m_rest x = seen ++ rest ->
  m true false (atoms text r) x k = m true false r (advance_n x (length seen)) k.
Proof.
  induction text as [|c text IH]; intros seen x rest Hs Hr; inversion Hs as [|a ? seen' ? Ha Hs']; subst.
  - reflexivity.
  - rewrite atoms_cons. cbn [m]. rewrite atom_m. unfold one_char. rewrite Hr.
    cbn [Datatypes.app]. rewrite Ha. unfold eqc. rewrite Ascii.eqb_refl.
    rewrite (IH seen' (advance x a (seen' ++ rest)) rest Hs' eq_refl).
    cbn [length advance_n]. rewrite Hr. reflexivity.
Qed.

(** They take nothing else. *)
Lemma atoms_match_inv r k z : forall text x,
  m true false (atoms text r) x k = Some z ->
  exists seen rest,
    m_rest x = seen ++ rest /\ same_letters seen text /\
    m true false r (advance_n x (length seen)) k = Some z.
Proof.
  induction text as [|c text IH]; intros x Hm.
  - exists [], (m_rest x). repeat split; [constructor|exact Hm].
  - rewrite atoms_cons in Hm. cbn [m] in Hm. rewrite atom_m in Hm. unfold one_char in Hm.
    destruct (m_rest x) as [|a t] eqn:Hr; [discriminate|].
    destruct (eqc (canon true a) (canon true c)) eqn:Ha; [|discriminate].
    apply IH in Hm. destruct Hm as (seen & rest & Hr' & Hs & Hm).
    exists (a :: seen), rest. cbn [advance m_rest] in Hr'. subst t. repeat split.
    + constructor; [|exact Hs]. apply Ascii.eqb_eq. exact Ha.
    + cbn [length advance_n]. rewrite Hr. exact Hm.
Qed.

Section LazyRuns.
Variables (body : mstate -> (mstate -> option mstate) -> option mstate) (p : ascii -> bool).
Hypothesis Hbody : forall x k, body x k = one_char p x k.

Lemma repeat_lazy_star k fuel x :
  repeat_matcher body [] false k (S fuel) 0 None x =
  or_try (k x)
    match m_rest x with
    | a :: t => if p a then repeat_matcher body [] false k fuel 0 None (advance x a t) else None
    | [] => None
    end.
Proof.
  cbn -[Nat.eqb]. rewrite clear_caps_nil, Hbody. unfold one_char.
  destruct (m_rest x) as [|a t]; [reflexivity|]. destruct (p a); [|reflexivity].
  cbn -[Nat.eqb].
  replace (S (m_pos x) =? m_pos x)%nat with false by (symmetry; apply Nat.eqb_neq; lia).
  reflexivity.
Qed.

Lemma repeat_lazy_plus k fuel x :
  repeat_matcher body [] false k (S fuel) 1 None x =
  match m_rest x with
  | a :: t => if p a then repeat_matcher body [] false k fuel 0 None (advance x a t) else None
  | [] => None
  end.
Proof.
  simpl. rewrite clear_caps_nil, Hbody. unfold one_char.
  destruct (m_rest x) as [|a t]; [reflexivity|]. destruct (p a); reflexivity.
Qed.

(** A lazy repetition of a one-character matcher stops at the first point
    of the run where the continuation succeeds. *)
Lemma repeat_lazy_success k z : forall value fuel x tail,
  m_rest x = value ++ tail ->
  Forall (fun c => p c = true) value ->
  length value < fuel ->
  (forall j, j < length value -> k (advance_n x j) = None) ->
  k (advance_n x (length value)) = Some z ->
  repeat_matcher body [] false k fuel 0 None x = Some z.
Proof.
  induction value as [|a value IH]; intros fuel x tail Hr Hp Hf Hnone Hk;
    (destruct fuel as [|fuel]; [cbn [length] in Hf; lia|]); rewrite repeat_lazy_star.
  - cbn [length advance_n] in Hk. rewrite Hk. reflexivity.
  - assert (H0 : k x = None) by (apply (Hnone 0); cbn [length]; lia).
    rewrite H0. cbn [or_try]. rewrite Hr. cbn [Datatypes.app].
    inversion Hp as [|? ? Ha Hp']; subst. rewrite Ha.
    apply (IH fuel _ tail); [reflexivity|exact Hp'|cbn [length] in Hf; lia| |].
    + intros j Hj. rewrite <- (advance_n_S x a (value ++ tail) j Hr). apply Hnone.
      cbn [length]. lia.
    + rewrite <- (advance_n_S x a (value ++ tail) _ Hr). exact Hk.
Qed.

(** It succeeds in no other way. *)
Lemma repeat_lazy_inv k z : forall fuel x,
  repeat_matcher body [] false k fuel 0 None x = Some z ->
  exists value tail,
    m_rest x = value ++ tail /\ Forall (fun c => p c = true) value /\
    k (advance_n x (length value)) = Some z.
Proof.
  induction fuel as [|fuel IH]; intros x Hm; [discriminate|].
  rewrite repeat_lazy_star in Hm.
  destruct (k x) as [y|] eqn:Hk.
  - exists [], (m_rest x). cbn [or_try] in Hm. repeat split; [constructor|].
    cbn [length advance_n]. congruence.
  - cbn [or_try] in Hm. destruct (m_rest x) as [|a t] eqn:Hr; [discriminate|].
    destruct (p a) eqn:Ha; [|discriminate].
    apply IH in Hm. destruct Hm as (value & tail & Hr' & Hp & Hm).
    cbn [advance m_rest] in Hr'. subst t.
    exists (a :: value), tail. repeat split.
    + constructor; assumption.
    + cbn [length]. rewrite (advance_n_S x a _ _ Hr). exact Hm.
Qed.

End LazyRuns.

(** The end of the route: nothing is left, or one slash. *)
Lemma route_end_m x :
  m true false route_end x Some =
  match m_rest x with
  | [] => Some x
  | [c] => if is_slash c then Some (advance x c []) else None
  | _ => None
  end.
Proof.
  destruct x as [pos prev rest caps]. cbn [m_rest].
  destruct rest as [|c [|d more]].
  - reflexivity.
  - unfold route_end. cbn [m]. cbn [m_rest length Nat.add groups_of Datatypes.app].
    rewrite repeat_matcher_optional. cbn [m]. rewrite clear_caps_nil. unfold one_char at 1. cbn [m_rest].
    rewrite slash_canon. destruct (is_slash c); [|reflexivity].
    cbn -[Nat.eqb].
    replace (S pos =? pos)%nat with false by (symmetry; apply Nat.eqb_neq; lia).
    reflexivity.
  - unfold route_end. cbn [m]. cbn [m_rest length Nat.add groups_of Datatypes.app].
    rewrite repeat_matcher_optional. cbn [m]. rewrite clear_caps_nil. unfold one_char at 1. cbn [m_rest].
    rewrite slash_canon. destruct (is_slash c); reflexivity.
Qed.

Lemma route_end_none x c more :
  m_rest x = c :: more -> is_slash c = false -> m true false route_end x Some = None.
Proof.
  intros Hr Hc. rewrite route_end_m, Hr, Hc. destruct more; reflexivity.
Qed.

Lemma route_end_some x z :
  m true false route_end x Some = Some z -> last_slash (m_rest x).
Proof.
  rewrite route_end_m. destruct (m_rest x) as [|c [|d more]]; [left; reflexivity| |discriminate].
  destruct (is_slash c) eqn:Hc; [|discriminate]. intros _. right.
  apply is_slash_true in Hc. subst c. reflexivity.
Qed.

Lemma not_slash_m x k :
  m true false (RClass true [CRange "/" "/"]) x k = one_char (fun a => negb (is_slash a)) x k.
Proof.
  cbn [m]. unfold one_char. destruct (m_rest x) as [|a t]; [reflexivity|].
  rewrite class_not_slash. reflexivity.
Qed.

Lemma segment_not_slash value :
  Forall (fun c => is_slash c = false) value -> Forall (fun c => negb (is_slash c) = true) value.
Proof. apply List.Forall_impl. intros c Hc. rewrite Hc. reflexivity. Qed.

(** The segment is the shortest run without a slash after which the rest of
    the pattern matches. *)
Lemma segment_match x k z value tail :
  m_rest x = value ++ tail -> segment value ->
  (forall j, 0 < j < length value -> k (advance_n x j) = None) ->
  k (advance_n x (length value)) = Some z ->
  m true false segment_tree x k = Some z.
Proof.
  intros Hr [Hne Hv] Hnone Hk. unfold segment_tree. cbn [m].
  replace (1 + length (m_rest x) + 1) with (S (S (length (m_rest x)))) by lia.
  rewrite (repeat_lazy_plus _ _ not_slash_m). rewrite Hr in *.
  destruct value as [|a value]; [congruence|]. cbn [Datatypes.app] in *.
  apply segment_not_slash in Hv. inversion Hv as [|? ? Ha Hv']; subst. rewrite Ha.
  apply (repeat_lazy_success _ _ not_slash_m k z value _ _ tail);
    [reflexivity|exact Hv'|cbn [length]; rewrite length_app; lia| |].
  - intros j Hj. rewrite <- (advance_n_S x a (value ++ tail) j Hr). apply Hnone.
    cbn [length]. lia.
  - rewrite <- (advance_n_S x a (value ++ tail) _ Hr). exact Hk.
Qed.

Lemma segment_match_inv x k z :
  m true false segment_tree x k = Some z ->
  exists value tail,
    m_rest x = value ++ tail /\ segment value /\ k (advance_n x (length value)) = Some z.
Proof.
  unfold segment_tree. cbn [m].
  replace (1 + length (m_rest x) + 1) with (S (S (length (m_rest x)))) by lia.
  rewrite (repeat_lazy_plus _ _ not_slash_m).
  destruct (m_rest x) as [|a t] eqn:Hr; [discriminate|].
  destruct (negb (is_slash a)) eqn:Ha; [|discriminate].
  intros Hm. apply (repeat_lazy_inv _ _ not_slash_m) in Hm.
  destruct Hm as (value & tail & Hr' & Hv & Hk). cbn [advance m_rest] in Hr'. subst t.
  exists (a :: value), tail. repeat split.
  - discriminate.
  - constructor; [apply negb_true_iff; exact Ha|].
    revert Hv. apply List.Forall_impl. intros c. apply negb_true_iff.
  - cbn [length]. rewrite (advance_n_S x a _ _ Hr). exact Hk.
Qed.

Lemma with_caps_rest x caps : m_rest (with_caps x caps) = m_rest x.
Proof. reflexivity. Qed.

Lemma drop_segment value tail j :
  j < length value -> Forall (fun c => is_slash c = false) value ->
  exists c more, drop j (value ++ tail) = c :: more /\ is_slash c = false.
Proof.
  intros Hj Hv. rewrite drop_app_le by lia.
  destruct (drop j value) as [|c more] eqn:Hd.
  - apply (f_equal length) in Hd. rewrite length_drop in Hd. cbn [length] in Hd. lia.
  - exists c, (more ++ tail). split; [reflexivity|].
    assert (Hin : value !! j = Some c).
    { rewrite <- (Nat.add_0_r j), <- lookup_drop, Hd. reflexivity. }
    exact (Forall_lookup_1 _ _ _ _ Hv Hin).
Qed.

(** The key after a slash: the segment is captured, up to the end of the
    path or its last slash. *)
Lemma key_pattern_match x value tail :
  m_rest x = "/" :: value ++ tail -> segment value -> last_slash tail ->
  exists z,
    m true false (key_pattern 1) x Some = Some z /\
    m_pos z = m_pos x + length ("/" :: value ++ tail) /\
    m_caps z = <[0 := Some value]> (m_caps x).
Proof.
  intros Hr Hseg Htail. unfold key_pattern. cbn [m]. unfold one_char at 1. rewrite Hr.
  rewrite slash_canon. change (is_slash "/") with true. cbv iota.
  set (x2 := advance x "/" (value ++ tail)).
  set (K := fun y : mstate =>
              m true false route_end
                (with_caps y (<[pred 1 := Some (take (m_pos y - m_pos x2) (m_rest x2))]> (m_caps y)))
                Some).
  assert (Hx2 : m_rest x2 = value ++ tail) by reflexivity.
  assert (Hend : forall j, j <= length value ->
            K (advance_n x2 j) =
            m true false route_end
              (with_caps (advance_n x2 j) (<[0 := Some (take j value)]> (m_caps x))) Some).
  { intros j Hj. unfold K. rewrite advance_n_pos by (rewrite Hx2, length_app; lia).
    rewrite advance_n_caps. replace (m_pos x2 + j - m_pos x2) with j by lia.
    rewrite Hx2, take_app_le by lia. reflexivity. }
  assert (Hlast : exists z, K (advance_n x2 (length value)) = Some z /\
            m_pos z = m_pos x + length ("/" :: value ++ tail) /\
            m_caps z = <[0 := Some value]> (m_caps x)).
  { rewrite Hend by lia. rewrite firstn_all. rewrite route_end_m, with_caps_rest, advance_n_rest, Hx2.
    rewrite drop_app_length.
    assert (Hp : m_pos (advance_n x2 (length value)) = S (m_pos x) + length value).
    { rewrite advance_n_pos by (rewrite Hx2, length_app; lia). reflexivity. }
    destruct Htail as [-> | ->].
    - eexists. split; [reflexivity|]. cbn [with_caps m_pos m_caps]. rewrite Hp.
      cbn [length]. rewrite length_app. cbn [length]. split; [lia|reflexivity].
    - change (is_slash "/") with true. cbv iota.
      eexists. split; [reflexivity|]. cbn [advance with_caps m_pos m_caps]. rewrite Hp.
      cbn [length]. rewrite length_app. cbn [length]. split; [lia|reflexivity]. }
  destruct Hlast as (z & Hz & Hpos & Hcaps). exists z. split; [|split; assumption].
  change (m true false segment_tree x2 K = Some z).
  apply (segment_match x2 K z value tail Hx2 Hseg); [|exact Hz].
  intros j [_ Hj]. rewrite Hend by lia.
  destruct (drop_segment value tail j Hj (proj2 Hseg)) as (c & more & Hd & Hc).
  apply (route_end_none _ c more); [|exact Hc].
  rewrite with_caps_rest, advance_n_rest, Hx2. exact Hd.
Qed.

(** Nothing else matches it. *)
Lemma key_pattern_match_inv x z :
  m true false (key_pattern 1) x Some = Some z ->
  exists value tail, m_rest x = "/" :: value ++ tail /\ segment value /\ last_slash tail.
Proof.
  unfold key_pattern. cbn [m]. unfold one_char at 1.
  destruct (m_rest x) as [|a t] eqn:Hr; [discriminate|].
  rewrite slash_canon. destruct (is_slash a) eqn:Ha; [|discriminate].
  apply is_slash_true in Ha. subst a. intros Hm.
  apply segment_match_inv in Hm. destruct Hm as (value & tail & Hr' & Hseg & Hk).
  cbn [advance m_rest] in Hr'. subst t.
  apply route_end_some in Hk. rewrite with_caps_rest, advance_n_rest in Hk.
  cbn [advance m_rest] in Hk. rewrite drop_app_length in Hk.
  exists value, tail. repeat split; [apply Hseg|apply Hseg|exact Hk].
Qed.

Lemma one_key_m text subject value caps :
  one_key_path text subject value ->
  exists z,
    m true false (one_key_tree text) (MState 0 None subject caps) Some = Some z /\
    m_pos z = length subject /\ m_caps z = <[0 := Some value]> caps.
Proof.
  intros (seen & tail & -> & Hs & Hseg & Htail). unfold one_key_tree. cbn [m m_prev].
  rewrite (atoms_match _ _ text seen (MState 0 None (seen ++ "/" :: value ++ tail) caps)
             ("/" :: value ++ tail) Hs eq_refl).
  set (x := advance_n _ _).
  assert (Hr : m_rest x = "/" :: value ++ tail).
  { unfold x. rewrite advance_n_rest. cbn [m_rest]. rewrite drop_app_length. reflexivity. }
  destruct (key_pattern_match x value tail Hr Hseg Htail) as (z & Hz & Hpos & Hcaps).
  exists z. split; [exact Hz|]. rewrite Hpos, Hcaps. unfold x.
  rewrite advance_n_pos by (cbn [m_rest]; rewrite length_app; lia).
  rewrite advance_n_caps. cbn [m_pos m_caps]. rewrite length_app. split; [lia|reflexivity].
Qed.

Lemma one_key_m_inv text x z :
  m true false (one_key_tree text) x Some = Some z ->
  m_prev x = None /\ exists value, one_key_path text (m_rest x) value.
Proof.
  unfold one_key_tree. cbn [m]. destruct (m_prev x) as [c|]; [discriminate|].
  intros Hm. split; [reflexivity|].
  apply atoms_match_inv in Hm. destruct Hm as (seen & rest & Hr & Hs & Hm).
  apply key_pattern_match_inv in Hm. destruct Hm as (value & tail & Hr' & Hseg & Htail).
  rewrite advance_n_rest, Hr, drop_app_length in Hr'. subst rest.
  exists value, seen, tail. repeat split; [exact Hr|exact Hs|apply Hseg|apply Hseg|exact Htail].
Qed.

Lemma scan_here ic ml r x rest y :
  m ic ml r x Some = Some y -> scan ic ml r x rest = Some (m_pos x, y).
Proof. intros Hm. destruct rest; cbn [scan]; rewrite Hm; reflexivity. Qed.

(** The pattern matches nowhere but at the start of the path. *)
Lemma one_key_scan_later text : forall rest x,
  m_prev x <> None -> scan true false (one_key_tree text) x rest = None.
Proof.
  induction rest as [|a t IH]; intros x Hp; cbn [scan];
    (destruct (m true false (one_key_tree text) x Some) as [z|] eqn:Hm;
     [apply one_key_m_inv in Hm; destruct Hm as [Hm _]; congruence|]).
  - reflexivity.
  - apply IH. discriminate.
Qed.

Lemma one_key_scan_none text subject caps :
  (forall value, ~ one_key_path text subject value) ->
  scan true false (one_key_tree text) (MState 0 None subject caps) subject = None.
Proof.
  intros Hno.
  assert (Hm : m true false (one_key_tree text) (MState 0 None subject caps) Some = None).
  { destruct (m true false (one_key_tree text) _ Some) as [z|] eqn:Hm; [|reflexivity].
    apply one_key_m_inv in Hm. destruct Hm as (_ & value & Hv). destruct (Hno value Hv). }
  destruct subject as [|a t]; cbn [scan]; rewrite Hm; [reflexivity|].
  apply one_key_scan_later. discriminate.
Qed.

Section OneKeyExec.
Variables (re : RegExp) (text : list ascii).
Hypothesis Htree : tree re = one_key_tree text.
Hypothesis Hic : ignoreCase re = true.
Hypothesis Hml : multiline re = false.
Hypothesis Hn : ncaptures re = 1.

(** On a path of the route, the result is the whole path and the segment. *)
Lemma one_key_exec subject value :
  one_key_path text (chars subject) value ->
  exec re subject =
  Some {| index := 0; matched := subject; captures := [Some (str value)];
          end_index := length (chars subject) |}.
Proof.
  intros Hpath. unfold exec, exec_from. rewrite Htree, Hic, Hml, Hn.
  cbn [Nat.ltb Nat.leb]. rewrite take_0, drop_0. cbn [last replicate].
  destruct (one_key_m text (chars subject) value [None] Hpath) as (z & Hz & Hpos & Hcaps).
  rewrite (scan_here _ _ _ _ _ z Hz). cbn [m_pos]. rewrite Hpos, Hcaps.
  rewrite Nat.sub_0_r, drop_0, firstn_all, str_chars. reflexivity.
Qed.

(** On any other path there is no result. *)
Lemma one_key_exec_none subject :
  (forall value, ~ one_key_path text (chars subject) value) -> exec re subject = None.
Proof.
  intros Hno. unfold exec, exec_from. rewrite Htree, Hic, Hml, Hn.
  cbn [Nat.ltb Nat.leb]. rewrite take_0, drop_0. cbn [last replicate].
  rewrite (one_key_scan_none text (chars subject) [None] Hno). reflexivity.
Qed.

Lemma one_key_test subject :
  test re subject = true <-> exists value, one_key_path text (chars subject) value.
Proof.
  unfold test. rewrite bool_decide_eq_true. split.
  - intros [res Hres].
    destruct (exec re subject) as [res'|] eqn:He; [|discriminate]. clear Hres res.
    unfold exec, exec_from in He. rewrite Htree, Hic, Hml, Hn in He.
    cbn [Nat.ltb Nat.leb] in He. rewrite take_0, drop_0 in He. cbn [last replicate] in He.
    destruct (scan _ _ _ _ _) as [[i y]|] eqn:Hs; [|discriminate].
    destruct (m true false (one_key_tree text) (MState 0 None (chars subject) [None]) Some)
      as [z|] eqn:Hm.
    + apply one_key_m_inv in Hm. exact (proj2 Hm).
    + destruct (chars subject) as [|a t]; cbn [scan] in Hs; rewrite Hm in Hs; [discriminate|].
      rewrite one_key_scan_later in Hs by discriminate. discriminate.
  - intros [value Hv]. rewrite (one_key_exec subject value Hv). eexists. reflexivity.
Qed.

End OneKeyExec.

Lemma plain_not_backslash l :
  Forall (fun c => plain c = true) l -> Forall (fun c => c <> "\") l.
Proof. apply List.Forall_impl. intros c Hc ->. discriminate Hc. Qed.

Lemma stringToPathExp_one_key text name :
  Forall (fun c => plain c = true) (chars text) ->
  nonempty name = true ->
  Forall (fun c => is_word c = true) (chars name) ->
  stringToPathExp (text +:+ "/:" +:+ name) no_options = Return (one_key_route text name).
Proof.
  intros Hl Hne Hw. unfold stringToPathExp.
  pose proof (_parse_one_key text name EmptyString Hl Hne Hw I (List.Forall_nil _)) as Ht.
  rewrite append_empty in Ht.
  rewrite Ht. cbn [nonempty Datatypes.app].
  unfold _tokensToPathExp. rewrite _route_source_one_key.
  change (_flags no_options) with "i"%string.
  fold key_source. rewrite (new_RegExp_one_key text (plain_not_backslash _ Hl)).
  run_M. unfold one_key_route. f_equal. f_equal.
  destruct (nonempty text); reflexivity.
Qed.

(** A route that starts with no slash and ends with a key is left as it
    is by [clearSlashes]. *)
Lemma clearSlashes_one_key text name :
  nonempty text = true -> starts_with (fun c => negb (is_slash c)) (chars text) ->
  nonempty name = true ->
  Forall (fun c => is_word c = true) (chars name) ->
  clearSlashes (text +:+ "/:" +:+ name) = (text +:+ "/:" +:+ name)%string.
Proof.
  intros Ht Hs Hn Hw. rewrite clearSlashes_strip. unfold strip_one_side.
  rewrite !chars_app.
  destruct text as [|c text]; [discriminate|].
  change (chars (String c text)) with (c :: chars text) in *. cbn [starts_with] in Hs.
  cbn [Datatypes.app]. apply negb_true_iff in Hs. rewrite Hs.
  set (l := c :: chars text ++ chars "/:" ++ chars name).
  assert (Hl : exists pre d, l = pre ++ [d] /\ is_slash d = false).
  { destruct name as [|n name]; [discriminate|].
    change (chars (String n name)) with (n :: chars name) in *.
    destruct (exists_last (l := n :: chars name) ltac:(discriminate)) as (pre & d & Hd).
    exists (c :: chars text ++ chars "/:" ++ pre), d. split.
    - unfold l. rewrite Hd. cbn [Datatypes.app]. rewrite <- !app_assoc. reflexivity.
    - rewrite Hd in Hw. apply Forall_app in Hw. destruct Hw as [_ Hw].
      inversion Hw as [|? ? Hd' _]; subst.
      destruct d as [[] [] [] [] [] [] [] []]; first [reflexivity | discriminate Hd']. }
  destruct Hl as (pre & d & Hl & Hd). rewrite Hl, rev_app_distr.
  cbn [rev Datatypes.app drop_slashes]. rewrite Hd.
  change (d :: rev pre) with (rev [d] ++ rev pre). rewrite <- rev_app_distr, rev_involutive.
  rewrite <- Hl. unfold l.
  change (c :: chars text ++ chars "/:" ++ chars name)
    with (chars (String c text) ++ chars "/:" ++ chars name).
  rewrite <- !chars_app. apply str_chars.
Qed.

Lemma one_key_route_exec text name subject value :
  one_key_path (chars text) (chars subject) value ->
  exec (regexp (one_key_route text name)) subject =
  Some {| index := 0; matched := subject; captures := [Some (str value)];
          end_index := length (chars subject) |}.
Proof. apply one_key_exec; reflexivity. Qed.

Lemma one_key_route_test text name subject :
  test (regexp (one_key_route text name)) subject = true <->
  exists value, one_key_path (chars text) (chars subject) value.
Proof. apply one_key_test; reflexivity. Qed.

(** *** Further properties of [RouteHelper] *)

(** X1.  [clearSlashes] strips one side only: its pattern has no [g]
    flag, so the first match is the only one replaced.  A path that
    starts with a slash loses the slashes at its head and keeps those at
    its end; any other path loses the slashes at its end. *)
Theorem X1_clearSlashes_strips_one_side path :
  clearSlashes path = strip_one_side path.
Proof. apply clearSlashes_strip. Qed.

(** X2.  [_escapeString] puts a backslash before each character of its
    class and leaves every other character, the backslash among them, as
    it is. *)
Theorem X2_escapeString_backslashes s :
  _escapeString s = str (backslash_before string_special (chars s)).
Proof. apply _escapeString_backslash. Qed.

(** X3.  [_escapeGroup] puts a backslash before each of [= ! : $ / ( )]
    and leaves every other character as it is. *)
Theorem X3_escapeGroup_backslashes s :
  _escapeGroup s = str (backslash_before group_special (chars s)).
Proof.
  unfold _escapeGroup.
  apply (class_replace (map (fun c => CRange c c) (chars "=!:$/()"))).
  - vm_compute. repeat split; reflexivity.
  - intros c. destruct c as [[] [] [] [] [] [] [] []]; vm_compute; reflexivity.
Qed.

(** X4.  Without [strict], a slash that ends the last literal token is
    dropped: the tokens compile to the same pattern with it and without
    it. *)
Theorem X4_trailing_slash_is_dropped tokens s options :
  truthy (strict options) = false ->
  last (chars s) <> Some "/" ->
  _tokensToPathExp (tokens ++ [TString (s +:+ "/")]) options =
  _tokensToPathExp (tokens ++ [TString s]) options.
Proof.
  intros Hstrict Hl. unfold _tokensToPathExp.
  rewrite _route_source_trailing_slash by assumption. reflexivity.
Qed.

(** X5.  The loop of [_parse] comes to an end: a match of
    [PATH_STRIPPER] starts at or after [lastIndex] and takes at least one
    character, so the tokens are found within one call of [exec] more
    than the path has characters. *)
Theorem X5_parse_loop_terminates path :
  (forall lastIndex res,
     exec_from PATH_STRIPPER path lastIndex = Some res ->
     lastIndex <= index res /\ index res < end_index res /\
     end_index res <= String.length path) /\
  (forall fuel,
     String.length path < fuel ->
     _parse_loop fuel path 0 [] 0 0 EmptyString = _parse path).
Proof.
  split.
  - intros lastIndex res Hx.
    apply exec_from_bounds in Hx as (H1 & _ & H3 & H4).
    specialize (H4 PATH_STRIPPER_consumes). auto.
  - intros fuel Hf. apply _parse_total. exact Hf.
Qed.

(** X8.  The parameters of a request come from the captures alone: each
    one is stored under the name of the key of a group that took part in
    the match, and its value is the percent-decoded capture of that
    group.  A group that did not take part adds nothing. *)
Theorem X8_params_are_decoded_captures keys args params k v :
  _extractRequest_loop keys args 0 ∅ = Return params ->
  params !! k = Some v ->
  exists j key a,
    keys ≫= (.!! j) = Some key /\ name key = k /\
    args !! j = Some (Some a) /\ URI.decodeURIComponent a = Some v.
Proof.
  intros Hl Hk.
  destruct (_extractRequest_loop_sound keys args 0 ∅ params Hl k v Hk) as [He|Hx].
  - rewrite lookup_empty in He. discriminate.
  - exact Hx.
Qed.

(** X21.  A route that holds none of the characters [\], [:], [(] and
    [*] is one literal token: [_parse] finds no key in it, and the path
    expression made of it has no keys. *)
Theorem X21_literal_route_is_one_token path :
  Forall (fun c => plain c = true) (chars path) ->
  _parse path = (if nonempty path then [TString path] else []) /\
  (forall options pathExp,
     stringToPathExp path options = Return pathExp -> keys pathExp = Some []).
Proof.
  intros Hp. pose proof (_parse_plain path Hp) as Ht. split; [exact Ht|].
  intros options pathExp. unfold stringToPathExp. rewrite Ht. run_M.
  destruct (_tokensToPathExp _ options) as [re|e]; [|discriminate].
  intros [= <-]. destruct (nonempty path); reflexivity.
Qed.

(** X23.  A route made of a literal, the key [/:name] and a literal has
    these three tokens: the key takes the slash before it as its prefix
    and delimiter, gets the default pattern [[^\/]+?], and is neither
    optional nor repeated.  The literals hold none of [\ : ( *], the name
    is made of word characters, and what follows the name does not start
    with a word character nor with one of [( + * ?]. *)
Theorem X23_route_with_one_key_tokens text name tail :
  Forall (fun c => plain c = true) (chars text) ->
  nonempty name = true ->
  Forall (fun c => is_word c = true) (chars name) ->
  starts_with ends_key (chars tail) ->
  Forall (fun c => plain c = true) (chars tail) ->
  _parse (text +:+ "/:" +:+ name +:+ tail) =
  (if nonempty text then [TString text] else []) ++ [TKey (slash_key name)] ++
  (if nonempty tail then [TString tail] else []).
Proof. apply _parse_one_key. Qed.

(** X25.  The route made of a literal without the characters [\ : ( *]
    and the key [/:name] always compiles: [stringToPathExp] throws no
    [SyntaxError], and returns the pattern that ignores case, has one
    capturing group and whose tree is the start of the text, the
    characters of the literal one by one, and the key; its one key is
    [name]. *)
Theorem X25_route_with_one_key_compiles text name :
  Forall (fun c => plain c = true) (chars text) ->
  nonempty name = true ->
  Forall (fun c => is_word c = true) (chars name) ->
  stringToPathExp (text +:+ "/:" +:+ name) no_options = Return (one_key_route text name).
Proof. apply stringToPathExp_one_key. Qed.

(** X26.  The pattern of the route literal [/:name] matches exactly the
    paths made of the literal, in any case of its letters, a slash, a
    segment that is not empty and holds no slash, and at most one slash
    after it. *)
Theorem X26_route_with_one_key_matches text name pathExp subject :
  Forall (fun c => plain c = true) (chars text) ->
  nonempty name = true ->
  Forall (fun c => is_word c = true) (chars name) ->
  stringToPathExp (text +:+ "/:" +:+ name) no_options = Return pathExp ->
  test (regexp pathExp) subject = true <->
  exists value, one_key_path (chars text) (chars subject) value.
Proof.
  intros Hl Hne Hw Hs. rewrite (stringToPathExp_one_key text name Hl Hne Hw) in Hs.
  injection Hs as <-. apply one_key_route_test.
Qed.

End StringFacts.

Section RouterFacts.
Context `{Browser} {App : Type}.
Implicit Types (st : State (App := App)) (rps : list (RequestProcessor (App := App))).
Implicit Types (handlers pre post : list (Handler (App := App))).
Implicit Types (h : Handler (App := App)) (f : Arg (App := App)).

Lemma _obtainRequestProcessors_loop_filter path parsed handlers : forall rps,
  _obtainRequestProcessors_loop path parsed handlers = Return rps ->
  map p_activate rps = map activate (matching parsed handlers).
Proof.
  induction handlers as [|h rest IH]; intros rps; cbn [_obtainRequestProcessors_loop]; run_M.
  - intros [= <-]. reflexivity.
  - unfold matching in *. rewrite filter_cons.
    destruct (decide (test (regexp (pathExp h)) (path_of parsed) = true)) as [Hm|Hm].
    + rewrite Hm.
      destruct (_extractRequest path _) as [rq|e]; [|discriminate].
      destruct (_obtainRequestProcessors_loop path parsed rest) as [rps'|e] eqn:Hr; [|discriminate].
      intros [= <-]. cbn [map p_activate]. f_equal. apply IH. reflexivity.
    + apply not_true_is_false in Hm. rewrite Hm. apply IH.
Qed.

Lemma _obtainRequestProcessors_loop_app path parsed post : forall pre,
  _obtainRequestProcessors_loop path parsed (pre ++ post) =
  (a ← _obtainRequestProcessors_loop path parsed pre;
   b ← _obtainRequestProcessors_loop path parsed post;
   mret (a ++ b)).
Proof.
  induction pre as [|h pre IH]; cbn [Datatypes.app _obtainRequestProcessors_loop]; run_M.
  - destruct (_obtainRequestProcessors_loop path parsed post); reflexivity.
  - destruct (test _ _); [|exact IH].
    destruct (_extractRequest path _) as [rq|e]; [|reflexivity].
    rewrite IH. run_M.
    destruct (_obtainRequestProcessors_loop path parsed pre) as [a|e]; [|reflexivity].
    destruct (_obtainRequestProcessors_loop path parsed post) as [b|e]; reflexivity.
Qed.

Lemma _extractRequest_DEF_ROUTE path parsed :
  parsePath path = Return parsed ->
  _extractRequest path (Some DEF_ROUTE) =
  Return (plain_request parsed).
Proof.
  intros Hp. unfold _extractRequest. run_M. rewrite Hp.
  cbn [mbind option_bind r_path].
  destruct (DEF_ROUTE_exec (path_of parsed)) as (res & -> & Hc).
  rewrite Hc. reflexivity.
Qed.

Lemma use_function fn act st :
  use (UValue (AFunction fn)) (UValue act) st =
  (Return tt,
   {| window := window st; _options := _options st; _loadedPath := _loadedPath st;
      _handlers := _handlers st ++ [{| pathExp := DEF_ROUTE; activate := AFunction fn |}];
      app := app st; invoked := invoked st |}).
Proof. reflexivity. Qed.

(** X13.  A callback registered with no path is registered under
    [DEF_ROUTE], which matches every path: on every fragment that parses
    it is the last request processor, with no parameters. *)
Theorem X13_callback_without_path_matches_all fn act st path rps st1 :
  _obtainRequestProcessors path st = (Return rps, st1) ->
  exists parsed, parsePath path = Return parsed /\
    let st' := (use (UValue (AFunction fn)) (UValue act) st).2 in
    _obtainRequestProcessors path st' =
    (Return (rps ++ [{| request := plain_request parsed; p_activate := AFunction fn |}]),
     st').
Proof.
  rewrite use_function. unfold _obtainRequestProcessors. run_M. cbn [_handlers snd].
  destruct (parsePath path) as [parsed|e] eqn:Hp; [|discriminate].
  destruct (_obtainRequestProcessors_loop path parsed (_handlers st)) as [a|e] eqn:Ha;
    [|discriminate].
  intros [= <- _]. exists parsed. split; [reflexivity|].
  rewrite _obtainRequestProcessors_loop_app. run_M. rewrite Ha.
  cbn [_obtainRequestProcessors_loop pathExp activate]. run_M.
  destruct (DEF_ROUTE_exec (path_of parsed)) as (res & Hx & _).
  rewrite (test_exec _ _ _ Hx), (_extractRequest_DEF_ROUTE path parsed Hp). reflexivity.
Qed.

(** X14.  When the callbacks of the table leave the router alone (none
    calls [use], [navigate], [listen] or [stop] or writes the location),
    every callback that [_load] calls receives as [oldPath] the path that
    was loaded when [_load] started, also when [_load] ends with an
    exception. *)
Theorem X14_callbacks_receive_previous_path path st r st' :
  quiet_table st ->
  _load path st = (r, st') ->
  exists calls, invoked st' = invoked st ++ calls /\
    Forall (fun rp => r_oldPath (request rp) = _loadedPath st) calls.
Proof.
  intros Hq. unfold _load. run_M.
  destruct (_obtainRequestProcessors path st) as [[rps|e] st1] eqn:Ho;
    pose proof (_obtainRequestProcessors_state _ _ _ _ Ho) as ->.
  - pose proof (_obtainRequestProcessors_activate quiet_callback _ _ _ _ Ho Hq) as Hrps.
    destruct (_load_loop rps 0 st) as [r2 st2] eqn:Hl.
    apply _load_loop_invoked in Hl as [k Hk]; [|exact Hrps].
    assert (Hall : Forall (fun rp => r_oldPath (request rp) = _loadedPath st)
                     (map (stamp st) (take k rps)))
      by (apply Forall_map, Forall_forall; intros; reflexivity).
    destruct r2 as [n|e]; intros [= _ <-]; eauto.
  - intros [= _ <-]. exists []. rewrite app_nil_r. split; [reflexivity|constructor].
Qed.

(** X15.  [_load] returns [true] exactly when some handler matches and
    the callback of the first match returns a value other than [false]:
    what the later callbacks return does not count. *)
Theorem X15_load_result_is_set_by_first_match path st rps b st' :
  _obtainRequestProcessors path st = (Return rps, st) ->
  _load path st = (Return b, st') ->
  b = true <->
  exists rp rest v st1,
    rps = rp :: rest /\
    call (p_activate rp) (with_oldPath (request rp) (_loadedPath st)) st = (Return v, st1) /\
    is_false v = false.
Proof.
  intros Ho. unfold _load. run_M. rewrite Ho.
  destruct rps as [|rp rest]; cbn [_load_loop]; run_M.
  - intros [= <- _]. split; [discriminate|]. intros (? & ? & ? & ? & [=] & _).
  - destruct (call _ _ st) as [[v|e] st1] eqn:Hc; [|discriminate].
    destruct (is_false v) eqn:Hv.
    + intros [= <- _]. split; [discriminate|].
      intros (rp' & rest' & v' & st1' & [= <- <-] & Hc' & Hv'). congruence.
    + destruct (_load_loop rest 1 st1) as [[n|e] st2] eqn:Hl; [|discriminate].
      apply _load_loop_count in Hl. intros [= <- _].
      split; [|intros _; apply Nat.ltb_lt; lia].
      intros _. exists rp, rest, v, st1. auto.
Qed.

(** X17.  [use] with a path (or a callback) and a callback either adds
    one handler at the end of the table, leaving the rest of the router as
    it is, or throws a [TypeError] (the path is neither a string nor a
    function) or a [SyntaxError] (the route does not compile) and changes
    nothing. *)
Theorem X17_use_appends_or_changes_nothing p a st r st' :
  use (UValue p) (UValue a) st = (r, st') ->
  (r = Return tt /\
   (exists pe, _handlers st' =
      _handlers st ++ [{| pathExp := pe; activate := if is_function p then p else a |}]) /\
   window st' = window st /\ _options st' = _options st /\
   _loadedPath st' = _loadedPath st /\ app st' = app st /\ invoked st' = invoked st) \/
  ((r = Throw TypeError \/ r = Throw SyntaxError) /\ st' = st).
Proof.
  unfold use, clearSlashes_arg, stringToPathExp, _tokensToPathExp. run_M.
  destruct p as [|fn|s]; cbn [is_function].
  - intros [= <- <-]. right. auto.
  - intros [= <- <-]. left. cbn. split; [reflexivity|]. split; [eauto|]. auto 10.
  - destruct (new_RegExp _ _) as [re|]; cbn.
    + intros [= <- <-]. left. cbn. split; [reflexivity|]. split; [eauto|]. auto 10.
    + intros [= <- <-]. right. auto.
Qed.

Lemma _loadCurrent_sync st b st' :
  quiet_table st ->
  _loadCurrent st = (Return b, st') ->
  exists p, getCurrent st' = (Return p, st') /\ _loadedPath st' = val p.
Proof.
  intros Hq. unfold _loadCurrent. run_M.
  destruct (getCurrent st) as [[p|e] st0] eqn:Hg; [|discriminate].
  pose proof (getCurrent_state _ _ _ Hg) as ->.
  case_bool_decide as Hp.
  - intros [= _ <-]. exists p. auto.
  - intros Hl. exists p. split; [|eapply _load_return; eauto].
    eapply getCurrent_after_load; eauto.
Qed.

Lemma _merge_listened options : _merge options empty_options = listened options.
Proof. destruct options as [[m|] [r|] [s|]]; reflexivity. Qed.

(** The end of [listen]: the first load, unless [silent]. *)
Lemma listen_first_load (quiet : bool) st b st' :
  (if negb quiet then _loadCurrent else fun st => (Return false, st)) st = (Return b, st') ->
  (quiet = true -> b = false /\ st' = st) /\
  (quiet = false -> quiet_table st ->
   same_setup st st' /\
   exists p, getCurrent st' = (Return p, st') /\ _loadedPath st' = val p).
Proof.
  destruct quiet; cbn [negb].
  - intros [= <- <-]. split; [auto|discriminate].
  - intros Hl. split; [discriminate|]. intros _ Hq.
    split; [eapply _loadCurrent_frame; eauto|eapply _loadCurrent_sync; eauto].
Qed.

(** X19.  When [listen] returns, the router was not listening and the
    mode is [hash] or [history].  With [silent] nothing is loaded and the
    result is [false].  With [silent], or with callbacks that leave the
    router alone, the options are the given ones with [hash], [/] and
    [false] for the missing ones and the handlers are as before; without
    [silent] and with such callbacks the loaded path is the current
    path. *)
Theorem X19_listen_stores_defaults options st b st' :
  listen options st = (Return b, st') ->
  is_object (_options st) = false /\
  (mode (listened options) = Some "hash" \/ mode (listened options) = Some "history") /\
  (silent options = Some true \/ quiet_table st ->
   _options st' = val (listened options) /\ _handlers st' = _handlers st) /\
  (silent options = Some true ->
   b = false /\ invoked st' = invoked st /\ _loadedPath st' = _loadedPath st /\
   app st' = app st) /\
  (silent options <> Some true -> quiet_table st ->
   exists p, getCurrent st' = (Return p, st') /\ _loadedPath st' = val p).
Proof.
  unfold listen. run_M. rewrite _merge_listened.
  destruct (is_object (_options st)) eqn:Hobj; [discriminate|].
  cbn [_options mode].
  set (o := listened options).
  assert (Hsil : truthy (silent o) = bool_decide (silent options = Some true)).
  { destruct options as [m r [[]|]]; reflexivity. }
  intros Hl. split; [reflexivity|].
  assert (Hmode : mode o = Some "hash" \/ mode o = Some "history").
  { destruct (decide (mode o = Some "history")) as [|Hy]; [auto|].
    destruct (decide (mode o = Some "hash")) as [|Hh]; [auto|].
    rewrite !bool_decide_eq_false_2 in Hl by assumption. discriminate. }
  split; [exact Hmode|].
  assert (Hrest : exists st0,
            _options st0 = val o /\ _handlers st0 = _handlers st /\
            invoked st0 = invoked st /\ _loadedPath st0 = _loadedPath st /\
            app st0 = app st /\
            (truthy (silent o) = true -> b = false /\ st' = st0) /\
            (truthy (silent o) = false -> quiet_table st0 ->
             same_setup st0 st' /\
             exists p, getCurrent st' = (Return p, st') /\ _loadedPath st' = val p)).
  { repeat case_bool_decide; try discriminate;
      apply listen_first_load in Hl as (Hq & Hn);
      (eexists; split; [|split; [|split; [|split; [|split; [|split; [exact Hq|exact Hn]]]]]]);
      reflexivity. }
  destruct Hrest as (st0 & Ho0 & Hh0 & Hi0 & Hl0 & Ha0 & Hq & Hn).
  rewrite Hsil in Hq, Hn.
  assert (Htable : quiet_table st -> quiet_table st0)
    by (unfold quiet_table; rewrite Hh0; auto).
  split; [|split].
  - intros [Hs | Hquiet].
    + destruct Hq as [_ ->]; [apply bool_decide_eq_true_2; exact Hs|]. auto.
    + destruct (decide (silent options = Some true)) as [Hs | Hs].
      * destruct Hq as [_ ->]; [apply bool_decide_eq_true_2; exact Hs|]. auto.
      * destruct Hn as [(_ & Ho & Hh) _]; [apply bool_decide_eq_false_2; exact Hs|auto|].
        split; congruence.
  - intros Hs. destruct Hq as [-> ->]; [apply bool_decide_eq_true_2; exact Hs|]. auto.
  - intros Hs Hquiet.
    destruct Hn as [_ Hp]; [apply bool_decide_eq_false_2; exact Hs|auto|]. exact Hp.
Qed.

(** X20.  [navigate] on a listening router writes the location and
    then loads, starting from the written location: the history entry
    [root + path] in history mode, the hash [#path] in hash mode, with
    [path] cleared of its slashes.  With callbacks that leave the router
    alone, that location is still there when [navigate] ends, also when
    the load throws.  When [navigate] returns, the cleared path is the
    loaded path. *)
Theorem X20_navigate_writes_location path st o :
  _options st = val o ->
  let write :=
    if bool_decide (mode o = Some "history")
    then history_pushState (toString_opt (root o) +:+ clearSlashes path)
    else if bool_decide (mode o = Some "hash")
    then location_set_hash ("#" +:+ clearSlashes path)
    else id in
  navigate path st = _load (clearSlashes path) (set_window write st).2 /\
  (quiet_table st -> window (navigate path st).2 = write (window st)) /\
  (forall b st', navigate path st = (Return b, st') ->
     _loadedPath st' = val (clearSlashes path)).
Proof.
  intros Ho write.
  assert (Hn : navigate path st = _load (clearSlashes path) (set_window write st).2).
  { unfold write. clear write. revert Ho. destruct st as [w opts lp hs a inv].
    cbn [_options]. intros ->. unfold navigate. run_M. simpl.
    repeat case_bool_decide; reflexivity. }
  split; [exact Hn|]. split.
  - intros Hq. rewrite Hn.
    destruct (_load (clearSlashes path) (set_window write st).2) as [r st'] eqn:Hl.
    apply _load_frame in Hl as (Hw & _); [|exact Hq]. exact Hw.
  - intros b st' Hnav. rewrite Hn in Hnav. eapply _load_return; eauto.
Qed.

Lemma _extractHandlers_loop_holder parentPath ghs : forall handlers hs,
  _extractHandlers_loop parentPath ghs handlers = Return hs ->
  exists new, hs = handlers ++ new /\ map activate new = map member_activate ghs.
Proof.
  induction ghs as [|gh ghs IH]; intros handlers hs; cbn [_extractHandlers_loop]; run_M.
  - intros [= <-]. exists []. rewrite app_nil_r. auto.
  - unfold member_activate at 1.
    destruct (is_function (g_path gh)) eqn:Hf.
    + destruct (_group_pathExp parentPath None) as [pe|e]; [|discriminate].
      intros Hl. apply IH in Hl as (new & -> & Hm).
      exists ({| pathExp := pe; activate := g_path gh |} :: new).
      rewrite <- app_assoc. split; [reflexivity|]. cbn [map activate]. rewrite Hf, Hm. reflexivity.
    + destruct (clearSlashes_arg (g_path gh)) as [sub|e]; [|discriminate].
      destruct (_group_pathExp parentPath (Some sub)) as [pe|e]; [|discriminate].
      intros Hl. apply IH in Hl as (new & -> & Hm).
      exists ({| pathExp := pe; activate := g_activate gh |} :: new).
      rewrite <- app_assoc. split; [reflexivity|]. cbn [map activate]. rewrite Hf, Hm. reflexivity.
Qed.

(** X10.  In hash mode (any mode but [history]) the current path is
    [clearSlashes] of the text after the first [#] of [location.href],
    and of the empty text when there is no [#]; so a slash at its end
    stays when the text starts with one. *)
Theorem X10_hash_path_is_text_after_first_hash st o :
  _options st = val o -> mode o <> Some "history" ->
  Forall (fun c => not_terminator c = true) (chars (location_href (window st))) ->
  getCurrent st =
  (Return (clearSlashes (str (after_hash (chars (location_href (window st)))))), st).
Proof.
  intros Ho Hm Hnl. unfold getCurrent. run_M. rewrite Ho.
  rewrite bool_decide_eq_false_2 by exact Hm.
  pose proof (hash_match _ Hnl) as Hh.
  destruct (match_ _ _) as [res|].
  - rewrite Hh. reflexivity.
  - injection Hh as <-. reflexivity.
Qed.

(** X11.  In history mode with the root [/], [clearSlashes] is applied
    twice, which strips both sides: the current path neither starts nor
    ends with a slash. *)
Theorem X11_history_path_has_no_outer_slash st o p st' :
  _options st = val o -> mode o = Some "history" -> root o = Some "/" ->
  getCurrent st = (Return p, st') ->
  head (chars p) <> Some "/"%char /\ last (chars p) <> Some "/"%char /\ clearSlashes p = p.
Proof.
  intros Ho Hm Hr. unfold getCurrent. run_M. rewrite Ho.
  rewrite bool_decide_eq_true_2 by exact Hm.
  destruct (URI.decodeURI _) as [d|]; [|discriminate].
  rewrite bool_decide_eq_true_2 by exact Hr.
  intros [= <- _]. apply clearSlashes_twice.
Qed.
Lemma _extractRequest_one_key path parsed text nm value :
  nm <> "__proto__"%string ->
  parsePath path = Return parsed ->
  one_key_path (chars text) (chars (path_of parsed)) value ->
  _extractRequest path (Some (one_key_route text nm)) =
  match URI.decodeURIComponent (str value) with
  | Some d => Return (key_request parsed nm d)
  | None => Throw URIError
  end.
Proof.
  intros Hproto Hp Hv. unfold _extractRequest. run_M. rewrite Hp.
  cbn [mbind option_bind r_path].
  rewrite (one_key_route_exec text nm _ value Hv).
  cbn [captures keys one_key_route _extractRequest_loop]. run_M.
  cbn [mbind option_bind lookup list_lookup of_option name slash_key].
  destruct (URI.decodeURIComponent (str value)) as [d|]; [|reflexivity].
  cbn [of_option]. rewrite (set_property_insert nm d ∅ Hproto), insert_empty. reflexivity.
Qed.

Lemma use_one_key text name act st :
  Forall (fun c => plain c = true) (chars text) ->
  nonempty text = true -> starts_with (fun c => negb (is_slash c)) (chars text) ->
  nonempty name = true ->
  Forall (fun c => is_word c = true) (chars name) ->
  use (UValue (AString (text +:+ "/:" +:+ name))) (UValue act) st =
  (Return tt,
   {| window := window st; _options := _options st; _loadedPath := _loadedPath st;
      _handlers := _handlers st ++ [{| pathExp := one_key_route text name; activate := act |}];
      app := app st; invoked := invoked st |}).
Proof.
  intros Hl Ht Hs Hn Hw. unfold use, clearSlashes_arg. cbn [is_function]. run_M.
  rewrite (clearSlashes_one_key text name Ht Hs Hn Hw).
  rewrite (stringToPathExp_one_key text name Hl Hn Hw). reflexivity.
Qed.

(** *** Further properties of [Router] *)

(** X9.  A fragment without a query does not give an empty query
    object: [split] of the empty string is one empty piece, so [query]
    holds the empty key with the text [undefined]. *)
Theorem X9_query_of_fragment_without_query path u :
  URL_new path = Some u -> search u = EmptyString ->
  parsePath path =
  Return {| path := clearSlashes (pathname u); query := {[ EmptyString := "undefined" ]};
            queryString := EmptyString |}.
Proof.
  intros Hu Hs. unfold parsePath. run_M. rewrite Hu, Hs.
  replace (parseQuery EmptyString)
    with (Return ({[ EmptyString := "undefined" ]} : gmap string string))
    by (vm_compute; reflexivity).
  reflexivity.
Qed.

(** X12.  The request processors of a fragment are those of all the
    handlers whose pattern matches its path, not of the first one only,
    in the order of registration. *)
Theorem X12_processors_follow_registration_order path st rps st' :
  _obtainRequestProcessors path st = (Return rps, st') ->
  exists parsed,
    parsePath path = Return parsed /\
    map p_activate rps = map activate (matching parsed (_handlers st)).
Proof.
  unfold _obtainRequestProcessors. run_M.
  destruct (parsePath path) as [parsed|e]; [|discriminate].
  intros [= Hl _]. exists parsed. split; [reflexivity|].
  eapply _obtainRequestProcessors_loop_filter. exact Hl.
Qed.

(** X16.  When [_loadCurrent], called on the router as [listen] calls
    it, returns, whether it loaded or skipped, and the callbacks of the
    table leave the router alone, the loaded path is the current path
    of the location. *)
Theorem X16_loadCurrent_syncs_loaded_path st b st' :
  quiet_table st ->
  _loadCurrent st = (Return b, st') ->
  exists p, getCurrent st' = (Return p, st') /\ _loadedPath st' = val p.
Proof. apply _loadCurrent_sync. Qed.

(** X18.  [_extractHandlers] adds to the holder it is given one handler
    for each member of the group, in the order of the group, and keeps
    what the holder held. *)
Theorem X18_group_members_in_order parentPath group handlers hs :
  _extractHandlers parentPath group handlers = Return hs ->
  exists new, hs = handlers ++ new /\
    map activate new = map member_activate (g_handlers group).
Proof. apply _extractHandlers_loop_holder. Qed.

(** X22.  Slashes around a literal route do not count: [use] registers
    the same handler for the route with a slash in front, with one at the
    end, with both, and with none. *)
Theorem X22_slashes_around_literal_route p act st :
  Forall (fun c => plain c = true) (chars p) ->
  head (chars p) <> Some "/"%char -> last (chars p) <> Some "/"%char ->
  use (UValue (AString ("/" +:+ p))) (UValue act) st =
    use (UValue (AString p)) (UValue act) st /\
  use (UValue (AString (p +:+ "/"))) (UValue act) st =
    use (UValue (AString p)) (UValue act) st /\
  use (UValue (AString ("/" +:+ p +:+ "/"))) (UValue act) st =
    use (UValue (AString p)) (UValue act) st.
Proof.
  intros Hp Hh Hl.
  destruct (literal_route_slashes p no_options Hp eq_refl Hh Hl) as (H1 & H2 & H3).
  unfold use, clearSlashes_arg. run_M. cbn [is_function].
  rewrite H1, H2, H3. auto.
Qed.

(** X27.  On a path of the route literal [/:name], with a [name] other
    than [__proto__] (which the object [params] does not store),
    [_extractRequest] gives the request whose only parameter is [name],
    with the decoded segment as its value; when the segment is not
    percent-decodable it throws [URIError]. *)
Theorem X27_request_of_one_key_route text name pathExp path parsed value :
  Forall (fun c => plain c = true) (chars text) ->
  nonempty name = true ->
  Forall (fun c => is_word c = true) (chars name) ->
  name <> "__proto__"%string ->
  stringToPathExp (text +:+ "/:" +:+ name) no_options = Return pathExp ->
  parsePath path = Return parsed ->
  one_key_path (chars text) (chars (path_of parsed)) value ->
  _extractRequest path (Some pathExp) =
  match URI.decodeURIComponent (str value) with
  | Some d => Return (key_request parsed name d)
  | None => Throw URIError
  end.
Proof.
  intros Hl Hne Hw Hproto Hs Hp Hv.
  rewrite (stringToPathExp_one_key text name Hl Hne Hw) in Hs.
  injection Hs as <-. apply _extractRequest_one_key; assumption.
Qed.

(** X28.  After [use(literal + '/:' + name, activate)], for a literal
    that is not empty and starts with no slash and a [name] other than
    [__proto__], a path of the route whose segment decodes to [d] has one
    more request processor, the last: [activate], with the request whose
    parameter [name] is [d]. *)
Theorem X28_registered_key_route_is_served text name act st path parsed rps st1 value d :
  Forall (fun c => plain c = true) (chars text) ->
  nonempty text = true -> starts_with (fun c => negb (is_slash c)) (chars text) ->
  nonempty name = true ->
  Forall (fun c => is_word c = true) (chars name) ->
  name <> "__proto__"%string ->
  _obtainRequestProcessors path st = (Return rps, st1) ->
  parsePath path = Return parsed ->
  one_key_path (chars text) (chars (path_of parsed)) value ->
  URI.decodeURIComponent (str value) = Some d ->
  let st' := (use (UValue (AString (text +:+ "/:" +:+ name))) (UValue act) st).2 in
  _obtainRequestProcessors path st' =
  (Return (rps ++ [{| request := key_request parsed name d; p_activate := act |}]), st').
Proof.
  intros Hl Ht Hst Hne Hw Hproto Ho Hp Hv Hd.
  rewrite (use_one_key text name act st Hl Ht Hst Hne Hw). cbn [snd].
  revert Ho. unfold _obtainRequestProcessors. run_M. cbn [_handlers]. rewrite Hp.
  destruct (_obtainRequestProcessors_loop path parsed (_handlers st)) as [a|e] eqn:Ha;
    [|discriminate].
  intros [= <- _].
  rewrite _obtainRequestProcessors_loop_app. run_M. rewrite Ha.
  cbn [_obtainRequestProcessors_loop pathExp activate]. run_M.
  rewrite (proj2 (one_key_route_test text name (path_of parsed)) (ex_intro _ value Hv)).
  rewrite (_extractRequest_one_key path parsed text name value Hproto Hp Hv), Hd.
  reflexivity.
Qed.

(** X29.  After [use(literal + '/:' + name, activate)], for a literal
    that is not empty and starts with no slash, a path that is not of the
    route gets no request processor from it: the request processors are
    those of before the registration. *)
Theorem X29_registered_key_route_is_skipped text name act st path parsed rps st1 :
  Forall (fun c => plain c = true) (chars text) ->
  nonempty text = true -> starts_with (fun c => negb (is_slash c)) (chars text) ->
  nonempty name = true ->
  Forall (fun c => is_word c = true) (chars name) ->
  _obtainRequestProcessors path st = (Return rps, st1) ->
  parsePath path = Return parsed ->
  (forall value, ~ one_key_path (chars text) (chars (path_of parsed)) value) ->
  let st' := (use (UValue (AString (text +:+ "/:" +:+ name))) (UValue act) st).2 in
  _obtainRequestProcessors path st' = (Return rps, st').
Proof.
  intros Hl Ht Hst Hne Hw Ho Hp Hno.
  rewrite (use_one_key text name act st Hl Ht Hst Hne Hw). cbn [snd].
  revert Ho. unfold _obtainRequestProcessors. run_M. cbn [_handlers]. rewrite Hp.
  destruct (_obtainRequestProcessors_loop path parsed (_handlers st)) as [a|e] eqn:Ha;
    [|discriminate].
  intros [= <- _].
  rewrite _obtainRequestProcessors_loop_app. run_M. rewrite Ha.
  cbn [_obtainRequestProcessors_loop pathExp activate]. run_M.
  destruct (test (regexp (one_key_route text name)) (path_of parsed)) eqn:Htest.
  - apply one_key_route_test in Htest. destruct Htest as [value Hv]. destruct (Hno value Hv).
  - rewrite app_nil_r. reflexivity.
Qed.

End RouterFacts.

(** ** Properties shown on the sample routers *)

Import PlainBrowser Examples.

(** C1.  On [chain] two handlers match [a] and the first returns [false]:
    the second is not invoked, one callback has run, and [_load] returns
    [false], not [true]. *)
Theorem C1_false_return_is_not_counted :
  (exists rp1 rp2, (_obtainRequestProcessors "a" chain).1 = Return [rp1; rp2]) /\
  (_load "a" chain).1 = Return false /\
  app (_load "a" chain).2 = ["first"] /\
  length (invoked (_load "a" chain).2) = 1.
Proof.
  split; [|vm_compute; auto].
  vm_compute. eexists _, _. reflexivity.
Qed.



(** A callback that navigates leaves the router out of step: [listen]
    loads the empty path and runs [wanderer]; when it returns the loaded
    path is the empty path and the current path is [home]. *)
Lemma callback_that_navigates :
  (listen empty_options (on_route EmptyString wanderer fresh).2).1 = Return true /\
  _loadedPath wandered = val EmptyString /\
  (getCurrent wandered).1 = Return "home".
Proof. vm_compute. auto. Qed.

(** C3.  After [x], mounting the group [a], [b] on [p] leaves the table
    with [p/a] and [p/b] only; registering [p/a] and [p/b] one by one
    leaves [x], [p/a], [p/b]. *)
Theorem C3_group_replaces_earlier_handlers :
  sources grouped = ["^p\/a(?:\/(?=$))?$"; "^p\/b(?:\/(?=$))?$"] /\
  sources separate = ["^x(?:\/(?=$))?$"; "^p\/a(?:\/(?=$))?$"; "^p\/b(?:\/(?=$))?$"] /\
  exists x, _handlers separate = x :: _handlers grouped.
Proof.
  split; [vm_compute; reflexivity|]. split; [vm_compute; reflexivity|].
  vm_compute. eexists. reflexivity.
Qed.

(** C4.  [listen] with the mode [pushState] throws [InvalidMode], with
    [_options] already stored and no listener added.  The router has not
    started, and yet the next [listen] throws [AlreadyListening], and
    [navigate] does not throw [NotListening]: it runs the handler of [a]
    and returns [true]. *)
Theorem C4_failed_listen_counts_as_listening :
  (listen pushState_mode registered).1 = Throw (InvalidMode (Some "pushState")) /\
  window failed_start = window registered /\
  (listen quiet failed_start).1 = Throw AlreadyListening /\
  (navigate "a" failed_start).1 = Return true /\
  app (navigate "a" failed_start).2 = ["h"].
Proof. vm_compute. auto 6. Qed.

(** C5 as stated fails: the undecodable [x] makes [parseQuery]
    throw, [y] is not parsed, and [navigate] ends with the [URIError]
    without calling the handler of [a]. *)
Lemma C5_malformed_query_throws :
  parseQuery "?x=%&y=1" = Throw URIError /\
  (navigate "a?x=%&y=1" visited).1 = Throw URIError /\
  app (navigate "a?x=%&y=1" visited).2 = app visited.
Proof. vm_compute. auto. Qed.

Lemma C5_decode_failure_witness :
  _load "a?x=%&y=1" visited = (Throw URIError, visited) /\
  _load "companies/%" companies = (Throw URIError, companies).
Proof.
  split.
  - destruct (C5_decode_failure_propagates visited "a?x=%&y=1") as (e & He & Hk).
    + apply (query_failure visited "a?x=%&y=1" (parse_url "a?x=%&y=1").1 "x=%").
      * reflexivity.
      * vm_compute. apply list_elem_of_here.
      * right. vm_compute. reflexivity.
    + rewrite He. rewrite Hk; [reflexivity|]. vm_compute. repeat constructor.
  - destruct (C5_decode_failure_propagates companies "companies/%") as (e & He & Hk).
    + eapply (param_failure companies "companies/%" _ [] _ [] _ "%").
      * vm_compute. reflexivity.
      * vm_compute. reflexivity.
      * constructor.
      * vm_compute. reflexivity.
      * vm_compute. apply list_elem_of_here.
      * vm_compute. reflexivity.
    + rewrite He. rewrite Hk; [reflexivity|]. vm_compute. repeat constructor.
Defined.

(** C6.  The key [a] has no [=value]: the value stored for it is the
    nine-letter text [undefined], not an absent value. *)
Theorem C6_missing_value_is_text_undefined :
  exists q, parseQuery "?a&b=1" = Return q /\
    q !! "a" = Some "undefined" /\ q !! "b" = Some "1".
Proof. eexists. split; [vm_compute; reflexivity|]. vm_compute. auto. Qed.

Lemma C7_stop_is_full_reset_witness :
  exists st', stop visited = (Return tt, st') /\
    _handlers st' = [] /\ _loadedPath st' = null /\ _options st' = null /\
    (forall options, (listen options st').1 <> Throw AlreadyListening) /\
    (forall options,
       silent options = Some true ->
       mode options = None \/ mode options = Some "hash" \/ mode options = Some "history" ->
       exists st'', listen options st' = (Return false, st'') /\
         is_object (_options st'') = true).
Proof.
  apply (C7_stop_is_full_reset visited
           {| mode := Some "hash"; root := Some "/"; silent := Some true |}).
  vm_compute. reflexivity.
Defined.

(** C8.  The route [:id(\(a\))] has one key, and its pattern has two
    capturing groups: [_escapeGroup] puts a backslash before the
    parentheses that the route had already escaped.  On the path that the
    pattern matches, the second group finds no key. *)
Theorem C8_escaped_parenthesis_adds_group :
  exists pathExp ks res,
    stringToPathExp ":id(\(a\))" no_options = Return pathExp /\
    keys pathExp = Some ks /\
    source (regexp pathExp) = "^(\\(a\\))(?:\/(?=$))?$" /\
    ncaptures (regexp pathExp) = 2 /\
    capturing_parens (source (regexp pathExp)) = 2 /\
    length ks = 1 /\
    exec (regexp pathExp) "\a\" = Some res /\
    captures res = [Some "\a\"; Some "a\"] /\
    _extractRequest_loop (Some ks) (captures res) 0 ∅ = Throw TypeError.
Proof.
  eexists _, _, _.
  split; [vm_compute; reflexivity|].
  split; [vm_compute; reflexivity|].
  split; [vm_compute; reflexivity|].
  split; [vm_compute; reflexivity|].
  split; [vm_compute; reflexivity|].
  split; [vm_compute; reflexivity|].
  split; [vm_compute; reflexivity|].
  split; vm_compute; reflexivity.
Qed.

Lemma C9_load_advances_loaded_path_witness :
  _loadedPath (_load "nowhere" chain).2 = val "nowhere" /\
  _loadedPath (_load "a" chain).2 = val "a".
Proof.
  split.
  - apply (proj1 (C9_load_advances_loaded_path chain "nowhere") false).
    vm_compute. reflexivity.
  - apply (proj1 (C9_load_advances_loaded_path chain "a") false).
    vm_compute. reflexivity.
Defined.

Lemma C10_stop_requires_listening_witness :
  stop fresh = (Throw TypeError, fresh) /\
  stop (stop visited).2 = (Throw TypeError, (stop visited).2).
Proof.
  split.
  - apply (C10_stop_requires_listening fresh). left. reflexivity.
  - apply (proj2 (C10_stop_requires_listening fresh (or_introl eq_refl)) visited).
    vm_compute. reflexivity.
Defined.

(** ** The further properties on the sample routers *)

Lemma X4_trailing_slash_is_dropped_witness :
  _tokensToPathExp ([TKey id_key] ++ [TString ("/edit" +:+ "/")]) no_options =
  _tokensToPathExp ([TKey id_key] ++ [TString "/edit"]) no_options.
Proof.
  apply X4_trailing_slash_is_dropped; [reflexivity|vm_compute; discriminate].
Defined.

Lemma X5_parse_loop_terminates_witness :
  _parse_loop 9 "a/:b" 0 [] 0 0 EmptyString = _parse "a/:b".
Proof. apply (proj2 (X5_parse_loop_terminates "a/:b")). simpl. lia. Defined.

Lemma X6_parseQuery_single_pair_witness :
  parseQuery ("?" +:+ "page" +:+ "=" +:+ "2") = Return {[ "page" := "2" ]}.
Proof.
  apply X6_parseQuery_single_pair; try discriminate;
    refine (bool_decide_unpack _ _); vm_compute; exact I.
Defined.

Lemma X7_parseQuery_later_pair_wins_witness :
  parseQuery ("?a=1" +:+ "&" +:+ "a" +:+ "=" +:+ "2") = Return (<["a" := "2"]> {[ "a" := "1" ]}).
Proof.
  apply X7_parseQuery_later_pair_wins; try discriminate;
    try (refine (bool_decide_unpack _ _); vm_compute; exact I).
  vm_compute. reflexivity.
Defined.

Lemma X8_params_are_decoded_captures_witness :
  exists j key a,
    Some [id_key] ≫= (.!! j) = Some key /\ name key = "id" /\
    [Some "4%32"] !! j = Some (Some a) /\ URI.decodeURIComponent a = Some "42".
Proof.
  apply (X8_params_are_decoded_captures (Some [id_key]) [Some "4%32"] {[ "id" := "42" ]}
           "id" "42"); vm_compute; reflexivity.
Defined.

Lemma X9_query_of_fragment_without_query_witness :
  parsePath "a" =
  Return {| path := clearSlashes (pathname (parse_url "a").1);
            query := {[ EmptyString := "undefined" ]}; queryString := EmptyString |}.
Proof. apply X9_query_of_fragment_without_query; reflexivity. Defined.

Lemma X10_hash_path_is_text_after_first_hash_witness :
  getCurrent visited =
  (Return (clearSlashes (str (after_hash (chars (location_href (window visited)))))),
   visited).
Proof.
  apply (X10_hash_path_is_text_after_first_hash visited
           {| mode := Some "hash"; root := Some "/"; silent := Some true |}).
  - vm_compute. reflexivity.
  - discriminate.
  - refine (bool_decide_unpack _ _). vm_compute. exact I.
Defined.

Lemma X11_history_path_has_no_outer_slash_witness :
  getCurrent shop = (Return "shop/items", shop) /\
  head (chars "shop/items") <> Some "/"%char /\ last (chars "shop/items") <> Some "/"%char /\
  clearSlashes "shop/items" = "shop/items".
Proof.
  assert (Hg : getCurrent shop = (Return "shop/items", shop)) by (vm_compute; reflexivity).
  split; [exact Hg|].
  apply (X11_history_path_has_no_outer_slash shop
           {| mode := Some "history"; root := Some "/"; silent := Some true |}
           "shop/items" shop); [vm_compute; reflexivity|reflexivity|reflexivity|exact Hg].
Defined.

Lemma X12_processors_follow_registration_order_witness :
  exists rps parsed,
    (_obtainRequestProcessors "a" chain).1 = Return rps /\
    parsePath "a" = Return parsed /\
    length rps = 2 /\
    map p_activate rps = map activate (matching parsed (_handlers chain)).
Proof.
  destruct (_obtainRequestProcessors "a" chain) as [[rps|e] st'] eqn:Ho;
    [|vm_compute in Ho; discriminate].
  destruct (X12_processors_follow_registration_order "a" chain rps st' Ho)
    as (parsed & Hp & Hm).
  exists rps, parsed. split; [reflexivity|]. split; [exact Hp|]. split; [|exact Hm].
  vm_compute in Ho. injection Ho as <- _. reflexivity.
Defined.

Lemma X13_callback_without_path_matches_all_witness :
  exists rps parsed,
    (_obtainRequestProcessors "a" chain).1 = Return rps /\
    parsePath "a" = Return parsed /\
    (_obtainRequestProcessors "a"
       (use (UValue (AFunction (logger "any" VUndefined))) (UValue AUndefined) chain).2).1 =
    Return (rps ++ [{| request := plain_request parsed;
                       p_activate := AFunction (logger "any" VUndefined) |}]).
Proof.
  destruct (_obtainRequestProcessors "a" chain) as [[rps|e] st'] eqn:Ho;
    [|vm_compute in Ho; discriminate].
  destruct (X13_callback_without_path_matches_all (logger "any" VUndefined) AUndefined
              chain "a" rps st' Ho) as (parsed & Hp & Hm).
  exists rps, parsed. split; [reflexivity|]. split; [exact Hp|].
  cbv zeta in Hm. rewrite Hm. reflexivity.
Defined.

Lemma X14_callbacks_receive_previous_path_witness :
  exists calls, invoked (_load "a" visited).2 = invoked visited ++ calls /\
    Forall (fun rp => r_oldPath (request rp) = _loadedPath visited) calls.
Proof.
  apply (X14_callbacks_receive_previous_path "a" visited
           (_load "a" visited).1 (_load "a" visited).2).
  - vm_compute. repeat constructor. intros fn request a [= <-]. reflexivity.
  - apply surjective_pairing.
Defined.

Lemma X15_load_result_is_set_by_first_match_witness :
  exists rps,
    _obtainRequestProcessors "a" chain = (Return rps, chain) /\
    ((_load "a" chain).1 = Return true <->
     exists rp rest v st1,
       rps = rp :: rest /\
       call (p_activate rp) (with_oldPath (request rp) (_loadedPath chain)) chain
         = (Return v, st1) /\
       is_false v = false).
Proof.
  destruct (_obtainRequestProcessors "a" chain) as [[rps|e] st'] eqn:Ho;
    [|vm_compute in Ho; discriminate].
  assert (st' = chain) as -> by (eapply _obtainRequestProcessors_state; eauto).
  exists rps. split; [reflexivity|].
  destruct (_load "a" chain) as [[b|e] st''] eqn:Hl; [|vm_compute in Hl; discriminate].
  cbn [fst].
  destruct (X15_load_result_is_set_by_first_match "a" chain rps b st'' Ho Hl) as [H1 H2].
  split.
  - intros [= ->]. apply H1. reflexivity.
  - intros Hx. f_equal. apply H2. exact Hx.
Defined.

Lemma X16_loadCurrent_syncs_loaded_path_witness :
  exists p, getCurrent visited = (Return p, visited) /\ _loadedPath visited = val p.
Proof.
  apply (X16_loadCurrent_syncs_loaded_path visited false visited).
  - vm_compute. repeat constructor. intros fn request a [= <-]. reflexivity.
  - vm_compute. reflexivity.
Defined.

Lemma X17_use_appends_or_changes_nothing_witness :
  (exists pe, _handlers (on_route "b" (logger "b" VUndefined) visited).2 =
     _handlers visited ++ [{| pathExp := pe; activate := AFunction (logger "b" VUndefined) |}]) /\
  use (UValue (AString "a\")) (UValue (AFunction (logger "b" VUndefined))) visited =
    (Throw SyntaxError, visited).
Proof.
  split.
  - destruct (X17_use_appends_or_changes_nothing (AString "b")
                (AFunction (logger "b" VUndefined)) visited
                (on_route "b" (logger "b" VUndefined) visited).1
                (on_route "b" (logger "b" VUndefined) visited).2)
      as [(_ & Hh & _)|([Hr|Hr] & _)].
    + apply surjective_pairing.
    + exact Hh.
    + vm_compute in Hr. discriminate.
    + vm_compute in Hr. discriminate.
  - vm_compute. reflexivity.
Defined.

Lemma X18_group_members_in_order_witness :
  exists hs new,
    _extractHandlers (Some "p") group_ab (_handlers visited) = Return hs /\
    hs = _handlers visited ++ new /\
    map activate new = map member_activate (g_handlers group_ab).
Proof.
  destruct (_extractHandlers (Some "p") group_ab (_handlers visited)) as [hs|e] eqn:Hx;
    [|vm_compute in Hx; discriminate].
  destruct (X18_group_members_in_order (Some "p") group_ab (_handlers visited) hs Hx)
    as (new & Hn & Hm).
  exists hs, new. auto.
Defined.

Lemma X19_listen_stores_defaults_witness :
  _options (listen empty_options registered).2 =
    val {| mode := Some "hash"; root := Some "/"; silent := Some false |} /\
  _handlers (listen empty_options registered).2 = _handlers registered /\
  getCurrent (listen empty_options registered).2 =
    (Return EmptyString, (listen empty_options registered).2) /\
  _loadedPath (listen empty_options registered).2 = val EmptyString.
Proof.
  assert (Hq : quiet_table registered).
  { vm_compute. repeat constructor. intros fn request a [= <-]. reflexivity. }
  destruct (X19_listen_stores_defaults empty_options registered false
              (listen empty_options registered).2)
    as (_ & _ & Ho & _ & Hp).
  - vm_compute. reflexivity.
  - destruct (Ho (or_intror Hq)) as [Ho1 Ho2]. split; [exact Ho1|]. split; [exact Ho2|].
    destruct (Hp ltac:(discriminate) Hq) as (p & Hg & Hl).
    assert (Hpe : p = EmptyString).
    { assert (Hl' : _loadedPath (listen empty_options registered).2 = val EmptyString)
        by (vm_compute; reflexivity).
      rewrite Hl in Hl'. injection Hl' as ->. reflexivity. }
    subst p. split; [exact Hg|exact Hl].
Defined.

Lemma X20_navigate_writes_location_witness :
  window (navigate "/b?x=%" visited).2 =
    location_set_hash ("#" +:+ clearSlashes "/b?x=%") (window visited) /\
  (navigate "/b?x=%" visited).1 = Throw URIError.
Proof.
  split; [|vm_compute; reflexivity].
  destruct (X20_navigate_writes_location "/b?x=%" visited
              {| mode := Some "hash"; root := Some "/"; silent := Some true |})
    as (_ & Hw & _).
  - vm_compute. reflexivity.
  - rewrite Hw; [reflexivity|].
    vm_compute. repeat constructor. intros fn request a [= <-]. reflexivity.
Defined.

Lemma X21_literal_route_is_one_token_witness :
  _parse "companies/list" = [TString "companies/list"].
Proof.
  apply (proj1 (X21_literal_route_is_one_token "companies/list"
                  ltac:(refine (bool_decide_unpack _ _); vm_compute; exact I))).
Defined.

Lemma X22_slashes_around_literal_route_witness :
  use (UValue (AString ("/" +:+ "a/b" +:+ "/"))) (UValue (AFunction (logger "h" VUndefined)))
    fresh =
  use (UValue (AString "a/b")) (UValue (AFunction (logger "h" VUndefined))) fresh.
Proof.
  apply (proj2 (proj2 (X22_slashes_around_literal_route "a/b"
                         (AFunction (logger "h" VUndefined)) fresh
                         ltac:(refine (bool_decide_unpack _ _); vm_compute; exact I)
                         ltac:(vm_compute; discriminate)
                         ltac:(vm_compute; discriminate)))).
Defined.

Lemma X23_route_with_one_key_tokens_witness :
  _parse ("companies" +:+ "/:" +:+ "id" +:+ "/edit") =
  [TString "companies"] ++ [TKey (slash_key "id")] ++ [TString "/edit"].
Proof.
  apply (X23_route_with_one_key_tokens "companies" "id" "/edit").
  - refine (bool_decide_unpack _ _). vm_compute. exact I.
  - reflexivity.
  - refine (bool_decide_unpack _ _). vm_compute. exact I.
  - reflexivity.
  - refine (bool_decide_unpack _ _). vm_compute. exact I.
Defined.

Lemma X24_route_with_one_key_pattern_witness :
  exists pathExp,
    stringToPathExp ("companies" +:+ "/:" +:+ "id") no_options = Return pathExp /\
    keys pathExp = Some [slash_key "id"] /\
    source (regexp pathExp) = "^companies\/([^\/]+?)(?:\/(?=$))?$".
Proof.
  destruct (stringToPathExp ("companies" +:+ "/:" +:+ "id") no_options) as [pe|e] eqn:Hs;
    [|vm_compute in Hs; discriminate].
  exists pe. split; [reflexivity|].
  destruct (X24_route_with_one_key_pattern "companies" "id" pe) as [Hk Hsrc].
  - refine (bool_decide_unpack _ _). vm_compute. exact I.
  - reflexivity.
  - refine (bool_decide_unpack _ _). vm_compute. exact I.
  - exact Hs.
  - split; [exact Hk|]. rewrite Hsrc. vm_compute. reflexivity.
Defined.

Lemma X25_route_with_one_key_compiles_witness :
  stringToPathExp ("companies" +:+ "/:" +:+ "id") no_options =
  Return (one_key_route "companies" "id").
Proof.
  apply (X25_route_with_one_key_compiles "companies" "id").
  - refine (bool_decide_unpack _ _). vm_compute. exact I.
  - reflexivity.
  - refine (bool_decide_unpack _ _). vm_compute. exact I.
Defined.

Lemma X26_route_with_one_key_matches_witness :
  exists pathExp,
    stringToPathExp ("companies" +:+ "/:" +:+ "id") no_options = Return pathExp /\
    test (regexp pathExp) "Companies/42/" = true.
Proof.
  destruct (stringToPathExp ("companies" +:+ "/:" +:+ "id") no_options) as [pe|e] eqn:Hs;
    [|vm_compute in Hs; discriminate].
  exists pe. split; [reflexivity|].
  apply (proj2 (X26_route_with_one_key_matches "companies" "id" pe "Companies/42/"
                  ltac:(refine (bool_decide_unpack _ _); vm_compute; exact I)
                  eq_refl
                  ltac:(refine (bool_decide_unpack _ _); vm_compute; exact I)
                  Hs)).
  exists (chars "42"), (chars "Companies"), ["/"%char].
  split; [reflexivity|]. split; [repeat constructor|].
  split; [split; [discriminate|repeat constructor]|right; reflexivity].
Defined.

Lemma X27_request_of_one_key_route_witness :
  exists pathExp parsed,
    stringToPathExp ("companies" +:+ "/:" +:+ "id") no_options = Return pathExp /\
    parsePath "companies/4%32" = Return parsed /\
    _extractRequest "companies/4%32" (Some pathExp) = Return (key_request parsed "id" "42").
Proof.
  destruct (stringToPathExp ("companies" +:+ "/:" +:+ "id") no_options) as [pe|e] eqn:Hs;
    [|vm_compute in Hs; discriminate].
  destruct (parsePath "companies/4%32") as [parsed|e] eqn:Hp;
    [|vm_compute in Hp; discriminate].
  assert (Hpath : path_of parsed = "companies/4%32"%string)
    by (vm_compute in Hp; injection Hp as <-; reflexivity).
  exists pe, parsed. split; [reflexivity|]. split; [reflexivity|].
  rewrite (X27_request_of_one_key_route "companies" "id" pe "companies/4%32" parsed
             (chars "4%32")
             ltac:(refine (bool_decide_unpack _ _); vm_compute; exact I)
             eq_refl
             ltac:(refine (bool_decide_unpack _ _); vm_compute; exact I)
             ltac:(discriminate)
             Hs Hp).
  - reflexivity.
  - rewrite Hpath. exists (chars "companies"), []. 
    split; [reflexivity|]. split; [repeat constructor|].
    split; [split; [discriminate|repeat constructor]|left; reflexivity].
Defined.

Lemma X28_registered_key_route_is_served_witness :
  exists parsed,
    parsePath "companies/4%32" = Return parsed /\
    (_obtainRequestProcessors "companies/4%32"
       (use (UValue (AString ("companies" +:+ "/:" +:+ "id")))
            (UValue (AFunction (logger "company" VUndefined))) fresh).2).1 =
    Return [{| request := key_request parsed "id" "42";
               p_activate := AFunction (logger "company" VUndefined) |}].
Proof.
  destruct (parsePath "companies/4%32") as [parsed|e] eqn:Hp;
    [|vm_compute in Hp; discriminate].
  assert (Hpath : path_of parsed = "companies/4%32"%string)
    by (vm_compute in Hp; injection Hp as <-; reflexivity).
  assert (Ho : _obtainRequestProcessors "companies/4%32" fresh = (Return [], fresh))
    by (vm_compute; reflexivity).
  exists parsed. split; [reflexivity|].
  pose proof (X28_registered_key_route_is_served "companies" "id"
                (AFunction (logger "company" VUndefined)) fresh "companies/4%32" parsed []
                fresh (chars "4%32") "42"
                ltac:(refine (bool_decide_unpack _ _); vm_compute; exact I)
                eq_refl eq_refl eq_refl
                ltac:(refine (bool_decide_unpack _ _); vm_compute; exact I)
                ltac:(discriminate)
                Ho Hp) as Hm.
  cbv zeta in Hm. rewrite Hm; [reflexivity| |vm_compute; reflexivity].
  rewrite Hpath. exists (chars "companies"), [].
  split; [reflexivity|]. split; [repeat constructor|].
  split; [split; [discriminate|repeat constructor]|left; reflexivity].
Defined.

Lemma X29_registered_key_route_is_skipped_witness :
  exists parsed,
    parsePath "about" = Return parsed /\
    (_obtainRequestProcessors "about"
       (use (UValue (AString ("companies" +:+ "/:" +:+ "id")))
            (UValue (AFunction (logger "company" VUndefined))) fresh).2).1 = Return [].
Proof.
  destruct (parsePath "about") as [parsed|e] eqn:Hp; [|vm_compute in Hp; discriminate].
  assert (Hpath : path_of parsed = "about"%string)
    by (vm_compute in Hp; injection Hp as <-; reflexivity).
  assert (Ho : _obtainRequestProcessors "about" fresh = (Return [], fresh))
    by (vm_compute; reflexivity).
  exists parsed. split; [reflexivity|].
  pose proof (X29_registered_key_route_is_skipped "companies" "id"
                (AFunction (logger "company" VUndefined)) fresh "about" parsed [] fresh
                ltac:(refine (bool_decide_unpack _ _); vm_compute; exact I)
                eq_refl eq_refl eq_refl
                ltac:(refine (bool_decide_unpack _ _); vm_compute; exact I)
                Ho Hp) as Hm.
  cbv zeta in Hm. rewrite Hm; [reflexivity|].
  intros value (seen & tail & Heq & _). rewrite Hpath in Heq.
  assert (Hin : "/"%char ∈ chars "about") by (rewrite Heq; apply elem_of_app; right; left).
  revert Hin. refine (bool_decide_unpack _ _). vm_compute. exact I.
Defined.
